(** * Collage: local-node networking core, object data streams and child
      reconciliation.

    A shallow embedding of the parts of the Collage sources that the
    specification makes testable statements about, and of the code around
    them:

    - [SendToken]: the send-token arbitrator of [co::LocalNode]
      ([_cmdAcquireSendToken], [_cmdReleaseSendToken], [releaseSendToken]);
    - [ObjectDataIStream]: the command deque behind a versioned object data
      stream ([addDataPacket], [reset], [getNextCommand], [getDataSize],
      [getPendingVersion]);
    - [Children]: [DataIStream::deserializeChildren];
    - [Connect]: the retry loop of connect-by-NodeID;
    - [Redispatch]: [_redispatchCommands] and [_dispatchCommand];
    - [LocalNode]: the CONNECT / CONNECT_REPLY / DISCONNECT handlers and
      [close];
    - [Receiver]: the select loop of the receiver thread;
    - [InitLocal]: the command line of [initLocal].

    Pointers are natural numbers, [None] is the null pointer.  Fixed-width
    integers are [Z] with the wrap-around written out.  Calls into
    collaborators that are not part of the modelled sources (connections,
    the object store, the request handler) are recorded as events. *)

From stdpp Require Import gmap list strings.
From Stdlib Require Import ZArith Lia.
From Equations Require Import Equations.

Local Open Scope Z_scope.

(** ** Results of code that may hit an assertion or a null pointer *)

Inductive Outcome (A : Type) : Type :=
| Ok (a : A)      (* normal return *)
| AssertFail      (* an EQASSERT / LBASSERT / EQCHECK fired (debug build) *)
| Crash.          (* a null or dangling pointer was dereferenced *)
Arguments Ok {A} a.
Arguments AssertFail {A}.
Arguments Crash {A}.

#[global] Instance Outcome_bind : MBind Outcome := fun A B k m =>
  match m with
  | Ok a => k a
  | AssertFail => AssertFail
  | Crash => Crash
  end.

(** [EQASSERT( cond )]: compiled out when [NDEBUG] is defined, aborts in a
    debug build when [cond] is false. *)
Definition EQASSERT {A} (NDEBUG : bool) (cond : bool) (k : Outcome A) : Outcome A :=
  if NDEBUG then k else if cond then k else AssertFail.

(** [EQCHECK( expr )]: [expr] is evaluated in every build (by the caller);
    its value is only asserted in a debug build. *)
Definition EQCHECK {A} (NDEBUG : bool) (value : bool) (k : Outcome A) : Outcome A :=
  EQASSERT NDEBUG value k.

(** Case analysis on a computed value that keeps the equation, for
    definitions by well-founded recursion. *)
Definition inspect {A} (a : A) : {b | a = b} := exist _ a eq_refl.

(** A dereference of a possibly null pointer. *)
Definition deref {A} (p : option A) : Outcome A :=
  match p with
  | Some a => Ok a
  | None => Crash
  end.

Definition wrap32 (z : Z) : Z := z mod 2 ^ 32.
Definition wrap64 (z : Z) : Z := z mod 2 ^ 64.

(** ** The send-token arbitrator (libs/co/localNode.cpp) *)

Module SendToken.

(** [NodePtr]; the token handle [LocalNode::SendToken] is a [NodePtr]. *)
Definition NodePtr := option nat.

(** A received ACQUIRE_SEND_TOKEN command: the sending node
    ([command.getNode()]) and [NodeAcquireSendTokenPacket::requestID]. *)
Record Command := {
  getNode : nat;
  requestID : Z
}.

Inductive Event :=
| Retain (c : Command)                       (* command.retain()  *)
| Release (c : Command)                      (* command->release() *)
| SendAcquireReply (to : nat) (request : Z)  (* node->send( NodeAcquireSendTokenReplyPacket( packet )) *)
| SendRelease (to : nat).                    (* node->send( NodeReleaseSendTokenPacket ) *)

(** The token fields of [detail::LocalNode]. *)
Record Impl := {
  sendToken : bool;                  (* send token availability *)
  lastSendToken : Z;                 (* uint64_t, last used time *)
  sendTokenQueue : list Command      (* std::deque< Command* > *)
}.

(** [detail::LocalNode::LocalNode()]:
    [sendToken( true ), lastSendToken( 0 )]. *)
Definition Impl_ctor : Impl :=
  {| sendToken := true; lastSendToken := 0; sendTokenQueue := [] |}.

Section Handlers.
(** [LB_TIMEOUT_INDEFINITE] comes from lunchbox/types.h, which is not part
    of the sources at hand. *)
Variable LB_TIMEOUT_INDEFINITE : Z.

(** [LocalNode::_cmdAcquireSendToken].  [now] is [getTime64()] (int64_t),
    [timeout] is [Global::getTimeout()] (uint32_t).  The subtraction
    [getTime64() - lastSendToken] is carried out in uint64_t.  The guard
    is the source's [!_impl->sendToken == 0]: the negated bit is compared
    with the integer 0. *)
Definition _cmdAcquireSendToken (now timeout : Z) (command : Command) (impl : Impl)
  : bool * Impl * list Event :=
  let grant (queue : list Command) :=
    (true,
     {| sendToken := false;
        lastSendToken := lastSendToken impl;
        sendTokenQueue := queue |},
     [SendAcquireReply (getNode command) (requestID command)]) in
  if Z.b2z (negb (sendToken impl)) =? 0 then
    if (timeout =? LB_TIMEOUT_INDEFINITE)
       || (wrap64 (now - lastSendToken impl) <=? timeout)
    then
      (true,
       {| sendToken := sendToken impl;
          lastSendToken := lastSendToken impl;
          sendTokenQueue := sendTokenQueue impl ++ [command] |},
       [Retain command])
    else
      (* timeout! - clear old requests *)
      grant []
  else
    grant (sendTokenQueue impl).
End Handlers.

(** [LocalNode::_cmdReleaseSendToken]. *)
Definition _cmdReleaseSendToken (now : Z) (impl : Impl) : bool * Impl * list Event :=
  let last := wrap64 now in
  if sendToken impl then
    (* double release due to timeout *)
    (true,
     {| sendToken := true; lastSendToken := last;
        sendTokenQueue := sendTokenQueue impl |}, [])
  else
    match sendTokenQueue impl with
    | [] =>
        (true,
         {| sendToken := true; lastSendToken := last; sendTokenQueue := [] |}, [])
    | request :: rest =>
        (true,
         {| sendToken := false; lastSendToken := last; sendTokenQueue := rest |},
         [SendAcquireReply (getNode request) (requestID request); Release request])
    end.

(** [LocalNode::releaseSendToken( SendToken& node )]: returns the new value
    of the caller's handle and what was sent. *)
Definition releaseSendToken (node : NodePtr) : NodePtr * list Event :=
  match node with
  | None => (node, [])
  | Some n => (None, [SendRelease n])
  end.

(** The part of the holder's state that says who has the token and who waits
    for it. *)
Definition tokenState (impl : Impl) : bool * list Command :=
  (sendToken impl, sendTokenQueue impl).

(** The token commands the command thread hands to the two handlers, each
    with the clock value ([getTime64()]) and, for an acquire, the timeout
    ([Global::getTimeout()]) the handler reads. *)
Inductive TokenCommand :=
| AcquireSendToken (now timeout : Z) (command : Command)
| ReleaseSendToken (now : Z).

Section Arbitrator.
Variable LB_TIMEOUT_INDEFINITE : Z.

Definition handle (c : TokenCommand) (impl : Impl) : bool * Impl * list Event :=
  match c with
  | AcquireSendToken now timeout command =>
      _cmdAcquireSendToken LB_TIMEOUT_INDEFINITE now timeout command impl
  | ReleaseSendToken now => _cmdReleaseSendToken now impl
  end.

(** A run of token commands, handled one after the other. *)
Fixpoint handle_all (cs : list TokenCommand) (impl : Impl) : Impl * list Event :=
  match cs with
  | [] => (impl, [])
  | c :: rest =>
      let '(_, impl, sent) := handle c impl in
      let '(impl, sent') := handle_all rest impl in
      (impl, sent ++ sent')
  end.
End Arbitrator.

(** Reading a log of calls: the commands retained and the commands released. *)
Definition retained (evs : list Event) : list Command :=
  omap (λ e, match e with Retain c => Some c | _ => None end) evs.

Definition released (evs : list Event) : list Command :=
  omap (λ e, match e with Release c => Some c | _ => None end) evs.

(** The calls that grant the token to a queued request. *)
Definition grant (request : Command) : list Event :=
  [SendAcquireReply (getNode request) (requestID request); Release request].

End SendToken.

(** ** ObjectDataIStream (lib/net/objectDataIStream.cpp) *)

Module ObjectDataIStream.

(** The fields of [ObjectDataPacket] the stream looks at. *)
Record ObjectDataPacket := {
  sequence : Z;      (* uint32_t *)
  version : Z;       (* uint32_t *)
  dataSize : Z;      (* uint64_t *)
  last : bool
}.

(** A [Command] is looked at through [getPacket< ObjectDataPacket >()]. *)
Record Command := { getPacket : ObjectDataPacket }.

Record Stream := {
  _commands : list (option Command);   (* CommandDeque of Command*, 0 is null *)
  _version : Z;
  ready : bool;
  held : nat                           (* references held: retain() minus release() *)
}.

Section Stream.
(** [VERSION_INVALID] is declared in a header that is not part of the
    sources at hand. *)
Variable VERSION_INVALID : Z.
Variable NDEBUG : bool.

(** [ObjectDataIStream::ObjectDataIStream()]: the deque starts with a null
    entry, see [getNextCommand]. *)
Definition ObjectDataIStream_ctor : Stream :=
  {| _commands := [None]; _version := VERSION_INVALID; ready := false; held := 0 |}.

(** The [while( !_commands.empty( ))] loop of [reset]: releases every
    non-null command and pops it. *)
Fixpoint release_all (commands : list (option Command)) (held : nat) : nat :=
  match commands with
  | [] => held
  | None :: rest => release_all rest held
  | Some _ :: rest => release_all rest (Nat.pred held)
  end.

(** Modelled from the spec: the ready flag of the base class
    (dataIStream.cpp and objectDataIStream.h are not under src/).  "Any ->
    EMPTY on [reset()]": [DataIStream::reset()] clears the flag. *)
Definition DataIStream_reset (s : Stream) : Stream :=
  {| _commands := _commands s; _version := _version s; ready := false; held := held s |}.

(** Modelled from the spec: [_setReady()] (objectDataIStream.h is not under
    src/).  "ready becomes true when a command with last=true arrives". *)
Definition _setReady (s : Stream) : Stream :=
  {| _commands := _commands s; _version := _version s; ready := true; held := held s |}.

(** [ObjectDataIStream::reset()]: the deque is left empty. *)
Definition reset (s : Stream) : Stream :=
  let s := DataIStream_reset s in
  {| _commands := [];
     _version := VERSION_INVALID;
     ready := ready s;
     held := release_all (_commands s) (held s) |}.

(** The [#ifndef NDEBUG] block of [addDataPacket]. *)
Definition check_packet (packet : ObjectDataPacket) (s : Stream) : Outcome unit :=
  if NDEBUG then Ok tt
  else if (length (_commands s) <? 2)%nat then
    EQASSERT false (sequence packet =? 0) (Ok tt)
  else
    back ← deref (mjoin (list.last (_commands s)));
    let previous := getPacket back in
    EQASSERT false (sequence packet =? wrap32 (sequence previous + 1))
      (EQASSERT false (version packet =? version previous) (Ok tt)).

(** [ObjectDataIStream::addDataPacket]; the thread check [CHECK_THREAD] has
    no counterpart here. *)
Definition addDataPacket (command : Command) (s : Stream) : Outcome Stream :=
  let packet := getPacket command in
  _ ← check_packet packet s;
  let s := {| _commands := _commands s ++ [Some command];
              _version := _version s;
              ready := ready s;
              held := S (held s) |} in
  Ok (if last packet then _setReady s else s).

(** [ObjectDataIStream::getDataSize]. *)
Fixpoint sum_dataSize (commands : list (option Command)) : Z :=
  match commands with
  | [] => 0
  | None :: rest => sum_dataSize rest
  | Some c :: rest => dataSize (getPacket c) + sum_dataSize rest
  end.
Definition getDataSize (s : Stream) : Z := wrap64 (sum_dataSize (_commands s)).

(** [ObjectDataIStream::getPendingVersion]. *)
Definition getPendingVersion (s : Stream) : Z :=
  match list.last (_commands s) with
  | Some (Some command) => version (getPacket command)
  | _ => VERSION_INVALID
  end.

(** [ObjectDataIStream::getNextCommand]: releases and pops the front, then
    returns the new front. *)
Definition getNextCommand (s : Stream) : option Command * Stream :=
  match _commands s with
  | [] => (None, s)
  | front :: rest =>
      let held' := match front with Some _ => Nat.pred (held s) | None => held s end in
      (mjoin (head rest),
       {| _commands := rest; _version := _version s; ready := ready s; held := held' |})
  end.

(** Feed a list of packets to a stream, stopping at the first failure. *)
Fixpoint addDataPackets (commands : list Command) (s : Stream) : Outcome Stream :=
  match commands with
  | [] => Ok s
  | c :: rest => s' ← addDataPacket c s; addDataPackets rest s'
  end.

(** The commands queued in the deque, without the null entries. *)
Definition queued (s : Stream) : list Command := omap id (_commands s).

(** The invariant the specification states for the deque: the [i]-th
    queued command has sequence [i] (as a uint32_t), and all share one
    version. *)
Definition sequenced (commands : list Command) : Prop :=
  (∀ (i : nat) c, commands !! i = Some c →
           sequence (getPacket c) = wrap32 (Z.of_nat i)) ∧
  (∀ c c', c ∈ commands → c' ∈ commands →
           version (getPacket c) = version (getPacket c')).

(** One use of a stream through a member function that changes it. *)
Inductive Operation :=
| AddDataPacket (command : Command)
| GetNextCommand
| Reset.

Definition apply_operation (op : Operation) (s : Stream) : Outcome Stream :=
  match op with
  | AddDataPacket command => addDataPacket command s
  | GetNextCommand => Ok (snd (getNextCommand s))
  | Reset => Ok (reset s)
  end.

Fixpoint apply_operations (ops : list Operation) (s : Stream) : Outcome Stream :=
  match ops with
  | [] => Ok s
  | op :: rest => s' ← apply_operation op s; apply_operations rest s'
  end.

(** [n] calls of [getNextCommand] in a row, with what each returned. *)
Fixpoint getNextCommands (n : nat) (s : Stream) : list (option Command) * Stream :=
  match n with
  | O => ([], s)
  | S n =>
      let '(command, s) := getNextCommand s in
      let '(commands, s) := getNextCommands n s in
      (command :: commands, s)
  end.

(** The sum of the [dataSize] fields of a list of commands, as a
    mathematical integer. *)
Definition total_dataSize (commands : list Command) : Z :=
  foldr (λ c acc, dataSize (getPacket c) + acc) 0 commands.
End Stream.

End ObjectDataIStream.

(** ** Child object reconciliation (DataIStream::deserializeChildren) *)

Module Children.

Definition UUID := Z.                   (* 128 bit identifier *)
Definition ZERO : UUID := 0.            (* UUID::ZERO *)

Record ObjectVersion := {
  identifier : UUID;
  version : Z                           (* uint128_t *)
}.

(** [C*]: the address of a child object, [None] is the null pointer. *)
Definition ChildPtr := option nat.

(** Calls into the owner object, the children and the local node. *)
Inductive Event :=
| Create (child : nat)                          (* object->create( &child ) *)
| MapObject (child : nat) (v : ObjectVersion)   (* localNode->mapObject( child, version ) *)
| Sync (child : nat) (v : Z)                    (* child->sync( v ) *)
| UnmapObject (child : nat)                     (* localNode->unmapObject( child ) *)
| ReleaseChild (child : nat).                   (* object->release( child ) *)

(** The memory [deserializeChildren] works on: the [std::vector< C* >]
    objects by address (so that [old_] and [result] may be one object), the
    number of children the owner has created, and the calls made so far. *)
Record World := {
  vectors : gmap nat (list ChildPtr);
  created : nat;
  events : list Event
}.

Definition log (e : Event) (w : World) : World :=
  {| vectors := vectors w; created := created w; events := events w ++ [e] |}.

Definition set_vector (vec : nat) (v : list ChildPtr) (w : World) : World :=
  {| vectors := <[vec := v]> (vectors w); created := created w; events := events w |}.

(** [vec.push_back( p )] on the vector at address [vec]. *)
Definition push_back (vec : nat) (p : ChildPtr) (w : World) : Outcome World :=
  v ← deref (vectors w !! vec);
  Ok (set_vector vec (v ++ [p]) w).

Section Deserialize.
Variable NDEBUG : bool.
(** [VERSION_HEAD] is declared in a header that is not part of the sources
    at hand. *)
Variable VERSION_HEAD : Z.
(** What the accessors of the (live) child objects return. *)
Variable getID : nat → UUID.
Variable isAttached : nat → bool.
Variable isMaster : nat → bool.
(** The owner [O* object]: [object->isMaster()], the address of the child
    made by the [n]-th call of [object->create], and the value returned by
    [object->getLocalNode()->mapObject( child, version )]. *)
Variable object_isMaster : bool.
Variable create : nat → nat.
Variable mapObject : nat → ObjectVersion → bool.

(** [stde::find_if( old, ObjectFinder( id ))]: the position of the first
    candidate with [candidate->getID() == id], [None] for [old.end()].
    [ObjectFinder::operator()] dereferences every candidate it visits. *)
Fixpoint find_if (old : list ChildPtr) (id : UUID) : Outcome (option nat) :=
  match old with
  | [] => Ok None
  | candidate :: rest =>
      c ← deref candidate;
      if getID c =? id then Ok (Some 0%nat)
      else j ← find_if rest id; Ok (option_map S j)
  end.

(** The body of the loop over the deserialized versions.  [old] is the
    local copy of the old vector. *)
Definition rebuild_step (result : nat) (v : ObjectVersion)
    (old : list ChildPtr) (w : World) : Outcome (list ChildPtr * World) :=
  if identifier v =? ZERO then
    w ← push_back result None w;
    Ok (old, w)
  else
    j ← find_if old (identifier v);
    match j with
    | None =>
        (* previously unknown child; create() allocates, so the
           LBASSERT( child ) holds *)
        let child := create (created w) in
        let w := log (Create child)
                   {| vectors := vectors w; created := S (created w);
                      events := events w |} in
        EQASSERT NDEBUG (negb object_isMaster)
          (let mapped := mapObject child v in
           let w := log (MapObject child v) w in
           EQCHECK NDEBUG mapped
             (w ← push_back result (Some child) w;
              Ok (old, w)))
    | Some j =>
        child ← deref (mjoin (old !! j));
        let old := delete j old in
        let w := log (Sync child (if object_isMaster then VERSION_HEAD
                                  else version v)) w in
        w ← push_back result (Some child) w;
        Ok (old, w)
    end.

(** The loop over [versions]. *)
Fixpoint rebuild (result : nat) (versions : list ObjectVersion)
    (old : list ChildPtr) (w : World) : Outcome (list ChildPtr * World) :=
  match versions with
  | [] => Ok (old, w)
  | v :: rest =>
      '(old, w) ← rebuild_step result v old w;
      rebuild result rest old w
  end.

(** The [while( !old.empty( ))] loop: [old.back()] / [old.pop_back()] visit
    the vector from its end, so the argument is the reversed vector. *)
Fixpoint release_removed (reversed : list ChildPtr) (w : World) : World :=
  match reversed with
  | [] => w
  | None :: rest => release_removed rest w
  | Some child :: rest =>
      let w := if isAttached child && negb (isMaster child)
               then log (UnmapObject child) w else w in
      release_removed rest (log (ReleaseChild child) w)
  end.

(** [DataIStream::deserializeChildren( object, old_, result )];
    [versions] is the vector that the stream's [operator >>] read, [old_]
    and [result] are the addresses of the two vectors. *)
Definition deserializeChildren (versions : list ObjectVersion)
    (old_ result : nat) (w : World) : Outcome World :=
  old ← deref (vectors w !! old_);            (* std::vector< C* > old = old_; *)
  _ ← deref (vectors w !! result);
  let w := set_vector result [] w in          (* result.clear(); *)
  '(old, w) ← rebuild result versions old w;
  Ok (release_removed (rev old) w).

(** *** The contract of the specification (section 4.5), entry by entry

    [reconciled_entry old v slot old' evs]: handling the incoming [v] against
    the remaining old children [old] appends [slot] to the result, leaves
    [old'] and makes the calls [evs].  An id that matches takes the first old
    child with that id. *)
Inductive reconciled_entry (old : list ChildPtr) (v : ObjectVersion)
  : ChildPtr → list ChildPtr → list Event → Prop :=
| entry_null :
    identifier v = ZERO →
    reconciled_entry old v None old []
| entry_match (j c : nat) :
    identifier v ≠ ZERO →
    old !! j = Some (Some c) →
    getID c = identifier v →
    (∀ i c', (i < j)%nat → old !! i = Some (Some c') → getID c' ≠ identifier v) →
    reconciled_entry old v (Some c) (delete j old)
      [Sync c (if object_isMaster then VERSION_HEAD else version v)]
| entry_new (c : nat) :
    identifier v ≠ ZERO →
    (∀ c', Some c' ∈ old → getID c' ≠ identifier v) →
    reconciled_entry old v (Some c) old [Create c; MapObject c v].

(** Step 2 of the contract: the result is built in stream order. *)
Inductive reconciled (old : list ChildPtr)
  : list ObjectVersion → list ChildPtr → list ChildPtr → list Event → Prop :=
| reconciled_nil :
    reconciled old [] [] old []
| reconciled_cons v versions slot old1 evs1 result old2 evs2 :
    reconciled_entry old v slot old1 evs1 →
    reconciled old1 versions result old2 evs2 →
    reconciled old (v :: versions) (slot :: result) old2 (evs1 ++ evs2).

(** Step 3 of the contract, for one remaining old child: "if it is attached
    and not master, unmap it; then ask the owner object to release it". *)
Definition released (p : ChildPtr) : list Event :=
  match p with
  | None => []
  | Some c =>
      (if isAttached c && negb (isMaster c) then [UnmapObject c] else [])
      ++ [ReleaseChild c]
  end.
End Deserialize.

(** Reading a log of calls: the children that were synced, the children
    that went into the result (synced or created, in call order), and the
    children handed back to the owner. *)
Definition synced (evs : list Event) : list nat :=
  omap (λ e, match e with Sync c _ => Some c | _ => None end) evs.

Definition kept (evs : list Event) : list nat :=
  omap (λ e, match e with Sync c _ | Create c => Some c | _ => None end) evs.

Definition released_children (evs : list Event) : list nat :=
  omap (λ e, match e with ReleaseChild c => Some c | _ => None end) evs.

End Children.

(** ** Connect-by-NodeID: the retry loop (libs/co/localNode.cpp) *)

Module Connect.

Definition NodeID := Z.                  (* 128 bit *)

Inductive ConnectResult :=
| CONNECT_OK
| CONNECT_TRY_AGAIN
| CONNECT_BAD_STATE
| CONNECT_TIMEOUT
| CONNECT_UNREACHABLE.

(** What the loop does that can be seen from outside: a call of
    [_connect( node )] and a [lunchbox::sleep( ms )]. *)
Inductive Event :=
| Attempt (node : nat)
| Sleep (ms : Z).

Section Retry.
(** The rest of the process and its peers: everything [_connect( node )],
    the random number generator and the node map depend on. *)
Variable World : Type.
(** [_connect( node )]. *)
Variable _connect : nat → World → ConnectResult * World.
(** The value drawn by [lunchbox::RNG::get< uint8_t >()], before it is
    cut to eight bits. *)
Variable rng_get : World → Z * World.
(** [_impl->nodes->find( nodeID )] under the read lock. *)
Variable nodes_find : NodeID → World → option nat.
Variable isConnected : nat → World → bool.
(** [peer->send( NodeGetNodeDataPacket )] followed by [waitRequest]: the
    node the peer knows under [nodeID], if any. *)
Variable getNodeData : NodeID → nat → World → option nat * World.

(** The [while( --tries )] loop with what follows it.  [tries] is the
    value of the counter before the pre-decrement of the loop test.  A
    counter of 0 would wrap around; the loop is entered with 10. *)
Fixpoint connect_retry (tries : nat) (nodeID : NodeID) (node : nat)
    (w : World) (trace : list Event) {struct tries}
  : option nat * World * list Event :=
  let finish := (if isConnected node w then Some node else None, w, trace) in
  match tries with
  | O => finish
  | S tries =>                                   (* --tries *)
      if (tries =? 0)%nat then finish
      else
        let '(result, w) := _connect node w in
        let trace := trace ++ [Attempt node] in
        let again (w : World) (trace : list Event) :=
          (* connect failed - check for simultaneous connect from peer *)
          let node := match nodes_find nodeID w with
                      | Some found => found
                      | None => node
                      end in
          connect_retry tries nodeID node w trace in
        match result with
        | CONNECT_OK => (Some node, w, trace)
        | CONNECT_TRY_AGAIN =>
            let '(r, w) := rng_get w in
            again w (trace ++ [Sleep (r mod 2 ^ 8)])   (* collision avoidance *)
        | CONNECT_BAD_STATE => (None, w, trace)
        | CONNECT_TIMEOUT => (None, w, trace)
        | CONNECT_UNREACHABLE => again w trace         (* maybe peer talks to us *)
        end
  end.

(** [connect( node )]: [_connect( node ) == CONNECT_OK]. *)
Definition connect_node (node : nat) (w : World) : bool * World :=
  let '(result, w) := _connect node w in
  (match result with CONNECT_OK => true | _ => false end, w).

(** [LocalNode::_connect( const NodeID& nodeID, NodePtr peer )]; [_id] is
    the id of the local node. *)
Definition _connect_id (NDEBUG : bool) (_id : NodeID) (nodeID : NodeID)
    (peer : nat) (w : World) : Outcome (option nat * World * list Event) :=
  match nodes_find nodeID w with
  | Some node =>
      EQASSERT NDEBUG (isConnected node w)
        (let '(w, trace) :=
           if isConnected node w then (w, [])
           else (snd (connect_node node w), [Attempt node]) in
         Ok (if isConnected node w then Some node else None, w, trace))
  | None =>
      EQASSERT NDEBUG (bool_decide (_id ≠ nodeID))
        (let '(result, w) := getNodeData nodeID peer w in
         match result with
         | None => Ok (None, w, [])
         | Some node =>
             if isConnected node w then Ok (Some node, w, [])
             else Ok (connect_retry 10 nodeID node w [])
         end)
  end.

Definition attempts (trace : list Event) : list nat :=
  omap (fun e => match e with Attempt n => Some n | Sleep _ => None end) trace.

Definition sleeps (trace : list Event) : list Z :=
  omap (fun e => match e with Sleep ms => Some ms | Attempt _ => None end) trace.
End Retry.

(** The handshake on one connection.  [_connect( node, connection )] sends
    the CONNECT packet and blocks in [waitRequest( id, connected, 10000 )];
    [waited] is [None] when that timed out and otherwise the value the
    request was served with.  [bad_state] is the guard
    [!node || _state != STATE_LISTENING || !connection->isConnected() ||
     node->_state != STATE_CLOSED]. *)
Definition _connect_connection (bad_state : bool) (waited : option bool)
  : ConnectResult :=
  if bad_state then CONNECT_BAD_STATE
  else match waited with
       | None => CONNECT_TIMEOUT
       | Some false => CONNECT_TRY_AGAIN
       | Some true => CONNECT_OK
       end.

End Connect.

(** ** Pending-command redispatch (libs/co/localNode.cpp) *)

Module Redispatch.

Section Redispatch.
Variable NDEBUG : bool.
(** A pending [Command*]. *)
Variable Command : Type.
(** What the command handlers act on.  Only object commands are ever
    pending ([dispatchCommand] returns true for every node command), and
    their dispatch goes to the object store, which does not touch the list of
    pending commands. *)
Variable World : Type.
(** [LocalNode::dispatchCommand( command )]: [true] when the command was
    dispatched, [false] when it has to stay pending. *)
Variable dispatchCommand : Command → World → bool * World.

(** The [for] loop over [pendingCommands]: [visited] are the commands
    before the iterator (in list order), [rest] the ones from the iterator
    on.  The first command that dispatches is erased and released, and the
    loop is left with [changes = true]. *)
Fixpoint pass (visited rest : list Command) (w : World)
  : bool * list Command * option Command * World :=
  match rest with
  | [] => (false, visited, None, w)
  | command :: rest =>
      let '(dispatched, w) := dispatchCommand command w in
      if dispatched then (true, visited ++ rest, Some command, w)
      else pass (visited ++ [command]) rest w
  end.

Lemma pass_length visited rest w changes pending released w' :
  pass visited rest w = (changes, pending, released, w') →
  (length visited + length rest =
     length pending + (if changes then 1 else 0))%nat.
Proof.
  revert visited w. induction rest as [|c rest IH]; intros visited w; simpl.
  - intros [= <- <- <- <-]. lia.
  - destruct (dispatchCommand c w) as [[] w1].
    + intros [= <- <- <- <-]. rewrite length_app. lia.
    + intros H. apply IH in H. rewrite length_app in H. simpl in H. lia.
Qed.

(** The [while( changes && !_impl->pendingCommands.empty( ))] loop.
    [released] collects the commands on which [release()] was called, in
    order. *)
Equations? redispatch_loop (pending : list Command) (released : list Command)
    (w : World) : list Command * list Command * World
  by wf (length pending) lt :=
  redispatch_loop [] released w := ([], released, w);
  redispatch_loop (c :: cs) released w with inspect (pass [] (c :: cs) w) := {
    | exist _ (true, pending', Some r, w') Hp := redispatch_loop pending' (released ++ [r]) w';
    | exist _ (true, pending', None, w') Hp := redispatch_loop pending' released w';
    | exist _ (false, pending', _, w') Hp := (pending', released, w') }.
Proof.
  all: match type of Hp with
       | _ = (?b, ?p, ?r, ?w1) =>
           apply (pass_length [] (c :: cs) w b p r w1) in Hp
       end; simpl in *; lia.
Qed.

(** [LocalNode::_redispatchCommands]; the trailing [#ifndef NDEBUG] block
    asserts the watermark. *)
Definition _redispatchCommands (pending : list Command) (w : World)
  : Outcome (list Command * list Command * World) :=
  let '(pending, released, w) := redispatch_loop pending [] w in
  EQASSERT NDEBUG (length pending <? 200)%nat (Ok (pending, released, w)).

(** [LocalNode::_dispatchCommand]: the command is retained and dispatched;
    when it was dispatched it is released at once, when not it is appended to
    the pending list, in both cases after the pending commands were given
    another try.  The released commands are listed in the order of the
    [release()] calls.  The assertion on [command.isValid()] has no
    counterpart here. *)
Definition _dispatchCommand (command : Command) (pending : list Command) (w : World)
  : Outcome (list Command * list Command * World) :=
  let '(dispatched, w) := dispatchCommand command w in
  if dispatched then
    '(pending, released, w) ← _redispatchCommands pending w;
    Ok (pending, command :: released, w)
  else
    '(pending, released, w) ← _redispatchCommands pending w;
    Ok (pending ++ [command], released, w).

(** [dispatchCommand] with a counter of its calls next to the state it
    works on. *)
Definition counted (command : Command) (w : World * nat) : bool * (World * nat) :=
  let '(dispatched, w') := dispatchCommand command (fst w) in
  (dispatched, (w', S (snd w))).

(** *** The redispatch as the specification words it (section 4.10)

    "Walks the pending list repeatedly until a full pass produces no
    progress."  [walk_without_dispatch cs w w']: a walk over [cs] in list
    order from the state [w] in which [dispatchCommand] is called on every
    command and returns false for each, leaving [w']. *)
Inductive walk_without_dispatch : list Command → World → World → Prop :=
| walk_nil w :
    walk_without_dispatch [] w w
| walk_cons c cs w w1 w' :
    dispatchCommand c w = (false, w1) →
    walk_without_dispatch cs w1 w' →
    walk_without_dispatch (c :: cs) w w'.

(** [redispatched pending w pending' released w']: the walks over [pending]
    from [w] end with [pending'] still pending, after the commands [released]
    were dispatched and released in this order, in the state [w'].  A walk
    stops at the first command whose dispatch returns true; that command leaves
    the list and is released, and the next walk starts at the front again.
    The walks end with a full walk that dispatches nothing, or without a
    further walk when nothing is pending. *)
Inductive redispatched
  : list Command → World → list Command → list Command → World → Prop :=
| redispatched_empty w :
    redispatched [] w [] [] w
| redispatched_no_progress pending w w' :
    pending ≠ [] →
    walk_without_dispatch pending w w' →
    redispatched pending w pending [] w'
| redispatched_progress before c behind w w1 w2 pending' released w' :
    walk_without_dispatch before w w1 →
    dispatchCommand c w1 = (true, w2) →
    redispatched (before ++ behind) w2 pending' released w' →
    redispatched (before ++ c :: behind) w pending' (c :: released) w'.
End Redispatch.

End Redispatch.

(** ** LocalNode: handshake handlers and close (libs/co/localNode.cpp) *)

Module LocalNode.

Definition NodeID := Z.                  (* 128 bit *)
Definition ZERO : NodeID := 0.           (* NodeID::ZERO *)

Inductive State :=
| STATE_CLOSED
| STATE_CONNECTED
| STATE_LISTENING
| STATE_CLOSING.

#[global] Instance State_eq_dec : EqDecision State.
Proof. solve_decision. Defined.

(** The fields of [Node] the handlers use; [_outgoing] is a
    [ConnectionPtr], [None] is null. *)
Record Node := {
  _id : NodeID;
  _state : State;
  _outgoing : option nat;
  _type : Z
}.

(** The fields shared by [NodeConnectPacket] and [NodeConnectReplyPacket];
    [nodeData] is the serialized node information. *)
Record ConnectFields := {
  requestID : Z;
  nodeID : NodeID;
  nodeType : Z;
  nodeData : list Z
}.

Inductive Packet :=
| NodeConnectReplyPacket (fields : ConnectFields)
| NodeConnectAckPacket
| NodeStopPacket.

Inductive Event :=
| ConnectionSend (connection : nat) (p : Packet)   (* connection->send( packet ) *)
| NodeSend (node : nat) (p : Packet)               (* node->send( packet ) *)
| ServeRequest (request : Z) (value : bool)        (* serveRequest( id, value ) *)
| Join (joined : bool).                            (* receiverThread->join() *)

(** [co::LocalNode] with its [detail::LocalNode].  The local node is itself
    a [Node], at address [this]; the other nodes live in [objects]. *)
Record LocalNode := {
  this : nat;
  self : Node;
  objects : gmap nat Node;                 (* the Node objects, by address *)
  allocated : nat;                         (* next address handed out by createNode *)
  connectionNodes : gmap nat nat;          (* the node for each connection *)
  nodes : gmap NodeID nat;                 (* the connected nodes *)
  incoming : list nat;                     (* the connection set *)
  closed : gset nat;                       (* connections on which close() was called *)
  requests : gmap Z nat;                   (* the data registered with each request *)
  pendingCommands : nat;                   (* number of commands re-scheduled for dispatch *)
  events : list Event
}.

Definition get_node (ln : LocalNode) (p : nat) : option Node :=
  if decide (p = this ln) then Some (self ln) else objects ln !! p.

Definition set_node (p : nat) (n : Node) (ln : LocalNode) : LocalNode :=
  if decide (p = this ln) then
    {| this := this ln; self := n; objects := objects ln; allocated := allocated ln;
       connectionNodes := connectionNodes ln; nodes := nodes ln;
       incoming := incoming ln; closed := closed ln; requests := requests ln;
       pendingCommands := pendingCommands ln; events := events ln |}
  else
    {| this := this ln; self := self ln; objects := <[p := n]> (objects ln);
       allocated := allocated ln;
       connectionNodes := connectionNodes ln; nodes := nodes ln;
       incoming := incoming ln; closed := closed ln; requests := requests ln;
       pendingCommands := pendingCommands ln; events := events ln |}.

Definition set_maps (cn : gmap nat nat) (ns : gmap NodeID nat) (ln : LocalNode)
  : LocalNode :=
  {| this := this ln; self := self ln; objects := objects ln;
     allocated := allocated ln;
     connectionNodes := cn; nodes := ns;
     incoming := incoming ln; closed := closed ln; requests := requests ln;
     pendingCommands := pendingCommands ln; events := events ln |}.

Definition log (e : Event) (ln : LocalNode) : LocalNode :=
  {| this := this ln; self := self ln; objects := objects ln;
     allocated := allocated ln;
     connectionNodes := connectionNodes ln; nodes := nodes ln;
     incoming := incoming ln; closed := closed ln; requests := requests ln;
     pendingCommands := pendingCommands ln; events := events ln ++ [e] |}.

(** [ConnectionSet::removeConnection]: the first entry for the connection
    is erased. *)
Fixpoint removeConnection (connection : nat) (set : list nat) : list nat :=
  match set with
  | [] => []
  | c :: rest => if decide (c = connection) then rest
                 else c :: removeConnection connection rest
  end.

(** [LocalNode::_removeConnection]: the connection leaves the connection
    set and is closed unless it is closed already.  The receive buffer
    behind [getRecvData] is not modelled. *)
Definition _removeConnection (connection : nat) (ln : LocalNode) : LocalNode :=
  {| this := this ln; self := self ln; objects := objects ln;
     allocated := allocated ln;
     connectionNodes := connectionNodes ln; nodes := nodes ln;
     incoming := removeConnection connection (incoming ln);
     closed := closed ln ∪ {[connection]};
     requests := requests ln;
     pendingCommands := pendingCommands ln; events := events ln |}.

Definition with_state (s : State) (n : Node) : Node :=
  {| _id := _id n; _state := s; _outgoing := _outgoing n; _type := _type n |}.

Definition with_outgoing (c : option nat) (n : Node) : Node :=
  {| _id := _id n; _state := _state n; _outgoing := c; _type := _type n |}.

Section Handlers.
Variable NDEBUG : bool.
(** Declared in headers that are not part of the sources at hand. *)
Variable LB_UNDEFINED_UINT32 : Z.
Variable NODETYPE_CO_INVALID : Z.
(** [Node::isConnected()] (node.h). *)
Variable isConnected : Node → bool.
(** [Node::deserialize( data )] (node.cpp): its return value, the node it
    leaves and what is left of [data]; [Node::serialize()]. *)
Variable deserialize : list Z → Node → bool * Node * list Z.
Variable serialize : Node → list Z.
(** The node value [createNode( type )] constructs (virtual). *)
Variable createNode : Z → Node.

(** Modelled from the spec: the constructor
    [NodeConnectReplyPacket( const NodeConnectPacket* )] (nodePackets.h is
    not under src/).  "CONNECT_REPLY: peer's nodeID (ZERO on refusal),
    nodeType, serialized info"; the reply answers the request it was
    built from. *)
Definition NodeConnectReplyPacket_ctor (request : ConnectFields) : ConnectFields :=
  {| requestID := requestID request;
     nodeID := ZERO;
     nodeType := NODETYPE_CO_INVALID;
     nodeData := [] |}.

(** [createNode( type )] followed by taking a [NodePtr] to the result. *)
Definition new_node (type : Z) (ln : LocalNode) : nat * LocalNode :=
  let p := allocated ln in
  (p,
   {| this := this ln; self := self ln;
      objects := <[p := createNode type]> (objects ln);
      allocated := S p;
      connectionNodes := connectionNodes ln; nodes := nodes ln;
      incoming := incoming ln; closed := closed ln; requests := requests ln;
      pendingCommands := pendingCommands ln; events := events ln |}).

(** The common tail of [_cmdConnect] and [_cmdConnectReply]:
    [node->deserialize( data )] with its assertions, then the node is
    marked connected on [connection] and entered into both maps. *)
Definition add_connected_node (packet : ConnectFields) (connection : nat)
    (p : nat) (ln : LocalNode) : Outcome LocalNode :=
  n ← deref (get_node ln p);
  let '(_, n, data) := deserialize (nodeData packet) n in
  EQASSERT NDEBUG (bool_decide (data = []))
    (EQASSERT NDEBUG (bool_decide (_id n = nodeID packet))
       (let n := with_state STATE_CONNECTED (with_outgoing (Some connection) n) in
        let ln := set_node p n ln in
        Ok (set_maps (<[connection := p]> (connectionNodes ln))
                     (<[_id n := p]> (nodes ln)) ln))).

(** [LocalNode::_cmdConnect].  [commandNode] is [command.getNode()],
    [connection] is [_impl->incoming.getConnection()]. *)
Definition _cmdConnect (packet : ConnectFields) (commandNode : option nat)
    (connection : nat) (ln : LocalNode) : Outcome (bool * LocalNode) :=
  EQASSERT NDEBUG (bool_decide (commandNode = None))
  (EQASSERT NDEBUG (bool_decide (nodeID packet ≠ _id (self ln)))
  (EQASSERT NDEBUG (bool_decide (connectionNodes ln !! connection = None))
  (let i := nodes ln !! nodeID packet in
   refuse ← match i with
            | Some remoteNode =>
                n ← deref (get_node ln remoteNode);
                Ok (isConnected n)
            | None => Ok false
            end;
   if (refuse : bool) then
     (* refuse connection *)
     let reply := NodeConnectReplyPacket_ctor packet in
     let ln := log (ConnectionSend connection (NodeConnectReplyPacket reply)) ln in
     Ok (true, _removeConnection connection ln)
   else
     (* create and add connected node *)
     let '(remoteNode, ln) := match i with
                              | Some remoteNode => (remoteNode, ln)
                              | None => new_node (nodeType packet) ln
                              end in
     ln ← add_connected_node packet connection remoteNode ln;
     (* send our information as reply *)
     let reply := {| requestID := requestID packet;
                     nodeID := _id (self ln);
                     nodeType := _type (self ln);
                     nodeData := serialize (self ln) |} in
     Ok (true, log (ConnectionSend connection (NodeConnectReplyPacket reply)) ln)))).

(** [LocalNode::_cmdConnectReply]. *)
Definition _cmdConnectReply (packet : ConnectFields) (commandNode : option nat)
    (connection : nat) (ln : LocalNode) : Outcome (bool * LocalNode) :=
  EQASSERT NDEBUG (bool_decide (commandNode = None))
  (EQASSERT NDEBUG (bool_decide (connectionNodes ln !! connection = None))
  (if bool_decide (nodeID packet = ZERO) then
     (* connection refused *)
     let ln := _removeConnection connection ln in
     Ok (true, log (ServeRequest (requestID packet) false) ln)
   else
     let peer := nodes ln !! nodeID packet in
     simultaneous ← match peer with
                    | Some p => n ← deref (get_node ln p); Ok (isConnected n)
                    | None => Ok false
                    end;
     if (simultaneous : bool) then
       p ← deref peer;
       n ← deref (get_node ln p);
       let ln := _removeConnection connection ln in
       (* save actual connection for removal *)
       let actual := _outgoing n in
       let ln := set_node p (with_outgoing None (with_state STATE_CLOSED n)) ln in
       EQASSERT NDEBUG
         (bool_decide (is_Some (actual ≫= fun c => connectionNodes ln !! c)))
         (let cn := match actual with
                    | Some c => delete c (connectionNodes ln)
                    | None => connectionNodes ln
                    end in
          let ln := set_maps cn (delete (nodeID packet) (nodes ln)) ln in
          Ok (true, log (ServeRequest (requestID packet) false) ln))
     else
       (* create and add node *)
       '(p, ln) ← match peer with
                  | Some p => Ok (p, ln)
                  | None =>
                      if bool_decide (requestID packet ≠ LB_UNDEFINED_UINT32) then
                        (* ptr = getRequestData( packet->requestID ), and the
                           EQASSERT on its dynamic_cast to a Node, which a
                           null pointer fails *)
                        (let ptr := requests ln !! requestID packet in
                         EQASSERT NDEBUG (bool_decide (is_Some ptr))
                           (p ← deref ptr;
                            Ok (p, ln)))
                      else Ok (new_node (nodeType packet) ln)
                  end;
       n ← deref (get_node ln p);
       EQASSERT NDEBUG (bool_decide (_type n = nodeType packet))
       (EQASSERT NDEBUG (bool_decide (_state n = STATE_CLOSED))
       (ln ← add_connected_node packet connection p ln;
        let ln := log (ServeRequest (requestID packet) true) ln in
        let ln := log (NodeSend p NodeConnectAckPacket) ln in
        (* the call _connectMulticast( peer ) that follows works on the
           multicast fields of the nodes only, which Node does not carry
           here: it is left out *)
        Ok (true, ln))))).

(** [_cmdStopRcv] on the receiver thread, then [_cmdStopCmd] on the
    command thread (the STOP_CMD command goes through the command queue),
    then the end of [_runReceiverThread], which releases and clears the
    pending commands. *)
Definition _cmdStopRcv (ln : LocalNode) : Outcome LocalNode :=
  EQASSERT NDEBUG (bool_decide (_state (self ln) = STATE_LISTENING))
    (Ok (set_node (this ln) (with_state STATE_CLOSING (self ln)) ln)).

Definition _cmdStopCmd (ln : LocalNode) : Outcome LocalNode :=
  EQASSERT NDEBUG (bool_decide (_state (self ln) = STATE_CLOSING))
    (Ok (set_node (this ln) (with_state STATE_CLOSED (self ln)) ln)).

Definition leave_receiver_thread (ln : LocalNode) : LocalNode :=
  {| this := this ln; self := self ln; objects := objects ln;
     allocated := allocated ln;
     connectionNodes := connectionNodes ln; nodes := nodes ln;
     incoming := incoming ln; closed := closed ln; requests := requests ln;
     pendingCommands := 0%nat; events := events ln |}.

(** [_impl->receiverThread->join()] as [close] sees it: when the join
    succeeds, the stop packet has been handled by both threads and the
    receiver thread has run to its end; no other packet is in flight. *)
Definition join (joined : bool) (ln : LocalNode) : Outcome LocalNode :=
  let ln := log (Join joined) ln in
  if joined then
    ln ← _cmdStopRcv ln;
    ln ← _cmdStopCmd ln;
    Ok (leave_receiver_thread ln)
  else Ok ln.

(** One round of the [while( !connections.empty( ))] loop of [_cleanup],
    up to the call of [_removeConnection]. *)
Definition close_node (connection : nat) (ln : LocalNode) : Outcome LocalNode :=
  match connectionNodes ln !! connection with
  | Some p =>
      n ← deref (get_node ln p);
      let ln := set_node p (with_outgoing None (with_state STATE_CLOSED n)) ln in
      Ok (set_maps (delete connection (connectionNodes ln))
                   (delete (_id n) (nodes ln)) ln)
  | None => Ok ln
  end.

Lemma close_node_incoming connection ln ln' :
  close_node connection ln = Ok ln' → incoming ln' = incoming ln.
Proof.
  unfold close_node. destruct (connectionNodes ln !! connection); [|congruence].
  destruct (get_node ln n); simpl; [|discriminate].
  intros [= <-]. unfold set_node. by destruct (decide _).
Qed.

Lemma removeConnection_last connection set :
  list.last set = Some connection →
  (length (removeConnection connection set) < length set)%nat.
Proof.
  induction set as [|c rest IH]; [discriminate|].
  simpl. destruct (decide (c = connection)); [lia|].
  destruct rest as [|c' rest]; [simpl; congruence|].
  intros H. specialize (IH H). simpl in *. lia.
Qed.

Equations? cleanup_loop (ln : LocalNode) : Outcome LocalNode
  by wf (length (incoming ln)) lt :=
  cleanup_loop ln with inspect (list.last (incoming ln)) := {
    | exist _ None _ := Ok ln;
    | exist _ (Some connection) Hback with inspect (close_node connection ln) := {
        | exist _ (Ok ln') Hnode := cleanup_loop (_removeConnection connection ln');
        | exist _ AssertFail _ := AssertFail;
        | exist _ Crash _ := Crash } }.
Proof.
  simpl. rewrite (close_node_incoming _ _ _ Hnode).
  by apply removeConnection_last.
Qed.

(** The connection at the other end of a [PipeConnection]
    ([acceptSync()], pipeConnection.h). *)
Variable acceptSync : nat → nat.

(** [LocalNode::_cleanup]. *)
Definition _cleanup (ln : LocalNode) : Outcome LocalNode :=
  EQASSERT NDEBUG (bool_decide (_state (self ln) = STATE_CLOSED))
    (pipe ← deref (_outgoing (self ln));
     let ln := _removeConnection (acceptSync pipe) ln in
     let ln := set_maps (delete (acceptSync pipe) (connectionNodes ln)) (nodes ln) ln in
     let ln := set_node (this ln) (with_outgoing None (self ln)) ln in
     ln ← cleanup_loop ln;
     Ok (set_maps ∅ ∅ ln)).

(** [LocalNode::close]; [joined] is what [receiverThread->join()]
    returns. *)
Definition close (joined : bool) (ln : LocalNode) : Outcome (bool * LocalNode) :=
  if bool_decide (_state (self ln) ≠ STATE_LISTENING) then Ok (false, ln)
  else
    let ln := log (NodeSend (this ln) NodeStopPacket) ln in
    ln ← join joined ln;
    EQCHECK NDEBUG joined
      (ln ← _cleanup ln;
       (* EQASSERTINFO( !hasPendingRequests(), ... ) *)
       EQASSERT NDEBUG (bool_decide (requests ln = ∅)) (Ok (true, ln))).
End Handlers.

(** Calls of the disconnect handler into the object store and the request
    handler. *)
Inductive Call :=
| RemoveInstanceData (id : NodeID)      (* objectStore->removeInstanceData( id ) *)
| ServeRequestVoid (request : Z).       (* serveRequest( id ) *)

Section Disconnect.
Variable NDEBUG : bool.

(** [LocalNode::_cmdDisconnect]; [request] is [packet->requestID], the node
    is the data registered with that request ([getRequestData]). *)
Definition _cmdDisconnect (request : Z) (ln : LocalNode)
  : Outcome (bool * LocalNode * list Call) :=
  let node := requests ln !! request in
  EQASSERT NDEBUG (bool_decide (is_Some node))
    (p ← deref node;
     n ← deref (get_node ln p);
     '(ln, calls) ← match _outgoing n with
                    | Some connection =>
                        let ln := set_node p (with_outgoing None
                                                (with_state STATE_CLOSED n)) ln in
                        let ln := _removeConnection connection ln in
                        EQASSERT NDEBUG
                          (bool_decide (is_Some (connectionNodes ln !! connection)))
                          (Ok (set_maps (delete connection (connectionNodes ln))
                                        (delete (_id n) (nodes ln)) ln,
                               [RemoveInstanceData (_id n)]))
                    | None => Ok (ln, [])
                    end;
     n ← deref (get_node ln p);
     EQASSERT NDEBUG (bool_decide (_state n = STATE_CLOSED))
       (Ok (true, ln, calls ++ [ServeRequestVoid request]))).
End Disconnect.

(** What the clean-up and the disconnect handlers leave of a node: state
    CLOSED, no outgoing connection. *)
Definition closed_node (n : Node) : Node :=
  with_outgoing None (with_state STATE_CLOSED n).

(** A node after some rounds of the clean-up loop: untouched or closed. *)
Definition closed_or_kept (ln ln' : LocalNode) : Prop :=
  ∀ p n, get_node ln p = Some n →
         get_node ln' p = Some n ∨ get_node ln' p = Some (closed_node n).

End LocalNode.

(** ** The receiver thread: the select loop (libs/co/localNode.cpp) *)

Module Receiver.

(** The values of [ConnectionSet::Event] that the [switch] of
    [_runReceiverThread] names; [EVENT_OTHER] stands for any value that
    reaches its [default] label. *)
Inductive SelectEvent :=
| EVENT_CONNECT
| EVENT_DATA
| EVENT_DISCONNECT
| EVENT_INVALID_HANDLE
| EVENT_TIMEOUT
| EVENT_ERROR
| EVENT_SELECT_ERROR
| EVENT_INTERRUPT
| EVENT_OTHER.

(** What one round of the loop calls. *)
Inductive Action :=
| HandleConnect          (* _handleConnect() *)
| HandleData             (* _handleData() *)
| HandleDisconnect       (* _handleDisconnect() *)
| RedispatchCommands     (* _redispatchCommands() *)
| Unimplemented.         (* EQUNIMPLEMENTED *)

Definition is_error (result : SelectEvent) : bool :=
  match result with
  | EVENT_ERROR | EVENT_SELECT_ERROR => true
  | _ => false
  end.

(** One round of [while( _state == STATE_LISTENING )] for the value
    [result] returned by [select()]: the [switch], then the reset of the
    counter.  [nErrors] is an [int]; the increment is exact below 2^31 - 1. *)
Definition iteration (result : SelectEvent) (nErrors : Z) : Z * list Action :=
  let '(nErrors, actions) :=
    match result with
    | EVENT_CONNECT => (nErrors, [HandleConnect])
    | EVENT_DATA => (nErrors, [HandleData])
    | EVENT_DISCONNECT | EVENT_INVALID_HANDLE => (nErrors, [HandleDisconnect])
    | EVENT_TIMEOUT => (nErrors, [])
    | EVENT_ERROR =>
        let nErrors := nErrors + 1 in
        (nErrors, if 100 <? nErrors then [HandleDisconnect] else [])
    | EVENT_SELECT_ERROR =>
        let nErrors := nErrors + 1 in
        (nErrors, if 10 <? nErrors then [Unimplemented] else [])
    | EVENT_INTERRUPT => (nErrors, [RedispatchCommands])
    | EVENT_OTHER => (nErrors, [Unimplemented])
    end in
  (if negb (is_error result) then 0 else nErrors, actions).

(** The rounds for a sequence of [select()] results, with the calls of each
    round. *)
Fixpoint iterations (results : list SelectEvent) (nErrors : Z)
  : Z * list (list Action) :=
  match results with
  | [] => (nErrors, [])
  | result :: rest =>
      let '(nErrors, actions) := iteration result nErrors in
      let '(nErrors, later) := iterations rest nErrors in
      (nErrors, actions :: later)
  end.

(** The number of error results a sequence of results starts with, and the
    number it ends with. *)
Fixpoint leading_errors (results : list SelectEvent) : nat :=
  match results with
  | [] => 0
  | result :: rest => if is_error result then S (leading_errors rest) else 0
  end.

Definition trailing_errors (results : list SelectEvent) : nat :=
  leading_errors (rev results).

End Receiver.

(** ** The command line of initLocal (libs/co/localNode.cpp) *)

Module InitLocal.

Inductive Event :=
| AddConnectionDescription (data : string)  (* fromString( data ) succeeded, addConnectionDescription( desc ) *)
| IgnoreListen (data : string)              (* fromString( data ) failed *)
| GlobalFromString (data : string)          (* Global::fromString( data ) *)
| NoArgument (option : string).             (* "No argument given to ..." *)

(** [argv[i+1][0] != '-']; the first character of an empty string is the
    terminating zero. *)
Definition has_value (arg : string) : bool := negb (String.prefix "-" arg).

Section Parse.
Variable NDEBUG : bool.
(** [ConnectionDescription::fromString( data )]: its return value and what
    it leaves of [data] (connectionDescription.cpp is not part of the sources
    at hand). *)
Variable fromString : string → bool * string.

(** The [for( int i=1; i<argc; ++i )] loop of [initLocal], on the arguments
    from [argv[i]] on. *)
Fixpoint parse (args : list string) : Outcome (list Event) :=
  match args with
  | [] => Ok []
  | arg :: rest =>
      if String.eqb "--eq-listen" arg then
        match rest with
        | value :: rest' =>
            if has_value value then
              let '(ok, data) := fromString value in
              if ok then
                EQASSERT NDEBUG (String.eqb data "")
                  (evs ← parse rest'; Ok (AddConnectionDescription value :: evs))
              else
                evs ← parse rest'; Ok (IgnoreListen value :: evs)
            else
              evs ← parse rest; Ok (NoArgument arg :: evs)
        | [] => Ok [NoArgument arg]
        end
      else if String.eqb "--co-globals" arg then
        match rest with
        | value :: rest' =>
            if has_value value then
              evs ← parse rest'; Ok (GlobalFromString value :: evs)
            else
              evs ← parse rest; Ok (NoArgument arg :: evs)
        | [] => Ok [NoArgument arg]
        end
      else parse rest
  end.

(** [LocalNode::initLocal( argc, argv )]; [listen] is what [listen()]
    returns. *)
Definition initLocal (argv : list string) (listen : bool)
  : Outcome (bool * list Event) :=
  evs ← parse (tail argv);
  Ok (listen, evs).

(** What the argument at position [i] of [argv] stands for when it is read
    by itself, together with the argument behind it. *)
Definition option_at (argv : list string) (i : nat) (arg : string) : list Event :=
  if (i =? 0)%nat then []
  else if String.eqb "--eq-listen" arg || String.eqb "--co-globals" arg then
    match argv !! S i with
    | Some value =>
        if has_value value then
          if String.eqb "--eq-listen" arg then
            [if fst (fromString value) then AddConnectionDescription value
             else IgnoreListen value]
          else [GlobalFromString value]
        else [NoArgument arg]
    | None => [NoArgument arg]
    end
  else [].
End Parse.

End InitLocal.

(** * Properties *)

(** ** Send token *)

(** What [_cmdAcquireSendToken] does as written, in all cases: with the token
    bit set the request is queued while the timeout has not elapsed and
    granted on an emptied queue afterwards; with the token bit clear the
    request is granted at once and the queue is kept. *)
Lemma _cmdAcquireSendToken_as_written (indefinite now timeout : Z)
    (command : SendToken.Command) (impl : SendToken.Impl) :
  let within := (timeout =? indefinite)
                || (wrap64 (now - SendToken.lastSendToken impl) <=? timeout) in
  let grant queue :=
    (true,
     {| SendToken.sendToken := false;
        SendToken.lastSendToken := SendToken.lastSendToken impl;
        SendToken.sendTokenQueue := queue |},
     [SendToken.SendAcquireReply (SendToken.getNode command)
                                 (SendToken.requestID command)]) in
  SendToken._cmdAcquireSendToken indefinite now timeout command impl =
    match SendToken.sendToken impl, within with
    | true, true =>
        (true,
         {| SendToken.sendToken := true;
            SendToken.lastSendToken := SendToken.lastSendToken impl;
            SendToken.sendTokenQueue := SendToken.sendTokenQueue impl ++ [command] |},
         [SendToken.Retain command])
    | true, false => grant []
    | false, _ => grant (SendToken.sendTokenQueue impl)
    end.
Proof.
  unfold SendToken._cmdAcquireSendToken.
  destruct impl as [[] last queue]; simpl; [|reflexivity].
  by destruct (_ || _).
Qed.

(** C1 — the code at two concrete inputs, with a timeout of 60 s and the
    indefinite timeout at 0xffffffff.  (1) A freshly constructed holder (token
    available, empty queue) receives an ACQUIRE at time 100: the token bit stays
    set, the command is retained and queued, and no reply is sent.  (2) A holder
    whose token is out (bit clear, one request waiting, last release at time 0)
    receives an ACQUIRE at time 100, well within the timeout: the new requester
    is granted at once and the waiting request stays queued. *)
Theorem acquire_send_token_inverted :
  let first := {| SendToken.getNode := 7%nat; SendToken.requestID := 1 |} in
  let second := {| SendToken.getNode := 8%nat; SendToken.requestID := 2 |} in
  SendToken._cmdAcquireSendToken 4294967295 100 60000 first SendToken.Impl_ctor =
    (true,
     {| SendToken.sendToken := true;
        SendToken.lastSendToken := 0;
        SendToken.sendTokenQueue := [first] |},
     [SendToken.Retain first])
  ∧
  SendToken._cmdAcquireSendToken 4294967295 100 60000 second
      {| SendToken.sendToken := false;
         SendToken.lastSendToken := 0;
         SendToken.sendTokenQueue := [first] |} =
    (true,
     {| SendToken.sendToken := false;
        SendToken.lastSendToken := 0;
        SendToken.sendTokenQueue := [first] |},
     [SendToken.SendAcquireReply 8 2]).
Proof. split; reflexivity. Qed.

(** C7 — [_cmdReleaseSendToken] always reports the command as handled, and:
    when the token bit is already set, the bit and the queue are unchanged and
    nothing is sent (only [lastSendToken] is refreshed to the current time);
    when the bit is clear and the queue is empty, the bit is set again and
    nothing is sent; when the bit is clear and the queue is not empty, the
    oldest request is popped from the front, a reply goes to its sender, the
    request is released, and the bit stays clear. *)
Theorem release_send_token_cases (now : Z) (impl impl' : SendToken.Impl)
    (handled : bool) (sent : list SendToken.Event) :
  SendToken._cmdReleaseSendToken now impl = (handled, impl', sent) →
  handled = true ∧
  SendToken.lastSendToken impl' = wrap64 now ∧
  (SendToken.sendToken impl = true →
     SendToken.tokenState impl' = SendToken.tokenState impl ∧ sent = []) ∧
  (SendToken.sendToken impl = false → SendToken.sendTokenQueue impl = [] →
     SendToken.sendToken impl' = true ∧ SendToken.sendTokenQueue impl' = [] ∧
     sent = []) ∧
  (∀ request rest,
     SendToken.sendToken impl = false →
     SendToken.sendTokenQueue impl = request :: rest →
     SendToken.sendToken impl' = false ∧
     SendToken.sendTokenQueue impl' = rest ∧
     sent = [SendToken.SendAcquireReply (SendToken.getNode request)
                                        (SendToken.requestID request);
             SendToken.Release request]).
Proof.
  unfold SendToken._cmdReleaseSendToken, SendToken.tokenState.
  destruct impl as [[] last queue]; simpl.
  - intros [= <- <- <-]. simpl. by repeat split.
  - destruct queue as [|request rest]; intros [= <- <- <-]; simpl;
      (split; [done|]); (split; [done|]); (split; [done|]); (split; [done|]);
      intros request' rest' _ [= <- <-]; done.
Qed.

Lemma release_send_token_cases_witness :
  let a := {| SendToken.getNode := 1%nat; SendToken.requestID := 10 |} in
  let b := {| SendToken.getNode := 2%nat; SendToken.requestID := 20 |} in
  let impl := {| SendToken.sendToken := false; SendToken.lastSendToken := 3;
                 SendToken.sendTokenQueue := [a; b] |} in
  let '(_, impl', sent) := SendToken._cmdReleaseSendToken 5 impl in
  SendToken.sendToken impl' = false ∧
  SendToken.sendTokenQueue impl' = [b] ∧
  sent = [SendToken.SendAcquireReply 1 10; SendToken.Release a].
Proof.
  pose (a := {| SendToken.getNode := 1%nat; SendToken.requestID := 10 |}).
  pose (b := {| SendToken.getNode := 2%nat; SendToken.requestID := 20 |}).
  pose (impl := {| SendToken.sendToken := false; SendToken.lastSendToken := 3;
                   SendToken.sendTokenQueue := [a; b] |}).
  exact (proj2 (proj2 (proj2 (proj2
           (release_send_token_cases 5 impl _ _ _ eq_refl)))) a [b] eq_refl eq_refl).
Defined.

(** Releasing twice in a row, at any two times: once the first release has left
    the token bit set, the second one changes neither the bit nor the queue
    and sends nothing. *)
Lemma release_send_token_twice (now now' : Z) (impl : SendToken.Impl) :
  let '(_, impl1, _) := SendToken._cmdReleaseSendToken now impl in
  let '(_, impl2, sent) := SendToken._cmdReleaseSendToken now' impl1 in
  SendToken.sendToken impl1 = true →
  SendToken.tokenState impl2 = SendToken.tokenState impl1 ∧ sent = [].
Proof.
  unfold SendToken._cmdReleaseSendToken, SendToken.tokenState.
  destruct impl as [[] last [|request rest]]; simpl; try done.
  by destruct rest.
Qed.

(** C9 — [releaseSendToken( handle )]: with a null handle nothing is sent; in
    every case the caller's handle is null afterwards.  With a non-null handle
    exactly one RELEASE packet goes to the node the handle names. *)
Theorem releaseSendToken_resets_handle (node : SendToken.NodePtr) :
  let '(node', sent) := SendToken.releaseSendToken node in
  node' = None ∧
  (node = None → sent = []) ∧
  (∀ n, node = Some n → sent = [SendToken.SendRelease n]).
Proof.
  destruct node as [n|]; simpl; repeat split; try done.
  by intros n' [= <-].
Qed.

Lemma releaseSendToken_resets_handle_witness :
  SendToken.releaseSendToken None = (None, []) ∧
  snd (SendToken.releaseSendToken (Some 4%nat)) = [SendToken.SendRelease 4].
Proof.
  split.
  - pose proof (releaseSendToken_resets_handle None) as H.
    destruct (SendToken.releaseSendToken None) as [node' sent].
    destruct H as (-> & H & _). by rewrite (H eq_refl).
  - pose proof (releaseSendToken_resets_handle (Some 4%nat)) as H.
    destruct (SendToken.releaseSendToken (Some 4%nat)) as [node' sent].
    destruct H as (_ & _ & H). exact (H 4%nat eq_refl).
Defined.

(** ** ObjectDataIStream *)

Section ObjectDataIStreamFacts.
Import ObjectDataIStream.
Variable VERSION_INVALID : Z.

Lemma wrap32_succ (n : Z) : wrap32 (wrap32 n + 1) = wrap32 (n + 1).
Proof. unfold wrap32. by rewrite Zplus_mod_idemp_l. Qed.

Lemma sequenced_nil : sequenced [].
Proof. split; intros *; [by rewrite lookup_nil | by rewrite elem_of_nil]. Qed.

(** Appending one command to a sequenced list. *)
Lemma sequenced_snoc (pre : list Command) (c : Command) :
  sequenced (pre ++ [c]) ↔
  sequenced pre ∧
  sequence (getPacket c) = wrap32 (Z.of_nat (length pre)) ∧
  (∀ q, q ∈ pre → version (getPacket c) = version (getPacket q)).
Proof.
  unfold sequenced. split.
  - intros [Hseq Hver]. repeat split.
    + intros i q Hq. apply Hseq. by apply lookup_app_l_Some.
    + intros q q' Hq Hq'. apply Hver; set_solver.
    + apply Hseq. by rewrite lookup_app_r, Nat.sub_diag.
    + intros q Hq. apply Hver; set_solver.
  - intros ([Hseq Hver] & Hc & Hcv). split.
    + intros i q Hq. apply lookup_app_Some in Hq as [Hq|[Hlen Hq]].
      * by apply Hseq.
      * apply list_lookup_singleton_Some in Hq as [Hi <-].
        rewrite Hc. f_equal. lia.
    + intros q q' [Hq|Hq%list_elem_of_singleton]%elem_of_app
                  [Hq'|Hq'%list_elem_of_singleton]%elem_of_app; subst;
        auto using eq_sym.
Qed.

(** The debug-build check of [addDataPacket] on a stream as its constructor
    and earlier [addDataPacket] calls leave it: the packet is accepted exactly
    when it extends the sequence, and rejected by an assertion otherwise. *)
Lemma check_packet_fresh (pre : list Command) (c : Command) (s : Stream) :
  _commands s = None :: (Some <$> pre) →
  sequenced pre →
  (sequenced (pre ++ [c]) ∧ check_packet false (getPacket c) s = Ok tt) ∨
  (¬ sequenced (pre ++ [c]) ∧ check_packet false (getPacket c) s = AssertFail).
Proof.
  intros Hs Hpre. unfold check_packet. rewrite Hs.
  rewrite sequenced_snoc.
  destruct pre as [|q0 pre0] using rev_ind; simpl.
  - unfold EQASSERT. destruct (Z.eqb_spec (sequence (getPacket c)) 0) as [E|E].
    + left. split; [|done]. split; [done|]. split; [done|].
      intros q. by rewrite elem_of_nil.
    + right. split; [|done]. intros (_ & E' & _). done.
  - clear IHpre0.
    rewrite length_fmap, length_app, fmap_app. simpl.
    replace (S (length pre0 + 1) <? 2)%nat with false
      by (symmetry; apply Nat.ltb_ge; lia).
    rewrite app_comm_cons, last_snoc. simpl.
    apply sequenced_snoc in Hpre as (Hpre0 & Hq0 & Hq0v).
    unfold EQASSERT.
    destruct (Z.eqb_spec (sequence (getPacket c))
                (wrap32 (sequence (getPacket q0) + 1))) as [E|E].
    + destruct (Z.eqb_spec (version (getPacket c)) (version (getPacket q0))) as [V|V].
      * left. split; [|done]. split; [by apply sequenced_snoc|]. split.
        -- rewrite E, Hq0, wrap32_succ. f_equal. lia.
        -- intros q [Hq|Hq%list_elem_of_singleton]%elem_of_app; subst; [|done].
           rewrite V. by apply Hq0v.
      * right. split; [|done]. intros (_ & _ & Hv). apply V, Hv. set_solver.
    + right. split; [|done]. intros (_ & Hc & _). apply E.
      rewrite Hc, Hq0, wrap32_succ. f_equal. lia.
Qed.

Lemma sequenced_app_l (l1 l2 : list Command) : sequenced (l1 ++ l2) → sequenced l1.
Proof.
  intros [Hseq Hver]. split.
  - intros i c Hc. apply Hseq. by apply lookup_app_l_Some.
  - intros c c' Hc Hc'. apply Hver; set_solver.
Qed.

(** [addDataPacket] in any build and on any stream: the command is appended
    and retained, and the stream is ready afterwards exactly when it was
    ready before or the packet is marked last. *)
Lemma addDataPacket_ok (NDEBUG : bool) (c : Command) (s s' : Stream) :
  addDataPacket NDEBUG c s = Ok s' →
  _commands s' = _commands s ++ [Some c] ∧
  ready s' = ready s || last (getPacket c) ∧
  held s' = S (held s).
Proof.
  unfold addDataPacket.
  destruct (check_packet NDEBUG (getPacket c) s) as [[]| |]; simpl; try done.
  intros [= <-]. destruct (last (getPacket c)); simpl;
    rewrite ?orb_true_r, ?orb_false_r; done.
Qed.

(** Packets fed to a stream that was built by its constructor and earlier
    [addDataPacket] calls, in a debug build: either the whole sequence keeps
    the invariant and every packet is queued, or the first packet that breaks
    it runs into an assertion. *)
Lemma addDataPackets_fresh (cmds pre : list Command) (s : Stream) :
  _commands s = None :: (Some <$> pre) →
  sequenced pre →
  (sequenced (pre ++ cmds) ∧
   ∃ s', addDataPackets false cmds s = Ok s' ∧
         _commands s' = None :: (Some <$> pre ++ cmds) ∧
         ready s' = ready s || existsb (λ c, last (getPacket c)) cmds) ∨
  (¬ sequenced (pre ++ cmds) ∧ addDataPackets false cmds s = AssertFail).
Proof.
  revert pre s. induction cmds as [|c rest IH]; intros pre s Hs Hpre.
  - left. rewrite app_nil_r, orb_false_r. eauto.
  - simpl. destruct (check_packet_fresh pre c s Hs Hpre) as [[Hc Hok]|[Hc Hfail]].
    + destruct (addDataPacket false c s) as [s1| |] eqn:Hadd;
        unfold addDataPacket in Hadd; rewrite Hok in Hadd; simpl in Hadd;
        try discriminate.
      assert (Hs1 : _commands s1 = None :: (Some <$> pre ++ [c])).
      { injection Hadd as <-. rewrite fmap_app.
        destruct (last (getPacket c)); simpl; by rewrite Hs. }
      assert (Hr1 : ready s1 = ready s || last (getPacket c)).
      { injection Hadd as <-.
        destruct (last (getPacket c)); simpl; by rewrite ?orb_true_r, ?orb_false_r. }
      simpl. rewrite (cons_middle c pre rest), app_assoc.
      destruct (IH (pre ++ [c]) s1 Hs1 Hc) as [[Hall (s' & Hrun & Hs' & Hr')]|[Hall Hrun]].
      * left. split; [done|]. exists s'. rewrite Hr', Hr1, orb_assoc. done.
      * right. done.
    + right. unfold addDataPacket. rewrite Hfail. simpl. split; [|done].
      intros Hall. apply Hc. rewrite (cons_middle c pre rest), app_assoc in Hall.
      by apply sequenced_app_l in Hall.
Qed.

(** Since construction, in a debug build: a list of packets is accepted in
    full exactly when it satisfies the invariant of the specification; the
    queue then holds the packets in order, and the stream is ready exactly
    when one of them was marked last.  A list that breaks the invariant runs
    into an assertion. *)
Lemma addDataPackets_since_construction (cmds : list Command) :
  let fresh := ObjectDataIStream_ctor VERSION_INVALID in
  (sequenced cmds ∧
   ∃ s', addDataPackets false cmds fresh = Ok s' ∧
         queued s' = cmds ∧
         ready s' = existsb (λ c, last (getPacket c)) cmds) ∨
  (¬ sequenced cmds ∧ addDataPackets false cmds fresh = AssertFail).
Proof.
  destruct (addDataPackets_fresh cmds [] (ObjectDataIStream_ctor VERSION_INVALID)
              eq_refl sequenced_nil) as [[Hall (s' & Hrun & Hs' & Hr')]|[Hall Hrun]].
  - left. split; [done|]. exists s'. repeat split; [done| |done].
    unfold queued. rewrite Hs'. simpl.
    clear. induction cmds as [|c rest IH]; [done|].
    rewrite fmap_cons. simpl. f_equal. exact IH.
  - right. done.
Qed.

(** C3 — the code at a concrete input, in a debug build.  [p0] (sequence 0)
    and [p1] (sequence 1, same version, marked last) form a valid version.  Fed
    to a freshly constructed stream they are accepted and the stream becomes
    ready.  Fed to the same stream after [reset()], the second packet runs into
    the assertion [packet->sequence == 0]: [reset()] leaves the deque empty,
    without the null entry the constructor puts in, so the test
    [_commands.size() < 2] still holds when [p1] arrives.  Two packets with
    sequence 0 and different versions are accepted after [reset()]. *)
Theorem addDataPacket_after_reset :
  let p0 := {| getPacket := {| sequence := 0; version := 5; dataSize := 8; last := false |} |} in
  let p1 := {| getPacket := {| sequence := 1; version := 5; dataSize := 8; last := true |} |} in
  let p0' := {| getPacket := {| sequence := 0; version := 6; dataSize := 8; last := false |} |} in
  let fresh := ObjectDataIStream_ctor VERSION_INVALID in
  addDataPackets false [p0; p1] fresh =
    Ok {| _commands := [None; Some p0; Some p1]; _version := VERSION_INVALID;
          ready := true; held := 2 |} ∧
  addDataPackets false [p0; p1] (reset VERSION_INVALID fresh) = AssertFail ∧
  addDataPackets false [p0; p0'] (reset VERSION_INVALID fresh) =
    Ok {| _commands := [Some p0; Some p0']; _version := VERSION_INVALID;
          ready := false; held := 2 |}.
Proof. repeat split. Qed.
End ObjectDataIStreamFacts.

(** ** Connect-by-NodeID *)

Section ConnectFacts.
Import Connect.
Variable World : Type.
Variable _connect : nat → World → ConnectResult * World.
Variable rng_get : World → Z * World.
Variable nodes_find : NodeID → World → option nat.
Variable isConnected : nat → World → bool.

Lemma attempts_app (t1 t2 : list Event) : attempts (t1 ++ t2) = attempts t1 ++ attempts t2.
Proof. apply omap_app. Qed.

Lemma sleeps_app (t1 t2 : list Event) : sleeps (t1 ++ t2) = sleeps t1 ++ sleeps t2.
Proof. apply omap_app. Qed.

(** Whatever the attempts return, a loop entered with the counter at [tries]
    calls [_connect( node )] at most [tries - 1] times, sleeps at most once
    per attempt, and every sleep lasts between 0 and 255 milliseconds. *)
Lemma connect_retry_bound (tries : nat) (nodeID : NodeID) (node : nat)
    (w : World) (trace : list Event) :
  let '(_, _, trace') :=
    connect_retry World _connect rng_get nodes_find isConnected
                  tries nodeID node w trace in
  (length (attempts trace') ≤ length (attempts trace) + Nat.pred tries)%nat ∧
  (length (sleeps trace') + length (attempts trace)
     ≤ length (attempts trace') + length (sleeps trace))%nat ∧
  (Forall (λ ms, 0 ≤ ms < 256) (sleeps trace) →
   Forall (λ ms, 0 ≤ ms < 256) (sleeps trace')).
Proof.
  revert node w trace. induction tries as [|tries IH]; intros node w trace; simpl.
  - repeat split; [lia|lia|done].
  - destruct (Nat.eqb_spec tries 0) as [->|Hpos]; [repeat split; [lia|lia|done]|].
    destruct (_connect node w) as [result w1].
    destruct result;
      try (rewrite attempts_app, sleeps_app, !length_app; simpl;
           rewrite app_nil_r; repeat split; [lia|lia|done]).
    + destruct (rng_get w1) as [r w2].
      set (node' := match nodes_find nodeID w2 with Some f => f | None => node end).
      specialize (IH node' w2 ((trace ++ [Attempt node]) ++ [Sleep (r mod 2 ^ 8)])).
      destruct (connect_retry _ _ _ _ _ tries nodeID node' w2 _)
        as [[res w'] trace'].
      rewrite !attempts_app, !sleeps_app, !length_app in IH. simpl in IH.
      rewrite !app_nil_r in IH.
      destruct IH as (IH1 & IH2 & IH3). repeat split; [lia|lia|].
      intros Hall. apply IH3. apply Forall_app. split; [done|].
      apply Forall_singleton. apply Z.mod_pos_bound. lia.
    + set (node' := match nodes_find nodeID w1 with Some f => f | None => node end).
      specialize (IH node' w1 (trace ++ [Attempt node])).
      destruct (connect_retry _ _ _ _ _ tries nodeID node' w1 _)
        as [[res w'] trace'].
      rewrite !attempts_app, !sleeps_app, !length_app in IH. simpl in IH.
      rewrite !app_nil_r in IH.
      destruct IH as (IH1 & IH2 & IH3).
      repeat split; [lia|lia|done].
Qed.

(** The whole of [_connect( nodeID, peer )]: a call that returns has tried
    at most nine times and has slept between 0 and 255 ms each time. *)
Lemma _connect_id_attempts (getNodeData : NodeID → nat → World → option nat * World)
    (NDEBUG : bool) (_id nodeID : NodeID) (peer : nat) (w w' : World)
    (result : option nat) (trace : list Event) :
  _connect_id World _connect rng_get nodes_find isConnected getNodeData
              NDEBUG _id nodeID peer w = Ok (result, w', trace) →
  (length (attempts trace) ≤ 9)%nat ∧
  (length (sleeps trace) ≤ length (attempts trace))%nat ∧
  Forall (λ ms, 0 ≤ ms < 256) (sleeps trace).
Proof.
  unfold _connect_id, EQASSERT.
  destruct (nodes_find nodeID w) as [node|].
  - destruct NDEBUG, (isConnected node w); try discriminate;
      intros [= <- <- <-]; simpl; repeat split; try lia; constructor.
  - assert (Hbody :
      (let '(r, w0) := getNodeData nodeID peer w in
       match r with
       | Some node =>
           if isConnected node w0 then Ok (Some node, w0, [])
           else Ok (connect_retry World _connect rng_get nodes_find isConnected
                                  10 nodeID node w0 [])
       | None => Ok (None, w0, [])
       end) = Ok (result, w', trace) →
      (length (attempts trace) ≤ 9)%nat ∧
      (length (sleeps trace) ≤ length (attempts trace))%nat ∧
      Forall (λ ms, 0 ≤ ms < 256) (sleeps trace)).
    { destruct (getNodeData nodeID peer w) as [[node|] w0].
      - destruct (isConnected node w0).
        + intros [= <- <- <-]. simpl. repeat split; try lia; constructor.
        + pose proof (connect_retry_bound 10 nodeID node w0 []) as Hb.
          destruct (connect_retry _ _ _ _ _ 10 nodeID node w0 []) as [[r1 w1] t1].
          intros [= <- <- <-]. simpl in Hb. destruct Hb as (H1 & H2 & H3).
          repeat split; [lia|lia|]. apply H3. constructor.
      - intros [= <- <- <-]. simpl. repeat split; try lia; constructor. }
    destruct NDEBUG; [exact Hbody|].
    case_bool_decide; [exact Hbody|discriminate].
Qed.
End ConnectFacts.

(** C4 — the code at a concrete input: every call of [_connect( node )]
    answers CONNECT_TRY_AGAIN, the random number generator draws 300 each time
    (44 as a uint8_t), the node map never knows the peer.  The loop entered
    with [tries = 10] makes nine attempts, each followed by a sleep of 44 ms,
    and then gives up. *)
Theorem connect_retry_nine_attempts :
  let try_again := λ (_ : nat) (w : unit), (Connect.CONNECT_TRY_AGAIN, w) in
  let '(result, _, trace) :=
    Connect.connect_retry unit try_again (λ w, (300, w)) (λ _ _, None) (λ _ _, false)
                          10 1 3%nat tt [] in
  result = None ∧
  length (Connect.attempts trace) = 9%nat ∧
  Connect.sleeps trace = replicate 9 44.
Proof. repeat split. Qed.

(** ** Pending-command redispatch *)

Section RedispatchFacts.
Import Redispatch.
Variable NDEBUG : bool.
Variable Command : Type.
Variable World : Type.
Variable dispatchCommand : Command → World → bool * World.

Abbreviation pass := (pass Command World dispatchCommand).
Abbreviation redispatch_loop := (redispatch_loop Command World dispatchCommand).

(** One walk over the list: either a command dispatched, and it is the one
    that was erased and released, or none did and the list is as before. *)
Lemma pass_result (visited rest : list Command) (w : World) :
  match pass visited rest w with
  | (true, pending, released, _) =>
      ∃ c, released = Some c ∧ visited ++ rest ≡ₚ c :: pending
  | (false, pending, released, _) =>
      released = None ∧ pending = visited ++ rest
  end.
Proof.
  revert visited w. induction rest as [|c rest IH]; intros visited w; simpl.
  - by rewrite app_nil_r.
  - destruct (dispatchCommand c w) as [[] w1].
    + exists c. split; [done|]. by rewrite Permutation_middle.
    + specialize (IH (visited ++ [c]) w1).
      rewrite <- app_assoc in IH. exact IH.
Qed.

Lemma redispatch_loop_result (pending released : list Command) (w : World) :
  let '(pending', released', w') := redispatch_loop pending released w in
  (∃ dispatched, released' = released ++ dispatched ∧
                 pending ≡ₚ dispatched ++ pending') ∧
  (∃ w0, pass [] pending' w0 = (false, pending', None, w')).
Proof.
  funelim (redispatch_loop pending released w).
  - split; [by exists []; rewrite app_nil_r | by exists w].
  - clear Heqcall. pose proof (pass_result [] (c :: cs) w) as Hpass.
    rewrite Hp in Hpass. destruct Hpass as (c' & [= <-] & Hperm). simpl in Hperm.
    destruct (redispatch_loop pending' (released ++ [r]) w') as [[p1 r1] w1].
    destruct H as [(d & -> & Hd) Hlast]. split; [|done].
    exists (r :: d). split; [by rewrite <- app_assoc|].
    rewrite Hperm. simpl. by rewrite Hd.
  - clear Heqcall. pose proof (pass_result [] (c :: cs) w) as Hpass.
    rewrite Hp in Hpass. by destruct Hpass as (c' & [=] & _).
  - clear Heqcall. pose proof (pass_result [] (c :: cs) w) as Hpass.
    rewrite Hp in Hpass. destruct Hpass as [-> ->]. simpl.
    split; [by exists []; rewrite app_nil_r | by exists w].
Qed.

Abbreviation walk_without_dispatch :=
  (walk_without_dispatch Command World dispatchCommand).
Abbreviation redispatched := (redispatched Command World dispatchCommand).

Lemma walk_without_dispatch_snoc (cs : list Command) (c : Command) (w w1 w2 : World) :
  walk_without_dispatch cs w w1 →
  dispatchCommand c w1 = (false, w2) →
  walk_without_dispatch (cs ++ [c]) w w2.
Proof.
  induction 1 as [w|c0 cs w w0 w1 Hc0 Hcs IH]; intros Hc; simpl.
  - econstructor; [exact Hc|constructor].
  - econstructor; [exact Hc0|by apply IH].
Qed.

(** One walk, as the specification words it: the commands in front of the
    one that was dispatched were all tried and refused, in order. *)
Lemma pass_walk (visited rest : list Command) (w0 w : World) :
  walk_without_dispatch visited w0 w →
  match pass visited rest w with
  | (true, pending, released, w') =>
      ∃ before c behind w1,
        released = Some c ∧
        visited ++ rest = before ++ c :: behind ∧
        pending = before ++ behind ∧
        walk_without_dispatch before w0 w1 ∧
        dispatchCommand c w1 = (true, w')
  | (false, pending, released, w') =>
      released = None ∧ pending = visited ++ rest ∧
      walk_without_dispatch pending w0 w'
  end.
Proof.
  revert visited w. induction rest as [|c rest IH]; intros visited w Hvisited; simpl.
  - by rewrite app_nil_r.
  - destruct (dispatchCommand c w) as [[] w1] eqn:Hc.
    + by exists visited, c, rest, w.
    + specialize (IH (visited ++ [c]) w1
                    (walk_without_dispatch_snoc _ _ _ _ _ Hvisited Hc)).
      by rewrite <- app_assoc in IH.
Qed.

Lemma redispatch_loop_redispatched (pending released : list Command) (w : World) :
  let '(pending', released', w') := redispatch_loop pending released w in
  ∃ dispatched, released' = released ++ dispatched ∧
                redispatched pending w pending' dispatched w'.
Proof.
  funelim (redispatch_loop pending released w).
  - exists []. rewrite app_nil_r. split; [done|constructor].
  - clear Heqcall. pose proof (pass_walk [] (c :: cs) w w (walk_nil _ _ _ w)) as Hpass.
    rewrite Hp in Hpass.
    destruct Hpass as (before & c' & behind & w1 & [= <-] & Hsplit & -> & Hwalk & Hc).
    simpl in Hsplit.
    destruct (redispatch_loop (before ++ behind) (released ++ [r]) w') as [[p1 r1] w2].
    destruct H as (d & -> & Hd).
    exists (r :: d). split; [by rewrite <- app_assoc|].
    rewrite Hsplit. by econstructor.
  - clear Heqcall. pose proof (pass_walk [] (c :: cs) w w (walk_nil _ _ _ w)) as Hpass.
    rewrite Hp in Hpass. by destruct Hpass as (? & ? & ? & ? & [=] & _).
  - clear Heqcall. pose proof (pass_walk [] (c :: cs) w w (walk_nil _ _ _ w)) as Hpass.
    rewrite Hp in Hpass. destruct Hpass as (_ & -> & Hwalk). simpl in *.
    exists []. rewrite app_nil_r. split; [done|]. by constructor.
Qed.

(** C8 — [_redispatchCommands] returns for every pending list and every
    behaviour of the handlers, and what it returns is what the specification
    describes: the list is walked from its front again and again; a walk ends
    at the first command whose dispatch returns true, which is then taken off
    the list and released, so every successful dispatch makes the list one
    shorter, and the released commands are exactly the ones whose dispatch
    returned true, in that order; the walks stop after a full walk in which no
    dispatch returned true (or when nothing is pending any more), so the list
    that is left is one on which a full walk dispatched nothing.  In a debug
    build the call returns normally exactly when fewer than 200 commands are
    left, as asserted; with NDEBUG the watermark is not checked. *)
Theorem redispatchCommands_terminates (pending : list Command) (w : World) :
  ∃ pending' released w',
    redispatch_loop pending [] w = (pending', released, w') ∧
    redispatched pending w pending' released w' ∧
    pending ≡ₚ released ++ pending' ∧
    length pending = (length released + length pending')%nat ∧
    (∃ w0, pass [] pending' w0 = (false, pending', None, w')) ∧
    _redispatchCommands NDEBUG Command World dispatchCommand pending w =
      (if NDEBUG || (length pending' <? 200)%nat
       then Ok (pending', released, w') else AssertFail).
Proof.
  pose proof (redispatch_loop_result pending [] w) as H.
  pose proof (redispatch_loop_redispatched pending [] w) as Hspec.
  unfold _redispatchCommands.
  destruct (redispatch_loop pending [] w) as [[pending' released] w'].
  destruct H as [(d & -> & Hperm) Hlast]. destruct Hspec as (d' & [= <-] & Hspec).
  simpl. exists pending', d, w'. repeat split; [done|done| |done|].
  - by rewrite Hperm, length_app.
  - unfold EQASSERT. by destruct NDEBUG, (length pending' <? 200)%nat.
Qed.
End RedispatchFacts.

(** Deferred dispatch on a small instance.  A command is a number; commands
    below 10 always dispatch, and dispatching [c] maps object [c + 10]; a
    command from 10 on dispatches only once its object is mapped.  From the
    pending list [15; 5; 12] the first walk defers 15 and dispatches 5, the
    second dispatches 15, the third dispatches nothing and ends the loop with
    12 still pending. *)
Example redispatch_deferred :
  let dispatchCommand := λ (c : nat) (mapped : list nat),
    if (c <? 10)%nat then (true, (c + 10)%nat :: mapped)
    else (bool_decide (c ∈ mapped), mapped) in
  Redispatch._redispatchCommands false nat (list nat) dispatchCommand
                                 [15%nat; 5%nat; 12%nat] [] =
  Ok ([12%nat], [5%nat; 15%nat], [15%nat]).
Proof. vm_compute. reflexivity. Qed.

(** ** Handshake handlers and close *)

Section LocalNodeFacts.
Import LocalNode.
Variable NDEBUG : bool.
Variable NODETYPE_CO_INVALID : Z.
Variable isConnected : Node → bool.
Variable deserialize : list Z → Node → bool * Node * list Z.
Variable serialize : Node → list Z.
Variable createNode : Z → Node.

Lemma EQASSERT_true {A} (k : Outcome A) : EQASSERT NDEBUG true k = k.
Proof. unfold EQASSERT. by destruct NDEBUG. Qed.

Lemma removeConnection_NoDup (connection : nat) (set : list nat) :
  NoDup set → connection ∉ removeConnection connection set.
Proof.
  induction 1 as [|c rest Hc Hrest IH]; simpl; [apply not_elem_of_nil|].
  destruct (decide (c = connection)) as [->|Hne]; [done|].
  rewrite not_elem_of_cons. by split.
Qed.

(** C6 — a CONNECT whose nodeID is in the NodeID-to-node map with a node in
    state CONNECTED (for which [isConnected()] holds), handled under the
    assertions of [_cmdConnect] (the id is not the local one, the connection
    has no node yet): the handler reports the command as handled, sends on the
    new connection one reply, which carries nodeID ZERO and the requestID of
    the CONNECT, removes the connection from the connection set and closes it,
    and changes neither map nor any node. *)
Theorem cmdConnect_refuses_connected_peer (packet : ConnectFields)
    (connection p : nat) (peer : Node) (ln : LocalNode) :
  (∀ n, _state n = STATE_CONNECTED → isConnected n = true) →
  nodeID packet ≠ _id (self ln) →
  connectionNodes ln !! connection = None →
  NoDup (incoming ln) →
  nodes ln !! nodeID packet = Some p →
  get_node ln p = Some peer →
  _state peer = STATE_CONNECTED →
  ∃ ln' reply,
    _cmdConnect NDEBUG NODETYPE_CO_INVALID isConnected deserialize serialize
                createNode packet None connection ln = Ok (true, ln') ∧
    events ln' = events ln ++ [ConnectionSend connection (NodeConnectReplyPacket reply)] ∧
    nodeID reply = ZERO ∧
    requestID reply = requestID packet ∧
    incoming ln' = removeConnection connection (incoming ln) ∧
    (connection ∉ incoming ln') ∧
    (connection ∈ closed ln') ∧
    nodes ln' = nodes ln ∧
    connectionNodes ln' = connectionNodes ln ∧
    objects ln' = objects ln ∧
    self ln' = self ln.
Proof.
  intros Hconn Hid Hfree Hset Hnode Hpeer Hstate.
  unfold _cmdConnect.
  rewrite !bool_decide_eq_true_2, !EQASSERT_true by done.
  rewrite Hnode, Hpeer. simpl. rewrite (Hconn peer Hstate).
  eexists _, _. split; [reflexivity|]. simpl.
  repeat split; try done.
  - by apply removeConnection_NoDup.
  - set_solver.
Qed.
End LocalNodeFacts.

Lemma cmdConnect_refuses_connected_peer_witness :
  let isConnected := λ n : LocalNode.Node,
    bool_decide (LocalNode._state n = LocalNode.STATE_CONNECTED
                 ∨ LocalNode._state n = LocalNode.STATE_LISTENING) in
  let deserialize := λ (data : list Z) (n : LocalNode.Node), (true, n, @nil Z) in
  let serialize := λ n : LocalNode.Node, [LocalNode._id n] in
  let createNode := λ type : Z,
    {| LocalNode._id := 0; LocalNode._state := LocalNode.STATE_CLOSED;
       LocalNode._outgoing := None; LocalNode._type := type |} in
  let peer := {| LocalNode._id := 7; LocalNode._state := LocalNode.STATE_CONNECTED;
                 LocalNode._outgoing := Some 1%nat; LocalNode._type := 1 |} in
  let ln :=
    {| LocalNode.this := 0%nat;
       LocalNode.self := {| LocalNode._id := 1;
                            LocalNode._state := LocalNode.STATE_LISTENING;
                            LocalNode._outgoing := Some 0%nat;
                            LocalNode._type := 1 |};
       LocalNode.objects := {[ 1%nat := peer ]};
       LocalNode.allocated := 2%nat;
       LocalNode.connectionNodes := {[ 1%nat := 1%nat ]};
       LocalNode.nodes := {[ 7 := 1%nat ]};
       LocalNode.incoming := [1%nat; 2%nat];
       LocalNode.closed := ∅;
       LocalNode.requests := ∅;
       LocalNode.pendingCommands := 0%nat;
       LocalNode.events := [] |} in
  let packet := {| LocalNode.requestID := 3; LocalNode.nodeID := 7;
                   LocalNode.nodeType := 1; LocalNode.nodeData := [7] |} in
  ∃ ln' reply,
    LocalNode._cmdConnect false 0 isConnected deserialize serialize createNode
                          packet None 2%nat ln = Ok (true, ln') ∧
    LocalNode.events ln' =
      [LocalNode.ConnectionSend 2%nat (LocalNode.NodeConnectReplyPacket reply)] ∧
    LocalNode.nodeID reply = LocalNode.ZERO ∧
    LocalNode.incoming ln' = [1%nat] ∧
    LocalNode.nodes ln' = {[ 7 := 1%nat ]} ∧
    LocalNode.connectionNodes ln' = {[ 1%nat := 1%nat ]}.
Proof.
  intros isConnected deserialize serialize createNode peer ln packet.
  destruct (cmdConnect_refuses_connected_peer false 0 isConnected deserialize
              serialize createNode packet 2%nat 1%nat peer ln)
    as (ln' & reply & Hrun & Hev & Hzero & _ & Hin & _ & _ & Hnodes & Hcn & _).
  - intros n Hn. unfold isConnected. rewrite Hn. reflexivity.
  - simpl. lia.
  - vm_compute. reflexivity.
  - apply (bool_decide_unpack _). vm_compute. exact I.
  - vm_compute. reflexivity.
  - vm_compute. reflexivity.
  - reflexivity.
  - exists ln', reply. repeat split; assumption.
Defined.

Section ConnectReplyFacts.
Import LocalNode.
Variable NDEBUG : bool.
Variable LB_UNDEFINED_UINT32 : Z.
Variable isConnected : Node → bool.
Variable deserialize : list Z → Node → bool * Node * list Z.
Variable createNode : Z → Node.

Lemma get_node_set_node (p : nat) (n : Node) (ln : LocalNode) :
  get_node (set_node p n ln) p = Some n.
Proof.
  unfold get_node, set_node.
  destruct (decide (p = this ln)) as [E|E]; simpl.
  - by rewrite decide_True.
  - rewrite decide_False by done. apply lookup_insert_eq.
Qed.

Lemma set_node_frame (p : nat) (n : Node) (ln : LocalNode) :
  this (set_node p n ln) = this ln ∧
  connectionNodes (set_node p n ln) = connectionNodes ln ∧
  nodes (set_node p n ln) = nodes ln ∧
  incoming (set_node p n ln) = incoming ln ∧
  closed (set_node p n ln) = closed ln ∧
  requests (set_node p n ln) = requests ln ∧
  events (set_node p n ln) = events ln.
Proof. unfold set_node. by destruct (decide (p = this ln)). Qed.

End ConnectReplyFacts.


Section CloseFacts.
Import LocalNode.
Variable NDEBUG : bool.
Variable acceptSync : nat → nat.

Lemma close_node_events (connection : nat) (ln ln' : LocalNode) :
  close_node connection ln = Ok ln' → events ln' = events ln.
Proof.
  unfold close_node. destruct (connectionNodes ln !! connection); [|congruence].
  destruct (get_node ln n); simpl; [|discriminate].
  intros [= <-]. simpl. apply set_node_frame.
Qed.

Lemma cleanup_loop_events (ln ln' : LocalNode) :
  cleanup_loop ln = Ok ln' → events ln' = events ln.
Proof.
  funelim (cleanup_loop ln); try congruence.
  intros Hrun. rewrite (H _ Hrun). simpl. exact (close_node_events _ _ _ Hnode).
Qed.

Lemma cleanup_events (ln ln' : LocalNode) :
  _cleanup NDEBUG acceptSync ln = Ok ln' → events ln' = events ln.
Proof.
  unfold _cleanup, EQASSERT.
  assert (Hbody : ∀ pipe,
    (l ← cleanup_loop
           (set_node (this ln) (with_outgoing None (self ln))
              (set_maps (delete (acceptSync pipe)
                           (connectionNodes (_removeConnection (acceptSync pipe) ln)))
                        (nodes (_removeConnection (acceptSync pipe) ln))
                        (_removeConnection (acceptSync pipe) ln)));
     Ok (set_maps ∅ ∅ l)) = Ok ln' → events ln' = events ln).
  { intros pipe.
    destruct (cleanup_loop _) as [l| |] eqn:Hloop; simpl; try discriminate.
    intros [= <-]. simpl. rewrite (cleanup_loop_events _ _ Hloop).
    by rewrite (proj2 (proj2 (proj2 (proj2 (proj2 (proj2
                  (set_node_frame _ _ _))))))). }
  destruct (_outgoing (self ln)) as [pipe|]; simpl.
  - destruct NDEBUG; [apply Hbody|].
    case_bool_decide; [apply Hbody|discriminate].
  - destruct NDEBUG; [discriminate|]. case_bool_decide; discriminate.
Qed.

Lemma join_events (joined : bool) (ln ln' : LocalNode) :
  join NDEBUG joined ln = Ok ln' → events ln' = events ln ++ [Join joined].
Proof.
  unfold join. destruct joined; [|by intros [= <-]].
  unfold _cmdStopRcv, _cmdStopCmd, EQASSERT.
  repeat (case_match; simpl; try discriminate);
    intros [= <-]; simpl;
    rewrite !(proj2 (proj2 (proj2 (proj2 (proj2 (proj2
               (set_node_frame _ _ _))))))); done.
Qed.

End CloseFacts.



(** ** Child reconciliation *)

(** Scenario 4 of the specification: the old children A, B, C (at addresses
    10, 20, 30) have the ids 1, 2, 3 and are mapped slaves; the incoming list
    is [(2, v2); (ZERO, _); (4, v4); (1, v1)] with v2 = 22, v4 = 44, v1 = 11.
    The result is [B; null; the new child; A], B and A are synced to v2 and
    v1, the new child is mapped to (4, v4), and C is unmapped and released.
    The old and the result vector are the same object here. *)
Example deserializeChildren_scenario :
  let getID := λ c : nat, Z.of_nat (c / 10) in
  let versions := [ {| Children.identifier := 2; Children.version := 22 |};
                    {| Children.identifier := Children.ZERO; Children.version := 0 |};
                    {| Children.identifier := 4; Children.version := 44 |};
                    {| Children.identifier := 1; Children.version := 11 |} ] in
  let w := {| Children.vectors := {[ 0%nat := [Some 10%nat; Some 20%nat; Some 30%nat] ]};
              Children.created := 0; Children.events := [] |} in
  Children.deserializeChildren false (-1) getID (λ _, true) (λ _, false) false
      (λ n, 100 + n)%nat (λ _ _, true) versions 0%nat 0%nat w =
  Ok {| Children.vectors := {[ 0%nat := [Some 20%nat; None; Some 100%nat; Some 10%nat] ]};
        Children.created := 1;
        Children.events :=
          [ Children.Sync 20 22;
            Children.Create 100;
            Children.MapObject 100 {| Children.identifier := 4; Children.version := 44 |};
            Children.Sync 10 11;
            Children.UnmapObject 30;
            Children.ReleaseChild 30 ] |}.
Proof. vm_compute. reflexivity. Qed.

Section ChildrenFacts.
Import Children.
Variable NDEBUG : bool.
Variable VERSION_HEAD : Z.
Variable getID : nat → UUID.
Variable isAttached : nat → bool.
Variable isMaster : nat → bool.
Variable object_isMaster : bool.
Variable create : nat → nat.
Variable mapObject : nat → ObjectVersion → bool.

Abbreviation find_if := (find_if getID).
Abbreviation rebuild_step :=
  (rebuild_step NDEBUG VERSION_HEAD getID object_isMaster create mapObject).
Abbreviation rebuild :=
  (rebuild NDEBUG VERSION_HEAD getID object_isMaster create mapObject).
Abbreviation release_removed := (release_removed isAttached isMaster).
Abbreviation reconciled_entry := (reconciled_entry VERSION_HEAD getID object_isMaster).
Abbreviation reconciled := (reconciled VERSION_HEAD getID object_isMaster).
Abbreviation released := (released isAttached isMaster).

(** [find_if] on a vector without null pointers: it returns, either the
    position of the first child with the id or [old.end()] when no child has
    it. *)
Lemma find_if_result (old : list ChildPtr) (id : UUID) :
  Forall is_Some old →
  ∃ r, find_if old id = Ok r ∧
       match r with
       | Some j => ∃ c, old !! j = Some (Some c) ∧ getID c = id ∧
                        ∀ i c', (i < j)%nat → old !! i = Some (Some c') → getID c' ≠ id
       | None => ∀ c, Some c ∈ old → getID c ≠ id
       end.
Proof.
  induction 1 as [|p old [c ->] Hold IH]; simpl.
  - exists None. split; [done|]. intros c. by rewrite elem_of_nil.
  - destruct (Z.eqb_spec (getID c) id) as [E|E].
    + exists (Some 0%nat). split; [done|]. exists c. repeat split; [done|]. lia.
    + destruct IH as (r & -> & Hr). simpl. exists (option_map S r). split; [done|].
      destruct r as [j|]; simpl.
      * destruct Hr as (c0 & Hj & Hid & Hfirst). exists c0. repeat split; [done..|].
        intros [|i] c' Hi; simpl; [by intros [= <-]|].
        apply Hfirst. lia.
      * intros c' [[= <-]|Hc']%elem_of_cons; [done|by apply Hr].
Qed.

Lemma elem_of_delete_or {A} (l : list A) (j : nat) (x y : A) :
  x ∈ l → l !! j = Some y → x = y ∨ x ∈ delete j l.
Proof.
  revert j. induction l as [|a l IH]; intros j Hx Hj; [by destruct j|].
  destruct j as [|j]; simpl in *.
  - injection Hj as ->. apply elem_of_cons in Hx. tauto.
  - apply elem_of_cons in Hx as [->|Hx]; [right; left|].
    destruct (IH j Hx Hj) as [->|H]; [by left|right; by right].
Qed.

Lemma elem_of_delete {A} (l : list A) (j : nat) (x : A) :
  x ∈ delete j l → x ∈ l.
Proof.
  revert j. induction l as [|a l IH]; intros j; [by destruct j|].
  destruct j as [|j]; simpl.
  - by right.
  - intros [->|Hx]%elem_of_cons; [left|right; eauto].
Qed.

Lemma reconciled_entry_old (old old' : list ChildPtr) v slot evs :
  reconciled_entry old v slot old' evs →
  (∀ p, p ∈ old' → p ∈ old) ∧
  (∀ c, Some c ∈ old → Some c ∈ old' ∨ getID c = identifier v).
Proof.
  destruct 1 as [Hz|j c Hnz Hj Hid Hfirst|c Hnz Hnone].
  - split; auto.
  - split; [intros p; apply elem_of_delete|].
    intros c' Hc'. destruct (elem_of_delete_or old j _ _ Hc' Hj) as [[= ->]|H]; auto.
  - split; auto.
Qed.

Lemma reconciled_entry_Forall (old old' : list ChildPtr) v slot evs :
  reconciled_entry old v slot old' evs → Forall is_Some old → Forall is_Some old'.
Proof.
  intros H Hold. apply Forall_forall. intros p Hp.
  eapply (proj1 (Forall_forall _ _) Hold), reconciled_entry_old; eauto.
Qed.

(** One round of the loop, on a vector of old children without null
    pointers: it never dereferences a null pointer; it meets the contract for
    the entry; an assertion fires only in a debug build, for an id no remaining
    old child has, when the owner is the master or [mapObject] failed. *)
Lemma rebuild_step_spec (result : nat) (v : ObjectVersion) (old : list ChildPtr)
    (w : World) (r : list ChildPtr) :
  vectors w !! result = Some r →
  Forall is_Some old →
  match rebuild_step result v old w with
  | Ok (old', w') =>
      ∃ slot evs, reconciled_entry old v slot old' evs ∧
                  vectors w' = <[result := r ++ [slot]]> (vectors w) ∧
                  events w' = events w ++ evs
  | AssertFail =>
      NDEBUG = false ∧ identifier v ≠ ZERO ∧
      (∀ c, Some c ∈ old → getID c ≠ identifier v) ∧
      (object_isMaster = true ∨ ∃ c, mapObject c v = false)
  | Crash => False
  end.
Proof.
  intros Hr Hold. unfold Children.rebuild_step.
  destruct (Z.eqb_spec (identifier v) ZERO) as [Hz|Hnz].
  - unfold push_back. rewrite Hr. simpl.
    exists None, []. split; [by constructor|]. by rewrite app_nil_r.
  - destruct (find_if_result old (identifier v) Hold) as (f & -> & Hf). simpl.
    destruct f as [j|].
    + destruct Hf as (c & Hj & Hid & Hfirst). rewrite Hj. simpl.
      unfold push_back. simpl. rewrite Hr. simpl.
      eexists (Some c), [_]. split; [by constructor|]. done.
    + unfold EQCHECK, EQASSERT, push_back. simpl. rewrite Hr. simpl.
      destruct NDEBUG.
      * eexists (Some _), [_; _]. split; [by constructor|].
        simpl. by rewrite <- app_assoc.
      * destruct object_isMaster; simpl; [by auto|].
        destruct (mapObject (create (created w)) v) eqn:Hmap.
        -- eexists (Some _), [_; _]. split; [by constructor|].
           simpl. by rewrite <- app_assoc.
        -- repeat split; [done..|]. right. eauto.
Qed.

(** The whole loop: the contract of step 2, or an assertion of the debug
    build at an entry whose id no old child (still) has. *)
Lemma rebuild_spec (result : nat) (versions : list ObjectVersion)
    (old : list ChildPtr) (w : World) (r : list ChildPtr) :
  vectors w !! result = Some r →
  Forall is_Some old →
  match rebuild result versions old w with
  | Ok (old', w') =>
      ∃ res evs, reconciled old versions res old' evs ∧
                 vectors w' = <[result := r ++ res]> (vectors w) ∧
                 events w' = events w ++ evs
  | AssertFail =>
      NDEBUG = false ∧
      ∃ i v, versions !! i = Some v ∧ identifier v ≠ ZERO ∧
             (∀ c, Some c ∈ old → getID c = identifier v →
                   ∃ k v', (k < i)%nat ∧ versions !! k = Some v' ∧
                           identifier v' = identifier v) ∧
             (object_isMaster = true ∨ ∃ c, mapObject c v = false)
  | Crash => False
  end.
Proof.
  revert old w r. induction versions as [|v versions IH]; intros old w r Hr Hold.
  - simpl. exists [], []. split; [constructor|].
    rewrite !app_nil_r. split; [|done]. by rewrite insert_id.
  - simpl. pose proof (rebuild_step_spec result v old w r Hr Hold) as Hstep.
    destruct (rebuild_step result v old w) as [[old1 w1]| |]; simpl; [| |done].
    + destruct Hstep as (slot & evs1 & Hentry & Hvec1 & Hev1).
      assert (Hr1 : vectors w1 !! result = Some (r ++ [slot]))
        by (rewrite Hvec1; apply lookup_insert_eq).
      specialize (IH old1 w1 _ Hr1 (reconciled_entry_Forall _ _ _ _ _ Hentry Hold)).
      destruct (rebuild result versions old1 w1) as [[old2 w2]| |]; [| |done].
      * destruct IH as (res & evs2 & Hrec & Hvec2 & Hev2).
        exists (slot :: res), (evs1 ++ evs2). split; [by econstructor|]. split.
        -- rewrite Hvec2, Hvec1, insert_insert_eq, <- app_assoc. done.
        -- rewrite Hev2, Hev1, <- app_assoc. done.
      * destruct IH as (HN & i & v' & Hi & Hnz & Hused & Hwhy).
        split; [done|]. exists (S i), v'. repeat split; [done..| |done].
        intros c Hc Hid.
        destruct (proj2 (reconciled_entry_old _ _ _ _ _ Hentry) c Hc) as [Hc1|Hc1].
        -- destruct (Hused c Hc1 Hid) as (k & v'' & Hk & Hvk & Hidk).
           exists (S k), v''. split; [lia|]. by split.
        -- exists 0%nat, v. split; [lia|]. split; [done|]. congruence.
    + destruct Hstep as (HN & Hnz & Hnone & Hwhy). split; [done|].
      exists 0%nat, v. repeat split; [done..| |done].
      intros c Hc Hid. by destruct (Hnone c Hc).
Qed.

(** *** What the contract implies *)

Lemma reconciled_length old versions res old' evs :
  reconciled old versions res old' evs → length res = length versions.
Proof. induction 1; simpl; congruence. Qed.

Lemma reconciled_old old versions res old' evs :
  reconciled old versions res old' evs →
  (∀ p, p ∈ old' → p ∈ old) ∧
  (∀ c, Some c ∈ old →
        Some c ∈ old' ∨ ∃ v, v ∈ versions ∧ identifier v = getID c).
Proof.
  induction 1 as [|old v versions slot old1 evs1 res old2 evs2 Hentry Hrest IH].
  - split; auto.
  - destruct IH as [IH1 IH2].
    destruct (reconciled_entry_old _ _ _ _ _ Hentry) as [E1 E2]. split; [by auto|].
    intros c Hc. destruct (E2 c Hc) as [Hc1|Hid].
    + destruct (IH2 c Hc1) as [?|(v' & Hv' & Hid)]; [by left|].
      right. exists v'. split; [by right|done].
    + right. exists v. split; [by left|done].
Qed.

Lemma reconciled_events old versions res old' evs :
  reconciled old versions res old' evs →
  ∀ e, e ∈ evs → (∀ c, e ≠ UnmapObject c) ∧ (∀ c, e ≠ ReleaseChild c).
Proof.
  induction 1 as [|old v versions slot old1 evs1 res old2 evs2 Hentry Hrest IH];
    intros e He; [by apply elem_of_nil in He|].
  apply elem_of_app in He as [He|He]; [|by apply IH].
  destruct Hentry;
    repeat (apply elem_of_cons in He as [->|He]);
    try (by apply elem_of_nil in He); by split.
Qed.

(** The slots of the result follow the incoming list, entry by entry. *)
Lemma reconciled_slot old versions res old' evs :
  reconciled old versions res old' evs →
  ∀ (i : nat) v, versions !! i = Some v →
    (identifier v = ZERO → res !! i = Some None) ∧
    (identifier v ≠ ZERO →
     ∃ c, res !! i = Some (Some c) ∧
          ((Some c ∈ old ∧ getID c = identifier v ∧
            Sync c (if object_isMaster then VERSION_HEAD else version v) ∈ evs) ∨
           ((∀ c', Some c' ∈ old' → getID c' ≠ identifier v) ∧
            Create c ∈ evs ∧ MapObject c v ∈ evs))).
Proof.
  induction 1 as [|old v versions slot old1 evs1 res old2 evs2 Hentry Hrest IH];
    intros i v0 Hi; [by rewrite lookup_nil in Hi|].
  destruct i as [|i]; simpl in *.
  - injection Hi as <-.
    destruct Hentry as [Hz|j c Hnz Hj Hid Hfirst|c Hnz Hnone]; split; try done.
    + intros _. exists c. split; [done|]. left.
      split; [by eapply list_elem_of_lookup_2|]. split; [done|]. simpl. by left.
    + intros _. exists c. split; [done|]. right.
      split; [|split; simpl; [by left|right; by left]].
      intros c' Hc'. apply Hnone. by apply (reconciled_old _ _ _ _ _ Hrest).
  - destruct (IH i v0 Hi) as [IHz IHnz]. split; [done|].
    intros Hnz. destruct (IHnz Hnz) as (c & Hc & [(Hin & Hid & Hsync)|(Hnone & Hcr & Hmap)]);
      exists c; (split; [done|]).
    + left. split; [by apply (reconciled_entry_old _ _ _ _ _ Hentry)|].
      split; [done|]. apply elem_of_app. by right.
    + right. split; [done|]. split; apply elem_of_app; by right.
Qed.

(** An id that an old child has, at its first mention in the incoming list,
    takes an old child. *)
Lemma reconciled_first_mention old versions res old' evs :
  reconciled old versions res old' evs →
  ∀ (i : nat) v c0,
    versions !! i = Some v →
    identifier v ≠ ZERO →
    Some c0 ∈ old →
    getID c0 = identifier v →
    (∀ (k : nat) v', (k < i)%nat → versions !! k = Some v' →
                     identifier v' ≠ identifier v) →
    ∃ c, res !! i = Some (Some c) ∧ Some c ∈ old ∧ getID c = identifier v ∧
         Sync c (if object_isMaster then VERSION_HEAD else version v) ∈ evs.
Proof.
  induction 1 as [|old v versions slot old1 evs1 res old2 evs2 Hentry Hrest IH];
    intros i v0 c0 Hi Hnz Hc0 Hid0 Hfirst; [by rewrite lookup_nil in Hi|].
  destruct i as [|i]; simpl in *.
  - injection Hi as <-.
    destruct Hentry as [Hz|j c _ Hj Hid _|c _ Hnone]; [done| |by destruct (Hnone c0)].
    exists c. split; [done|]. split; [by eapply list_elem_of_lookup_2|].
    split; [done|]. simpl. by left.
  - assert (Hne : identifier v ≠ identifier v0) by (apply (Hfirst 0%nat); [lia|done]).
    destruct (proj2 (reconciled_entry_old _ _ _ _ _ Hentry) c0 Hc0) as [Hc1|Hc1];
      [|congruence].
    destruct (IH i v0 c0 Hi Hnz Hc1 Hid0) as (c & Hc & Hin & Hid & Hsync).
    { intros k v' Hk Hv'. apply (Hfirst (S k)); [lia|done]. }
    exists c. split; [done|].
    split; [by apply (reconciled_entry_old _ _ _ _ _ Hentry)|].
    split; [done|]. apply elem_of_app. by right.
Qed.

(** The release loop makes the calls of step 3 for the remaining children,
    from the back of the vector, and touches nothing else. *)
Lemma release_removed_spec (l : list ChildPtr) (w : World) :
  vectors (release_removed l w) = vectors w ∧
  created (release_removed l w) = created w ∧
  events (release_removed l w) = events w ++ (l ≫= released).
Proof.
  revert w. induction l as [|[c|] l IH]; intros w; simpl.
  - by rewrite app_nil_r.
  - destruct (IH (log (ReleaseChild c)
                    (if isAttached c && negb (isMaster c)
                     then log (UnmapObject c) w else w))) as (-> & -> & ->).
    destruct (isAttached c && negb (isMaster c)); simpl;
      by rewrite <- ?app_assoc.
  - apply IH.
Qed.

Lemma released_calls (l : list ChildPtr) (c : nat) :
  (ReleaseChild c ∈ l ≫= released ↔ Some c ∈ l) ∧
  (UnmapObject c ∈ l ≫= released ↔
   Some c ∈ l ∧ isAttached c = true ∧ isMaster c = false).
Proof.
  rewrite !list_elem_of_bind. split; split.
  - intros ([c'|] & Hc & Hin); simpl in Hc; [|by apply elem_of_nil in Hc].
    apply elem_of_app in Hc as [Hc|Hc].
    + destruct (isAttached c' && negb (isMaster c'));
        [apply list_elem_of_singleton in Hc; discriminate
        |by apply elem_of_nil in Hc].
    + apply list_elem_of_singleton in Hc. by injection Hc as ->.
  - intros Hin. exists (Some c). split; [|done]. simpl.
    apply elem_of_app. right. by left.
  - intros ([c'|] & Hc & Hin); simpl in Hc; [|by apply elem_of_nil in Hc].
    apply elem_of_app in Hc as [Hc|Hc].
    + destruct (isAttached c') eqn:Ha, (isMaster c') eqn:Hm; simpl in Hc;
        try (by apply elem_of_nil in Hc).
      apply list_elem_of_singleton in Hc. by injection Hc as ->.
    + apply list_elem_of_singleton in Hc. discriminate.
  - intros (Hin & Ha & Hm). exists (Some c). split; [|done]. simpl.
    rewrite Ha, Hm. simpl. by left.
Qed.

Lemma NoDup_delete_lookup {A} (l : list A) (j : nat) (x : A) :
  NoDup l → l !! j = Some x → x ∉ delete j l.
Proof.
  intros Hl. revert j. induction Hl as [|a l Ha Hl IH]; intros j Hj; [by destruct j|].
  destruct j as [|j]; simpl in *.
  - by injection Hj as <-.
  - apply not_elem_of_cons. split; [|by apply IH].
    intros ->. apply Ha. by eapply list_elem_of_lookup_2.
Qed.

(** With distinct old children, a child that was matched (and synced) is no
    longer among the remaining ones. *)
Lemma reconciled_matched old versions res old' evs :
  reconciled old versions res old' evs →
  NoDup old →
  ∀ c v, Sync c v ∈ evs → Some c ∉ old'.
Proof.
  induction 1 as [|old v versions slot old1 evs1 res old2 evs2 Hentry Hrest IH];
    intros Hnd c v0 Hsync; [by apply elem_of_nil in Hsync|].
  assert (Hnd1 : NoDup old1).
  { destruct Hentry; try done. eapply sublist_NoDup; [done|apply sublist_delete]. }
  apply elem_of_app in Hsync as [Hsync|Hsync]; [|by eapply IH].
  intros Hc. apply (proj1 (reconciled_old _ _ _ _ _ Hrest)) in Hc.
  destruct Hentry as [Hz|j c1 Hnz Hj Hid Hfirst|c1 Hnz Hnone].
  - by apply elem_of_nil in Hsync.
  - apply list_elem_of_singleton in Hsync. injection Hsync as -> _.
    by apply (NoDup_delete_lookup old j (Some c1) Hnd Hj).
  - repeat (apply elem_of_cons in Hsync as [Hsync|Hsync]; [discriminate|]).
    by apply elem_of_nil in Hsync.
Qed.

Lemma released_no_sync (l : list ChildPtr) (c : nat) (v : Z) :
  Sync c v ∉ l ≫= released.
Proof.
  rewrite list_elem_of_bind. intros ([c'|] & Hc & _); simpl in Hc;
    [|by apply elem_of_nil in Hc].
  apply elem_of_app in Hc as [Hc|Hc].
  - destruct (isAttached c' && negb (isMaster c'));
      [apply list_elem_of_singleton in Hc; discriminate|by apply elem_of_nil in Hc].
  - apply list_elem_of_singleton in Hc. discriminate.
Qed.

(** The whole function against the contract: steps 2 and 3, or an assertion of
    the debug build. *)
Lemma deserializeChildren_contract (versions : list ObjectVersion)
    (old_ result : nat) (w : World) (old : list ChildPtr) :
  vectors w !! old_ = Some old →
  is_Some (vectors w !! result) →
  Forall is_Some old →
  match deserializeChildren NDEBUG VERSION_HEAD getID isAttached isMaster
          object_isMaster create mapObject versions old_ result w with
  | Ok w' =>
      ∃ res remaining evs,
        reconciled old versions res remaining evs ∧
        vectors w' = <[result := res]> (vectors w) ∧
        events w' = events w ++ evs ++ (rev remaining ≫= released)
  | AssertFail =>
      NDEBUG = false ∧
      ∃ (i : nat) v, versions !! i = Some v ∧ identifier v ≠ ZERO ∧
             (∀ c, Some c ∈ old → getID c = identifier v →
                   ∃ (k : nat) v', (k < i)%nat ∧ versions !! k = Some v' ∧
                                   identifier v' = identifier v) ∧
             (object_isMaster = true ∨ ∃ c, mapObject c v = false)
  | Crash => False
  end.
Proof.
  intros Hold [r0 Hres] Hnn. unfold deserializeChildren.
  rewrite Hold, Hres. simpl.
  pose proof (rebuild_spec result versions old (set_vector result [] w) []
                (lookup_insert_eq _ _ _) Hnn) as Hloop.
  destruct (rebuild result versions old (set_vector result [] w))
    as [[remaining w1]| |]; simpl; [|done..].
  destruct Hloop as (res & evs & Hrec & Hvec & Hev). simpl in Hvec, Hev.
  rewrite insert_insert_eq in Hvec.
  destruct (release_removed_spec (rev remaining) w1) as (Hvec' & _ & Hev').
  exists res, remaining, evs. split; [done|].
  split; [by rewrite Hvec', Hvec|]. by rewrite Hev', Hev, app_assoc.
Qed.

(** The contract of [deserializeChildren] on an old vector without null
    pointers, the result vector being any vector, the old one included.  The
    call never dereferences a null pointer.  When it returns, the result vector
    holds one slot per incoming entry, in the order of the incoming list, where:
    an entry with id ZERO gives a null slot; any other entry gives a child that
    either is an old child with that id, synced to HEAD when the owner is the
    master and to the version of the entry otherwise, or was created by the
    owner and mapped to the entry; an id that some old child has takes an old
    child at its first mention, and an id that no old child has creates one.
    Every old child whose id is not in the incoming list is released, and is
    unmapped exactly when it is attached and not a master; with distinct old
    children, a child that was matched is not released.  The old vector is left
    alone unless it is the result vector.  The call fails only by an assertion
    of a debug build: at an entry whose id no old child has (any more), when
    the owner is the master or [mapObject] returned false. *)
Theorem deserializeChildren_reconciles (versions : list ObjectVersion)
    (old_ result : nat) (w : World) (old : list ChildPtr) :
  vectors w !! old_ = Some old →
  is_Some (vectors w !! result) →
  Forall is_Some old →
  match deserializeChildren NDEBUG VERSION_HEAD getID isAttached isMaster
          object_isMaster create mapObject versions old_ result w with
  | Ok w' =>
      ∃ res evs,
        vectors w' = <[result := res]> (vectors w) ∧
        events w' = events w ++ evs ∧
        (result ≠ old_ → vectors w' !! old_ = Some old) ∧
        length res = length versions ∧
        (∀ (i : nat) v, versions !! i = Some v → identifier v = ZERO →
           res !! i = Some None) ∧
        (∀ (i : nat) v, versions !! i = Some v → identifier v ≠ ZERO →
           ∃ c, res !! i = Some (Some c) ∧
                ((Some c ∈ old ∧ getID c = identifier v ∧
                  Sync c (if object_isMaster then VERSION_HEAD else version v) ∈ evs) ∨
                 (Create c ∈ evs ∧ MapObject c v ∈ evs))) ∧
        (∀ (i : nat) v c0, versions !! i = Some v → identifier v ≠ ZERO →
           Some c0 ∈ old → getID c0 = identifier v →
           (∀ (k : nat) v', (k < i)%nat → versions !! k = Some v' →
                            identifier v' ≠ identifier v) →
           ∃ c, res !! i = Some (Some c) ∧ Some c ∈ old ∧ getID c = identifier v ∧
                Sync c (if object_isMaster then VERSION_HEAD else version v) ∈ evs) ∧
        (∀ (i : nat) v, versions !! i = Some v → identifier v ≠ ZERO →
           (∀ c, Some c ∈ old → getID c ≠ identifier v) →
           ∃ c, res !! i = Some (Some c) ∧ Create c ∈ evs ∧ MapObject c v ∈ evs) ∧
        (∀ c, Some c ∈ old → (∀ v, v ∈ versions → identifier v ≠ getID c) →
           ReleaseChild c ∈ evs ∧
           (UnmapObject c ∈ evs ↔ isAttached c = true ∧ isMaster c = false)) ∧
        (NoDup old → ∀ c v, Sync c v ∈ evs → ReleaseChild c ∉ evs)
  | AssertFail =>
      NDEBUG = false ∧
      ∃ (i : nat) v, versions !! i = Some v ∧ identifier v ≠ ZERO ∧
             (∀ c, Some c ∈ old → getID c = identifier v →
                   ∃ (k : nat) v', (k < i)%nat ∧ versions !! k = Some v' ∧
                                   identifier v' = identifier v) ∧
             (object_isMaster = true ∨ ∃ c, mapObject c v = false)
  | Crash => False
  end.
Proof.
  intros Hold Hres Hnn.
  pose proof (deserializeChildren_contract versions old_ result w old Hold Hres Hnn)
    as Hrun.
  destruct (deserializeChildren _ _ _ _ _ _ _ _ _ _ _ _) as [w'| |]; [|done..].
  destruct Hrun as (res & remaining & evs & Hrec & Hvec & Hev).
  destruct (reconciled_old _ _ _ _ _ Hrec) as [Hsub Hleft].
  exists res, (evs ++ (rev remaining ≫= released)).
  split; [done|].
  split; [done|].
  split; [intros Hne; by rewrite Hvec, lookup_insert_ne|].
  split; [by apply (reconciled_length _ _ _ _ _ Hrec)|].
  split; [intros i v Hi; by apply (reconciled_slot _ _ _ _ _ Hrec i v Hi)|].
  split.
  { intros i v Hi Hnz.
    destruct (proj2 (reconciled_slot _ _ _ _ _ Hrec i v Hi) Hnz)
      as (c & Hc & [(Hin & Hid & Hsync)|(_ & Hcr & Hmap)]);
      exists c; (split; [done|]); [left|right]; repeat split;
      try done; apply elem_of_app; by left. }
  split.
  { intros i v c0 Hi Hnz Hc0 Hid0 Hfirst.
    destruct (reconciled_first_mention _ _ _ _ _ Hrec i v c0 Hi Hnz Hc0 Hid0 Hfirst)
      as (c & Hc & Hin & Hid & Hsync).
    exists c. repeat split; try done. apply elem_of_app. by left. }
  split.
  { intros i v Hi Hnz Hnone.
    destruct (proj2 (reconciled_slot _ _ _ _ _ Hrec i v Hi) Hnz)
      as (c & Hc & [(Hin & Hid & _)|(_ & Hcr & Hmap)]);
      [by destruct (Hnone c Hin)|].
    exists c. repeat split; try done; apply elem_of_app; by left. }
  assert (Hrev : ∀ c, Some c ∈ rev remaining ↔ Some c ∈ remaining).
  { intros c. rewrite !list_elem_of_In. symmetry. apply in_rev. }
  split.
  { intros c Hc Hno.
    assert (Hrem : Some c ∈ rev remaining).
    { apply Hrev. destruct (Hleft c Hc) as [?|(v & Hv & Hid)]; [done|].
      by destruct (Hno v Hv). }
    destruct (released_calls (rev remaining) c) as [Hrel Hunmap]. split.
    - apply elem_of_app. right. by apply Hrel.
    - split.
      + intros [He|He]%elem_of_app; [|by apply Hunmap in He as (_ & ? & ?)].
        by destruct (proj1 (reconciled_events _ _ _ _ _ Hrec _ He) c).
      + intros [Ha Hm]. apply elem_of_app. right. by apply Hunmap. }
  intros Hnd c v [Hsync|Hsync]%elem_of_app [Hr|Hr]%elem_of_app.
  - by destruct (proj2 (reconciled_events _ _ _ _ _ Hrec _ Hr) c).
  - apply (reconciled_matched _ _ _ _ _ Hrec Hnd c v Hsync).
    apply Hrev. by apply (proj1 (released_calls (rev remaining) c)).
  - by apply released_no_sync in Hsync.
  - by apply released_no_sync in Hsync.
Qed.

(** [deserializeChildren] returns, on an old vector without null pointers,
    with NDEBUG; in a debug build when the owner is not the master and
    [mapObject] succeeds; and in a debug build, also for a master, when every
    id of the incoming list other than ZERO is the id of an old child and is
    mentioned once. *)
Lemma deserializeChildren_returns (versions : list ObjectVersion)
    (old_ result : nat) (w : World) (old : list ChildPtr) :
  vectors w !! old_ = Some old →
  is_Some (vectors w !! result) →
  Forall is_Some old →
  NDEBUG = true ∨
  (object_isMaster = false ∧ ∀ c v, mapObject c v = true) ∨
  (∀ (i : nat) v, versions !! i = Some v → identifier v ≠ ZERO →
     (∃ c, Some c ∈ old ∧ getID c = identifier v) ∧
     ∀ (k : nat) v', versions !! k = Some v' → identifier v' = identifier v → k = i) →
  ∃ w', deserializeChildren NDEBUG VERSION_HEAD getID isAttached isMaster
          object_isMaster create mapObject versions old_ result w = Ok w'.
Proof.
  intros Hold Hres Hnn Hpre.
  pose proof (deserializeChildren_contract versions old_ result w old Hold Hres Hnn)
    as H.
  destruct (deserializeChildren _ _ _ _ _ _ _ _ _ _ _ _) as [w'| |];
    [by exists w'| |done].
  destruct H as (HN & i & v & Hi & Hnz & Hused & Hwhy).
  destruct Hpre as [HN'|[[Hm Hmap]|Hknown]]; [congruence| |].
  - destruct Hwhy as [Hm'|[c Hc]]; [congruence|]. by rewrite Hmap in Hc.
  - destruct (Hknown i v Hi Hnz) as [(c & Hc & Hid) Honce].
    destruct (Hused c Hc Hid) as (k & v' & Hk & Hvk & Hidk).
    specialize (Honce k v' Hvk Hidk). lia.
Qed.
End ChildrenFacts.

Lemma deserializeChildren_reconciles_witness :
  let getID := λ c : nat, Z.of_nat (c / 10) in
  let versions := [ {| Children.identifier := 2; Children.version := 22 |};
                    {| Children.identifier := Children.ZERO; Children.version := 0 |};
                    {| Children.identifier := 4; Children.version := 44 |};
                    {| Children.identifier := 1; Children.version := 11 |} ] in
  let old := [Some 10%nat; Some 20%nat; Some 30%nat] in
  let w := {| Children.vectors := {[ 0%nat := old ]};
              Children.created := 0; Children.events := [] |} in
  ∃ w' res evs,
    Children.deserializeChildren false (-1) getID (λ _, true) (λ _, false) false
        (λ n, 100 + n)%nat (λ _ _, true) versions 0%nat 0%nat w = Ok w' ∧
    Children.vectors w' = <[0%nat := res]> (Children.vectors w) ∧
    Children.events w' = evs ∧
    length res = 4%nat ∧
    res !! 1%nat = Some None ∧
    Children.ReleaseChild 30 ∈ evs ∧
    Children.UnmapObject 30 ∈ evs.
Proof.
  intros getID versions old w.
  pose proof (deserializeChildren_reconciles false (-1) getID (λ _, true) (λ _, false)
                false (λ n, 100 + n)%nat (λ _ _, true) versions 0%nat 0%nat w old) as H.
  destruct (Children.deserializeChildren _ _ _ _ _ _ _ _ _ _ _ _) as [w'| |].
  - destruct H as (res & evs & Hvec & Hev & _ & Hlen & Hzero & _ & _ & _ & Hrel & _).
    + reflexivity.
    + eexists. reflexivity.
    + repeat constructor; eexists; reflexivity.
    + exists w', res, evs. split; [reflexivity|]. split; [exact Hvec|].
      split; [exact Hev|]. split; [exact Hlen|].
      split; [exact (Hzero 1%nat _ eq_refl eq_refl)|].
      destruct (Hrel 30%nat) as [Hr Hu].
      * right. right. left.
      * intros v Hv. repeat (apply elem_of_cons in Hv as [->|Hv]);
          [vm_compute; discriminate..|by apply elem_of_nil in Hv].
      * split; [exact Hr|]. apply Hu. split; reflexivity.
  - destruct H as (_ & i & v & _ & _ & _ & [Hm|[c Hc]]); try discriminate.
    + reflexivity.
    + eexists. reflexivity.
    + repeat constructor; eexists; reflexivity.
  - destruct H.
    + reflexivity.
    + eexists. reflexivity.
    + repeat constructor; eexists; reflexivity.
Defined.

(** C2 — the code at a concrete input, in a debug and in a release build.
    The first call is scenario 4 of the specification: the old children A, B, C
    (addresses 10, 20, 30, ids 1, 2, 3) and the incoming list
    [(2, 22); (ZERO, _); (4, 44); (1, 11)], on one vector that is both the old
    and the result vector.  It syncs B, creates and maps the child with id 4,
    syncs A, unmaps and releases C, and leaves [B; null; the new child; A] in
    that vector.  The second call is the next update of the same vector, with the
    incoming list [(1, 12)]: child A is in the old vector, so the entry matches
    an old child, but the search passes B and then calls [getID()] through the
    null slot the first call wrote.  The loop that releases the remaining old
    children tests for null pointers, the search does not. *)
Theorem deserializeChildren_null_slot_crash :
  let getID := λ c : nat, Z.of_nat (c / 10) in
  let first := [ {| Children.identifier := 2; Children.version := 22 |};
                 {| Children.identifier := Children.ZERO; Children.version := 0 |};
                 {| Children.identifier := 4; Children.version := 44 |};
                 {| Children.identifier := 1; Children.version := 11 |} ] in
  let second := [ {| Children.identifier := 1; Children.version := 12 |} ] in
  let w := {| Children.vectors := {[ 0%nat := [Some 10%nat; Some 20%nat; Some 30%nat] ]};
              Children.created := 0; Children.events := [] |} in
  let run := λ (NDEBUG : bool) versions w,
    Children.deserializeChildren NDEBUG (-1) getID (λ _, true) (λ _, false) false
      (λ n, 100 + n)%nat (λ _ _, true) versions 0%nat 0%nat w in
  ∀ NDEBUG : bool,
    ∃ w1, run NDEBUG first w = Ok w1 ∧
          Children.vectors w1 !! 0%nat =
            Some [Some 20%nat; None; Some 100%nat; Some 10%nat] ∧
          Children.events w1 =
            [Children.Sync 20 22; Children.Create 100;
             Children.MapObject 100 {| Children.identifier := 4;
                                       Children.version := 44 |};
             Children.Sync 10 11; Children.UnmapObject 30;
             Children.ReleaseChild 30] ∧
          run NDEBUG second w1 = Crash.
Proof.
  intros getID first second w run [];
    (eexists; split; [vm_compute; reflexivity|]; repeat split;
     vm_compute; reflexivity).
Qed.

(** * Further properties of the modelled code *)

(** ** ObjectDataIStream: references, order of consumption, sizes *)

Section ObjectDataIStreamMore.
Import ObjectDataIStream.
Variable VERSION_INVALID : Z.
Variable NDEBUG : bool.

Lemma queued_app (l1 l2 : list (option Command)) :
  omap id (l1 ++ l2) = omap id l1 ++ omap id l2.
Proof. apply omap_app. Qed.

Lemma release_all_balanced (commands : list (option Command)) (held : nat) :
  held = length (omap id commands) → release_all commands held = 0%nat.
Proof.
  revert held. induction commands as [|[c|] rest IH]; intros held ->; simpl.
  - done.
  - by apply IH.
  - by apply IH.
Qed.

Lemma apply_operation_balanced (op : Operation) (s s' : Stream) :
  held s = length (queued s) →
  apply_operation VERSION_INVALID NDEBUG op s = Ok s' →
  held s' = length (queued s').
Proof.
  intros Hs. destruct op as [c| |]; simpl.
  - intros H. apply addDataPacket_ok in H as (Hc & _ & Hh).
    unfold queued in *. rewrite Hh, Hc, queued_app, length_app, Hs. simpl. lia.
  - intros [= <-]. unfold getNextCommand, queued in *. revert Hs.
    destruct (_commands s) as [|[c|] rest] eqn:E; simpl; intros Hs;
      rewrite ?E, ?Hs; done.
  - intros [= <-]. unfold queued. simpl. by apply release_all_balanced.
Qed.

(** X1 — however a stream is used after its construction ([addDataPacket],
    [getNextCommand] and [reset] in any order, in any build), the references
    it holds are those of the commands in its deque: one [retain()] per queued
    command, not more and not fewer.  In particular nothing is held after a
    [reset()], which is what the destructor calls. *)
Theorem stream_references_balanced (ops : list Operation) (s : Stream) :
  apply_operations VERSION_INVALID NDEBUG ops
    (ObjectDataIStream_ctor VERSION_INVALID) = Ok s →
  held s = length (queued s) ∧
  held (reset VERSION_INVALID s) = 0%nat.
Proof.
  assert (Hgen : ∀ s0, held s0 = length (queued s0) →
            apply_operations VERSION_INVALID NDEBUG ops s0 = Ok s →
            held s = length (queued s)).
  { induction ops as [|op rest IH]; intros s0 Hs0; simpl.
    - by intros [= <-].
    - destruct (apply_operation VERSION_INVALID NDEBUG op s0) as [s1| |] eqn:Hop;
        simpl; try discriminate.
      apply IH. by eapply apply_operation_balanced. }
  intros Hrun.
  assert (Hs : held s = length (queued s)).
  { apply (Hgen (ObjectDataIStream_ctor VERSION_INVALID)); [reflexivity | exact Hrun]. }
  split; [done|]. simpl. by apply release_all_balanced.
Qed.
End ObjectDataIStreamMore.

Lemma stream_references_balanced_witness :
  let p0 := {| ObjectDataIStream.getPacket :=
                 {| ObjectDataIStream.sequence := 0; ObjectDataIStream.version := 5;
                    ObjectDataIStream.dataSize := 8; ObjectDataIStream.last := false |} |} in
  let p1 := {| ObjectDataIStream.getPacket :=
                 {| ObjectDataIStream.sequence := 1; ObjectDataIStream.version := 5;
                    ObjectDataIStream.dataSize := 16; ObjectDataIStream.last := true |} |} in
  let ops := [ObjectDataIStream.AddDataPacket p0; ObjectDataIStream.AddDataPacket p1;
              ObjectDataIStream.GetNextCommand; ObjectDataIStream.GetNextCommand] in
  ∃ s, ObjectDataIStream.apply_operations (-1) false ops
         (ObjectDataIStream.ObjectDataIStream_ctor (-1)) = Ok s ∧
       ObjectDataIStream.held s = 1%nat ∧
       ObjectDataIStream.held (ObjectDataIStream.reset (-1) s) = 0%nat.
Proof.
  intros p0 p1 ops. eexists. split; [vm_compute; reflexivity|].
  split; [reflexivity|].
  eapply (stream_references_balanced (-1) false ops). vm_compute. reflexivity.
Defined.

Section ObjectDataIStreamOrder.
Import ObjectDataIStream.
Variable VERSION_INVALID : Z.
Variable NDEBUG : bool.

(** What a run of accepted [addDataPacket] calls does to the deque and to
    the reference count, in any build. *)
Lemma addDataPackets_ok (cmds : list Command) (s s' : Stream) :
  addDataPackets NDEBUG cmds s = Ok s' →
  _commands s' = _commands s ++ (Some <$> cmds) ∧
  held s' = (held s + length cmds)%nat.
Proof.
  revert s. induction cmds as [|c rest IH]; intros s; simpl.
  - intros [= <-]. by rewrite app_nil_r, Nat.add_0_r.
  - destruct (addDataPacket NDEBUG c s) as [s1| |] eqn:Hadd; simpl; try discriminate.
    intros Hrest. apply addDataPacket_ok in Hadd as (Hc & _ & Hh).
    apply IH in Hrest as [-> ->]. rewrite Hc, Hh, <- app_assoc. split; [done|lia].
Qed.

(** Draining a deque: one call of [getNextCommand] per entry returns the
    entries behind the front one by one, then null, and leaves the deque
    empty. *)
Lemma getNextCommands_drain (front : option Command) (rest : list (option Command))
    (s : Stream) :
  _commands s = front :: rest →
  ∃ s', getNextCommands (S (length rest)) s = (rest ++ [None], s') ∧
        _commands s' = [] ∧
        held s' = release_all (front :: rest) (held s).
Proof.
  revert front s. induction rest as [|next rest IH]; intros front s Hs.
  - simpl. unfold getNextCommand. rewrite Hs. simpl.
    eexists. split; [reflexivity|]. split; [done|]. by destruct front.
  - change (getNextCommands (S (length (next :: rest))) s)
      with (let '(command, s0) := getNextCommand s in
            let '(commands, s1) := getNextCommands (S (length rest)) s0 in
            (command :: commands, s1)).
    unfold getNextCommand at 1. rewrite Hs.
    match goal with |- context [getNextCommands _ ?s0] =>
      destruct (IH next s0 eq_refl) as (s' & -> & Hs' & Hh) end.
    exists s'. split; [|split; [done|]].
    + by destruct next.
    + rewrite Hh. by destruct front.
Qed.

(** X2 — the null entry the constructor puts in front of the deque makes
    the stream a FIFO: when a list of packets was accepted by a freshly
    constructed stream (any build), as many [getNextCommand] calls as packets
    return these packets in arrival order, one more call returns null, and
    then the deque is empty and no reference is held. *)
Theorem stream_fifo (cmds : list Command) (s : Stream) :
  addDataPackets NDEBUG cmds (ObjectDataIStream_ctor VERSION_INVALID) = Ok s →
  ∃ s', getNextCommands (S (length cmds)) s = ((Some <$> cmds) ++ [None], s') ∧
        _commands s' = [] ∧ held s' = 0%nat.
Proof.
  intros Hadd. apply addDataPackets_ok in Hadd as [Hc Hh]. simpl in Hc, Hh.
  destruct (getNextCommands_drain None (Some <$> cmds) s Hc) as (s' & Hrun & Hs' & Hh').
  rewrite length_fmap in Hrun. exists s'. split; [done|]. split; [done|].
  rewrite Hh', Hh. simpl. apply release_all_balanced.
  clear. induction cmds as [|c rest IH]; [done|].
  rewrite fmap_cons. simpl. by rewrite IH.
Qed.

(** X3 — after [reset()] the deque has no null entry in front, and the first
    packet the stream then accepts is lost to the reader (any build): packets
    accepted after a [reset()] are handed out by [getNextCommand] from the
    second one on, the first is released without having been returned. *)
Theorem stream_after_reset_drops_first (c : Command) (cmds : list Command)
    (s0 s : Stream) :
  addDataPackets NDEBUG (c :: cmds) (reset VERSION_INVALID s0) = Ok s →
  ∃ s', getNextCommands (S (length cmds)) s = ((Some <$> cmds) ++ [None], s') ∧
        _commands s' = [].
Proof.
  intros Hadd. apply addDataPackets_ok in Hadd as [Hc _]. simpl in Hc.
  destruct (getNextCommands_drain (Some c) (Some <$> cmds) s Hc) as (s' & Hrun & Hs' & _).
  rewrite length_fmap in Hrun. by exists s'.
Qed.

(** X4 — [getPendingVersion] is the version of the packet accepted last, in
    any build: right after [addDataPacket], and still after a
    [getNextCommand] unless that call popped the packet itself (it was alone in
    the deque), in which case, as after [reset()], it is [VERSION_INVALID]. *)
Theorem pending_version_is_last_added (c : Command) (s s1 : Stream) :
  addDataPacket NDEBUG c s = Ok s1 →
  getPendingVersion VERSION_INVALID s1 = version (getPacket c) ∧
  getPendingVersion VERSION_INVALID (snd (getNextCommand s1)) =
    match _commands s with
    | [] => VERSION_INVALID
    | _ :: _ => version (getPacket c)
    end ∧
  getPendingVersion VERSION_INVALID (reset VERSION_INVALID s1) = VERSION_INVALID.
Proof.
  intros Hadd. apply addDataPacket_ok in Hadd as (Hc & _ & _).
  unfold getPendingVersion, getNextCommand. rewrite Hc.
  split; [by rewrite last_snoc|]. split; [|done].
  destruct (_commands s) as [|front rest]; [done|]. simpl. by rewrite last_snoc.
Qed.

(** X5 — [getDataSize] is the sum of the sizes of the queued packets modulo
    2^64: a run of accepted packets adds its total size to what the stream
    held before, in any build, and null entries count for nothing. *)
Theorem data_size_accumulates (cmds : list Command) (s s' : Stream) :
  addDataPackets NDEBUG cmds s = Ok s' →
  getDataSize s' = wrap64 (getDataSize s + total_dataSize cmds).
Proof.
  intros Hadd. apply addDataPackets_ok in Hadd as [Hc _].
  unfold getDataSize. rewrite Hc. unfold wrap64.
  rewrite Zplus_mod_idemp_l. f_equal.
  generalize (_commands s). clear. intros l. induction l as [|[q|] l IH]; simpl.
  - induction cmds as [|c rest IH]; [done|].
    rewrite fmap_cons. simpl in *. by rewrite IH.
  - rewrite IH. lia.
  - exact IH.
Qed.
End ObjectDataIStreamOrder.

Lemma stream_fifo_witness :
  let p0 := {| ObjectDataIStream.getPacket :=
                 {| ObjectDataIStream.sequence := 0; ObjectDataIStream.version := 5;
                    ObjectDataIStream.dataSize := 8; ObjectDataIStream.last := false |} |} in
  let p1 := {| ObjectDataIStream.getPacket :=
                 {| ObjectDataIStream.sequence := 1; ObjectDataIStream.version := 5;
                    ObjectDataIStream.dataSize := 16; ObjectDataIStream.last := true |} |} in
  ∃ s s',
    ObjectDataIStream.addDataPackets false [p0; p1]
      (ObjectDataIStream.ObjectDataIStream_ctor (-1)) = Ok s ∧
    ObjectDataIStream.getNextCommands 3 s = ([Some p0; Some p1; None], s') ∧
    ObjectDataIStream._commands s' = [] ∧ ObjectDataIStream.held s' = 0%nat.
Proof.
  intros p0 p1. eexists.
  destruct (stream_fifo (-1) false [p0; p1] _ eq_refl) as (s' & H).
  exists s'. split; [reflexivity | exact H].
Defined.

Lemma stream_after_reset_drops_first_witness :
  let p0 := {| ObjectDataIStream.getPacket :=
                 {| ObjectDataIStream.sequence := 0; ObjectDataIStream.version := 5;
                    ObjectDataIStream.dataSize := 8; ObjectDataIStream.last := false |} |} in
  let p0' := {| ObjectDataIStream.getPacket :=
                 {| ObjectDataIStream.sequence := 0; ObjectDataIStream.version := 5;
                    ObjectDataIStream.dataSize := 16; ObjectDataIStream.last := false |} |} in
  let p1 := {| ObjectDataIStream.getPacket :=
                 {| ObjectDataIStream.sequence := 1; ObjectDataIStream.version := 5;
                    ObjectDataIStream.dataSize := 16; ObjectDataIStream.last := true |} |} in
  ∃ s s',
    ObjectDataIStream.addDataPackets false [p0; p0'; p1]
      (ObjectDataIStream.reset (-1) (ObjectDataIStream.ObjectDataIStream_ctor (-1))) = Ok s ∧
    ObjectDataIStream.getNextCommands 3 s = ([Some p0'; Some p1; None], s') ∧
    ObjectDataIStream._commands s' = [].
Proof.
  intros p0 p0' p1. eexists.
  destruct (stream_after_reset_drops_first (-1) false p0 [p0'; p1]
              (ObjectDataIStream.ObjectDataIStream_ctor (-1)) _ eq_refl) as (s' & H).
  exists s'. split; [reflexivity | exact H].
Defined.

Lemma pending_version_is_last_added_witness :
  let p0 := {| ObjectDataIStream.getPacket :=
                 {| ObjectDataIStream.sequence := 0; ObjectDataIStream.version := 5;
                    ObjectDataIStream.dataSize := 8; ObjectDataIStream.last := false |} |} in
  ∃ s1,
    ObjectDataIStream.addDataPacket false p0
      (ObjectDataIStream.ObjectDataIStream_ctor (-1)) = Ok s1 ∧
    ObjectDataIStream.getPendingVersion (-1) s1 = 5 ∧
    ObjectDataIStream.getPendingVersion (-1)
      (snd (ObjectDataIStream.getNextCommand s1)) = 5.
Proof.
  intros p0. eexists. split; [reflexivity|].
  destruct (pending_version_is_last_added (-1) false p0
              (ObjectDataIStream.ObjectDataIStream_ctor (-1)) _ eq_refl) as (H1 & H2 & _).
  split; [exact H1 | exact H2].
Defined.

Lemma data_size_accumulates_witness :
  let p0 := {| ObjectDataIStream.getPacket :=
                 {| ObjectDataIStream.sequence := 0; ObjectDataIStream.version := 5;
                    ObjectDataIStream.dataSize := 2 ^ 64 - 8; ObjectDataIStream.last := false |} |} in
  let p1 := {| ObjectDataIStream.getPacket :=
                 {| ObjectDataIStream.sequence := 1; ObjectDataIStream.version := 5;
                    ObjectDataIStream.dataSize := 24; ObjectDataIStream.last := true |} |} in
  ∃ s,
    ObjectDataIStream.addDataPackets false [p0; p1]
      (ObjectDataIStream.ObjectDataIStream_ctor (-1)) = Ok s ∧
    ObjectDataIStream.getDataSize s = 16.
Proof.
  intros p0 p1. eexists. split; [reflexivity|].
  exact (data_size_accumulates false [p0; p1]
           (ObjectDataIStream.ObjectDataIStream_ctor (-1)) _ eq_refl).
Defined.

(** ** deserializeChildren: conservation of children, null entries *)

Section ChildrenMore.
Import Children.
Variable NDEBUG : bool.
Variable VERSION_HEAD : Z.
Variable getID : nat → UUID.
Variable isAttached : nat → bool.
Variable isMaster : nat → bool.
Variable object_isMaster : bool.
Variable create : nat → nat.
Variable mapObject : nat → ObjectVersion → bool.

Local Abbreviation reconciled := (reconciled VERSION_HEAD getID object_isMaster).
Local Abbreviation released := (released isAttached isMaster).
Local Abbreviation deserializeChildren :=
  (deserializeChildren NDEBUG VERSION_HEAD getID isAttached isMaster
     object_isMaster create mapObject).

Lemma reconciled_conserves old versions res old' evs :
  reconciled old versions res old' evs →
  omap id res = kept evs ∧
  old ≡ₚ (Some <$> synced evs) ++ old' ∧
  released_children evs = [].
Proof.
  unfold kept, synced, released_children.
  induction 1 as [|old v versions slot old1 evs1 res old2 evs2 Hentry Hrest
                    (IHres & IHold & IHrel)]; [done|].
  rewrite !omap_app, fmap_app, IHrel, <- IHres.
  destruct Hentry as [Hz|j c Hnz Hj Hid Hfirst|c Hnz Hnew].
  - done.
  - split; [done|]. split; [|done].
    rewrite <- app_assoc, <- IHold. by apply delete_Permutation.
  - done.
Qed.

Lemma released_conserves (l : list ChildPtr) :
  released_children (l ≫= released) = omap id l ∧
  synced (l ≫= released) = [] ∧
  kept (l ≫= released) = [].
Proof.
  unfold released_children, synced, kept.
  induction l as [|[c|] l (IH1 & IH2 & IH3)]; [done| |done].
  change ((Some c :: l) ≫= released) with (released (Some c) ++ (l ≫= released)).
  rewrite !omap_app, IH1, IH2, IH3. unfold Children.released.
  destruct (isAttached c && negb (isMaster c)); done.
Qed.

Lemma omap_id_rev {A} (l : list (option A)) : omap id (rev l) = rev (omap id l).
Proof.
  induction l as [|[a|] l IH]; simpl; [done| |].
  - rewrite omap_app, IH. done.
  - rewrite omap_app, IH. simpl. by rewrite app_nil_r.
Qed.

(** X6 — children are conserved.  When [deserializeChildren] returns (old
    vector without null pointers), the non-null entries of the rebuilt vector
    are exactly the children it synced or created, in that order, and the old
    children are, counted with multiplicity, the synced ones together with the
    ones handed to [object->release]: no old child is dropped without a
    release, none is released twice, and none is both kept and released. *)
Theorem deserializeChildren_conserves (versions : list ObjectVersion)
    (old_ result : nat) (w w' : World) (old : list ChildPtr) :
  vectors w !! old_ = Some old →
  is_Some (vectors w !! result) →
  Forall is_Some old →
  deserializeChildren versions old_ result w = Ok w' →
  ∃ res evs,
    vectors w' !! result = Some res ∧
    events w' = events w ++ evs ∧
    omap id res = kept evs ∧
    omap id old ≡ₚ synced evs ++ released_children evs.
Proof.
  intros Hold Hres Hnn Hrun.
  pose proof (deserializeChildren_contract NDEBUG VERSION_HEAD getID isAttached
                isMaster object_isMaster create mapObject versions old_ result w old
                Hold Hres Hnn) as H.
  rewrite Hrun in H. destruct H as (res & remaining & evs & Hrec & Hvec & Hev).
  apply reconciled_conserves in Hrec as (Hkept & Hperm & Hrel).
  destruct (released_conserves (rev remaining)) as (Hr1 & Hr2 & Hr3).
  exists res, (evs ++ (rev remaining ≫= released)).
  split; [by rewrite Hvec, lookup_insert_eq|]. split; [done|].
  unfold kept, synced, released_children in *.
  rewrite !omap_app, Hr1, Hr2, Hr3, Hrel, !app_nil_r. split; [done|].
  unfold ChildPtr in *.
  rewrite app_nil_l, omap_id_rev, <- Permutation_rev, Hperm, omap_app.
  apply Permutation_app; [|done].
  clear. induction (omap _ evs) as [|c l IH]; [done|].
  rewrite fmap_cons. simpl. by rewrite IH.
Qed.
End ChildrenMore.

Lemma deserializeChildren_conserves_witness :
  let getID := λ c : nat, Z.of_nat (c / 10) in
  let versions := [ {| Children.identifier := 2; Children.version := 22 |};
                    {| Children.identifier := Children.ZERO; Children.version := 0 |};
                    {| Children.identifier := 4; Children.version := 44 |};
                    {| Children.identifier := 1; Children.version := 11 |} ] in
  let old := [Some 10%nat; Some 20%nat; Some 30%nat] in
  let w := {| Children.vectors := {[ 0%nat := old ]};
              Children.created := 0; Children.events := [] |} in
  ∃ w' res evs,
    Children.deserializeChildren false (-1) getID (λ _, true) (λ _, false) false
        (λ n, 100 + n)%nat (λ _ _, true) versions 0%nat 0%nat w = Ok w' ∧
    Children.vectors w' !! 0%nat = Some res ∧
    Children.events w' = evs ∧
    omap id res = Children.kept evs ∧
    [10; 20; 30]%nat ≡ₚ Children.synced evs ++ Children.released_children evs.
Proof.
  intros getID versions old w.
  destruct (Children.deserializeChildren false (-1) getID (λ _, true) (λ _, false)
              false (λ n, 100 + n)%nat (λ _ _, true) versions 0%nat 0%nat w)
    as [w'| |] eqn:Hrun; [|vm_compute in Hrun; discriminate Hrun..].
  destruct (deserializeChildren_conserves false (-1) getID (λ _, true) (λ _, false)
              false (λ n, 100 + n)%nat (λ _ _, true) versions 0%nat 0%nat w w' old)
    as (res & evs & Hres & Hevs & Hkept & Hperm).
  - reflexivity.
  - by eexists.
  - repeat constructor; by eexists.
  - exact Hrun.
  - exists w', res, evs. split; [reflexivity|]. rewrite Hevs. by repeat split.
Defined.

Section ChildrenNull.
Import Children.
Variable NDEBUG : bool.
Variable VERSION_HEAD : Z.
Variable getID : nat → UUID.
Variable isAttached : nat → bool.
Variable isMaster : nat → bool.
Variable object_isMaster : bool.
Variable create : nat → nat.
Variable mapObject : nat → ObjectVersion → bool.

Local Abbreviation rebuild :=
  (rebuild NDEBUG VERSION_HEAD getID object_isMaster create mapObject).
Local Abbreviation released := (released isAttached isMaster).
Local Abbreviation deserializeChildren :=
  (deserializeChildren NDEBUG VERSION_HEAD getID isAttached isMaster
     object_isMaster create mapObject).

(** Incoming entries with the zero identifier only append null pointers. *)
Lemma rebuild_zero (result : nat) (versions : list ObjectVersion)
    (old r : list ChildPtr) (w : World) :
  Forall (λ v, identifier v = ZERO) versions →
  vectors w !! result = Some r →
  ∃ w', rebuild result versions old w = Ok (old, w') ∧
        vectors w' = <[result := r ++ replicate (length versions) None]> (vectors w) ∧
        events w' = events w ∧
        created w' = created w.
Proof.
  intros Hz. revert r w. induction Hz as [|v versions Hv Hz IH]; intros r w Hr.
  - exists w. simpl. rewrite app_nil_r, insert_id; done.
  - simpl. unfold rebuild_step. rewrite Hv. simpl.
    unfold push_back. rewrite Hr. simpl.
    destruct (IH (r ++ [None]) (set_vector result (r ++ [None]) w))
      as (w' & Hrun & Hvec & Hev & Hcr).
    { simpl. by rewrite lookup_insert_eq. }
    exists w'. split; [exact Hrun|]. split; [|done].
    rewrite Hvec. simpl. by rewrite insert_insert_eq, <- app_assoc.
Qed.

(** The search dereferences every candidate up to the first match: a null
    pointer that no match precedes is dereferenced. *)
Lemma find_if_null (old : list ChildPtr) (id : UUID) (i : nat) :
  old !! i = Some None →
  (∀ (k c : nat), (k < i)%nat → old !! k = Some (Some c) → getID c ≠ id) →
  find_if getID old id = Crash.
Proof.
  revert i. induction old as [|[c|] old IH]; intros i Hi Hbefore.
  - by rewrite lookup_nil in Hi.
  - destruct i as [|i]; [done|]. simpl.
    destruct (Z.eqb_spec (getID c) id) as [E|_].
    + by destruct (Hbefore 0%nat c ltac:(lia) eq_refl).
    + rewrite (IH i); [done|exact Hi|].
      intros k c' Hk. apply (Hbefore (S k) c'). lia.
  - done.
Qed.

(** X7 — clearing the children.  When every incoming identifier is the zero
    identifier (in particular when the incoming list is empty), the function
    returns in every build, also when the old vector has null pointers: the
    result is one null pointer per incoming entry, nothing is created or
    synced, and every non-null old child is released, from the back of the old
    vector to its front, after [unmapObject] if it is attached and not a
    master. *)
Theorem deserializeChildren_all_null (versions : list ObjectVersion)
    (old_ result : nat) (w : World) (old : list ChildPtr) :
  vectors w !! old_ = Some old →
  is_Some (vectors w !! result) →
  Forall (λ v, identifier v = ZERO) versions →
  ∃ w', deserializeChildren versions old_ result w = Ok w' ∧
        vectors w' = <[result := replicate (length versions) None]> (vectors w) ∧
        events w' = events w ++ (rev old ≫= released) ∧
        created w' = created w.
Proof.
  intros Hold [r Hr] Hz. unfold Children.deserializeChildren.
  rewrite Hold, Hr. simpl.
  destruct (rebuild_zero result versions old [] (set_vector result [] w) Hz)
    as (w1 & -> & Hvec & Hev & Hcr).
  { simpl. by rewrite lookup_insert_eq. }
  simpl. eexists. split; [reflexivity|].
  destruct (release_removed_spec isAttached isMaster (rev old) w1) as (-> & -> & ->).
  rewrite Hvec, Hev, Hcr. simpl. by rewrite insert_insert_eq.
Qed.

(** X8 — a null pointer in the old vector.  The loop that releases the
    removed children skips null pointers, but the search for a known child
    does not: when the first incoming entry with a non-zero identifier is
    looked up and the old vector has a null pointer that no child with this
    identifier precedes, [ObjectFinder] calls [getID()] through the null
    pointer, in every build. *)
Theorem deserializeChildren_null_child (zeros rest : list ObjectVersion)
    (v : ObjectVersion) (old_ result : nat) (w : World) (old : list ChildPtr)
    (i : nat) :
  vectors w !! old_ = Some old →
  is_Some (vectors w !! result) →
  Forall (λ z, identifier z = ZERO) zeros →
  identifier v ≠ ZERO →
  old !! i = Some None →
  (∀ (k c : nat), (k < i)%nat → old !! k = Some (Some c) → getID c ≠ identifier v) →
  deserializeChildren (zeros ++ v :: rest) old_ result w = Crash.
Proof.
  intros Hold [r Hr] Hz Hv Hi Hbefore. unfold Children.deserializeChildren.
  rewrite Hold, Hr. simpl.
  assert (Hgen : ∀ w0, is_Some (vectors w0 !! result) →
            rebuild result (zeros ++ v :: rest) old w0 = Crash).
  { induction Hz as [|z zeros Hzero Hz IH]; intros w0 [r0 Hr0]; simpl.
    - unfold rebuild_step. destruct (Z.eqb_spec (identifier v) ZERO) as [E|_]; [done|].
      by rewrite (find_if_null old (identifier v) i Hi Hbefore).
    - unfold rebuild_step. rewrite Hzero. simpl. unfold push_back. rewrite Hr0. simpl.
      apply IH. simpl. rewrite lookup_insert_eq. by eexists. }
  rewrite Hgen; [done|]. simpl. rewrite lookup_insert_eq. by eexists.
Qed.
End ChildrenNull.

Lemma deserializeChildren_all_null_witness :
  let getID := λ c : nat, Z.of_nat (c / 10) in
  let versions := [ {| Children.identifier := Children.ZERO; Children.version := 0 |};
                    {| Children.identifier := Children.ZERO; Children.version := 7 |} ] in
  let old := [Some 10%nat; None; Some 30%nat] in
  let w := {| Children.vectors := {[ 0%nat := old; 1%nat := [Some 40%nat] ]};
              Children.created := 0; Children.events := [] |} in
  ∃ w',
    Children.deserializeChildren false (-1) getID (λ c, Nat.eqb c 10) (λ _, false) true
        (λ n, 100 + n)%nat (λ _ _, true) versions 0%nat 1%nat w = Ok w' ∧
    Children.vectors w' !! 1%nat = Some [None; None] ∧
    Children.events w' =
      [Children.ReleaseChild 30; Children.UnmapObject 10; Children.ReleaseChild 10].
Proof.
  intros getID versions old w.
  destruct (deserializeChildren_all_null false (-1) getID (λ c, Nat.eqb c 10)
              (λ _, false) true (λ n, 100 + n)%nat (λ _ _, true) versions
              0%nat 1%nat w old) as (w' & Hrun & Hvec & Hev & _).
  - reflexivity.
  - by eexists.
  - repeat constructor.
  - exists w'. split; [exact Hrun|]. split; [by rewrite Hvec|exact Hev].
Defined.

Lemma deserializeChildren_null_child_witness :
  let getID := λ c : nat, Z.of_nat (c / 10) in
  let zero := {| Children.identifier := Children.ZERO; Children.version := 0 |} in
  let v := {| Children.identifier := 3; Children.version := 33 |} in
  let old := [Some 10%nat; None; Some 30%nat] in
  let w := {| Children.vectors := {[ 0%nat := old ]};
              Children.created := 0; Children.events := [] |} in
  Children.deserializeChildren true (-1) getID (λ _, true) (λ _, false) false
      (λ n, 100 + n)%nat (λ _ _, true) [zero; v] 0%nat 0%nat w = Crash.
Proof.
  intros getID zero v old w.
  apply (deserializeChildren_null_child true (-1) getID (λ _, true) (λ _, false) false
           (λ n, 100 + n)%nat (λ _ _, true) [zero] [] v 0%nat 0%nat w old 1%nat).
  - reflexivity.
  - by eexists.
  - repeat constructor.
  - discriminate.
  - reflexivity.
  - intros k c Hk Hc. assert (k = 0%nat) as -> by lia.
    injection Hc as <-. discriminate.
Defined.

(** ** The send-token arbitrator over runs of commands *)

Section SendTokenRuns.
Import SendToken.
Variable LB_TIMEOUT_INDEFINITE : Z.

Local Abbreviation handle := (handle LB_TIMEOUT_INDEFINITE).
Local Abbreviation handle_all := (handle_all LB_TIMEOUT_INDEFINITE).

Lemma handle_all_cons (c : TokenCommand) (cs : list TokenCommand) (impl : Impl) :
  handle_all (c :: cs) impl =
    (fst (handle_all cs (snd (fst (handle c impl)))),
     snd (handle c impl) ++ snd (handle_all cs (snd (fst (handle c impl))))).
Proof.
  simpl. destruct (SendToken.handle _ c impl) as [[handled impl1] sent]. simpl.
  by destruct (SendToken.handle_all _ cs impl1).
Qed.

(** One command keeps the queue covered by references: what is queued or was
    released has been retained. *)
Lemma handle_retains (c : TokenCommand) (impl : Impl) (before : list Event) :
  released before ++ sendTokenQueue impl ⊆+ retained before →
  released (before ++ snd (handle c impl))
    ++ sendTokenQueue (snd (fst (handle c impl)))
  ⊆+ retained (before ++ snd (handle c impl)).
Proof.
  unfold released, retained. intros Hinv. rewrite !omap_app.
  destruct c as [now timeout command|now]; simpl.
  - rewrite _cmdAcquireSendToken_as_written.
    destruct (sendToken impl); [destruct (_ || _)|]; simpl;
      rewrite ?app_nil_r; try done.
    + rewrite app_assoc. by apply submseteq_app.
    + etrans; [|exact Hinv]. apply submseteq_inserts_r. done.
  - unfold _cmdReleaseSendToken.
    destruct (sendToken impl); simpl; rewrite ?app_nil_r; [done|].
    destruct (sendTokenQueue impl) as [|request rest]; simpl;
      rewrite ?app_nil_r in *; [done|].
    etrans; [|exact Hinv]. by rewrite <- app_assoc.
Qed.

(** X9 — whatever token commands arrive after construction, and at whatever
    times, the arbitrator releases only commands it has retained, each at most
    once per retain, and every command waiting in the queue is still covered
    by a reference: the released commands together with the queued ones are
    (as a multiset) among the retained ones. *)
Theorem send_token_references (cs : list TokenCommand) :
  let '(impl, sent) := handle_all cs Impl_ctor in
  released sent ++ sendTokenQueue impl ⊆+ retained sent.
Proof.
  assert (Hgen : ∀ impl before,
            released before ++ sendTokenQueue impl ⊆+ retained before →
            released (before ++ snd (handle_all cs impl))
              ++ sendTokenQueue (fst (handle_all cs impl))
            ⊆+ retained (before ++ snd (handle_all cs impl))).
  { induction cs as [|c cs IH]; intros impl before Hinv.
    - simpl. by rewrite app_nil_r.
    - rewrite handle_all_cons. simpl. rewrite app_assoc.
      apply IH. by apply handle_retains. }
  specialize (Hgen Impl_ctor [] (reflexivity _)).
  by destruct (SendToken.handle_all _ cs Impl_ctor).
Qed.

(** X10 — releases serve the queue in arrival order.  With the token out,
    [k] RELEASE commands in a row (at any times) grant the token to the first
    [k] waiting requests, oldest first, each request being answered and then
    released; the rest of the queue is kept, and the token becomes available
    again exactly when there were more releases than waiting requests. *)
Theorem releases_serve_queue_in_order (times : list Z) (impl : Impl) :
  sendToken impl = false →
  let k := length times in
  let '(impl', sent) := handle_all (ReleaseSendToken <$> times) impl in
  sent = take k (sendTokenQueue impl) ≫= grant ∧
  sendTokenQueue impl' = drop k (sendTokenQueue impl) ∧
  sendToken impl' = bool_decide (length (sendTokenQueue impl) < k)%nat.
Proof.
  assert (Hset : ∀ times impl, sendToken impl = true →
            snd (handle_all (ReleaseSendToken <$> times) impl) = [] ∧
            sendTokenQueue (fst (handle_all (ReleaseSendToken <$> times) impl))
              = sendTokenQueue impl ∧
            sendToken (fst (handle_all (ReleaseSendToken <$> times) impl)) = true).
  { clear. induction times as [|now times IH]; intros impl Hbit; [done|].
    rewrite fmap_cons, handle_all_cons. simpl.
    unfold _cmdReleaseSendToken. rewrite Hbit. simpl.
    exact (IH {| sendToken := true; lastSendToken := wrap64 now;
                 sendTokenQueue := sendTokenQueue impl |} eq_refl). }
  intros Hbit. simpl.
  enough (H : snd (handle_all (ReleaseSendToken <$> times) impl)
                = take (length times) (sendTokenQueue impl) ≫= grant ∧
              sendTokenQueue (fst (handle_all (ReleaseSendToken <$> times) impl))
                = drop (length times) (sendTokenQueue impl) ∧
              sendToken (fst (handle_all (ReleaseSendToken <$> times) impl))
                = bool_decide (length (sendTokenQueue impl) < length times)%nat)
    by (by destruct (SendToken.handle_all _ _ impl)).
  revert impl Hbit. induction times as [|now times IH]; intros impl Hbit.
  - simpl. rewrite Hbit. done.
  - rewrite fmap_cons, handle_all_cons. simpl.
    unfold _cmdReleaseSendToken. rewrite Hbit.
    destruct (sendTokenQueue impl) as [|request rest] eqn:Hq; simpl.
    + destruct (Hset times {| sendToken := true; lastSendToken := wrap64 now;
                              sendTokenQueue := [] |} eq_refl) as (-> & -> & ->).
      done.
    + destruct (IH {| sendToken := false; lastSendToken := wrap64 now;
                      sendTokenQueue := rest |} eq_refl) as (-> & -> & ->).
      simpl. split; [done|]. split; [done|].
      apply bool_decide_ext. lia.
Qed.
End SendTokenRuns.

Lemma releases_serve_queue_in_order_witness :
  let a := {| SendToken.getNode := 1%nat; SendToken.requestID := 10 |} in
  let b := {| SendToken.getNode := 2%nat; SendToken.requestID := 20 |} in
  let c := {| SendToken.getNode := 3%nat; SendToken.requestID := 30 |} in
  let impl := {| SendToken.sendToken := false; SendToken.lastSendToken := 3;
                 SendToken.sendTokenQueue := [a; b; c] |} in
  let '(impl', sent) :=
    SendToken.handle_all 4294967295
      [SendToken.ReleaseSendToken 5; SendToken.ReleaseSendToken 9] impl in
  sent = [SendToken.SendAcquireReply 1 10; SendToken.Release a;
          SendToken.SendAcquireReply 2 20; SendToken.Release b] ∧
  SendToken.sendTokenQueue impl' = [c] ∧
  SendToken.sendToken impl' = false.
Proof.
  pose (a := {| SendToken.getNode := 1%nat; SendToken.requestID := 10 |}).
  pose (b := {| SendToken.getNode := 2%nat; SendToken.requestID := 20 |}).
  pose (c := {| SendToken.getNode := 3%nat; SendToken.requestID := 30 |}).
  pose (impl := {| SendToken.sendToken := false; SendToken.lastSendToken := 3;
                   SendToken.sendTokenQueue := [a; b; c] |}).
  exact (releases_serve_queue_in_order 4294967295 [5; 9] impl eq_refl).
Defined.

(** ** Dispatch of commands and the pending list *)

Section DispatchFacts.
Import Redispatch.
Variable NDEBUG : bool.
Variable Command : Type.
Variable World : Type.
Variable dispatchCommand : Command → World → bool * World.

Local Abbreviation pass := (pass Command World dispatchCommand).
Local Abbreviation redispatch_loop := (redispatch_loop Command World dispatchCommand).
Local Abbreviation _redispatchCommands :=
  (_redispatchCommands NDEBUG Command World dispatchCommand).
Local Abbreviation _dispatchCommand :=
  (_dispatchCommand NDEBUG Command World dispatchCommand).

Lemma pass_sublist (visited rest : list Command) (w : World) :
  snd (fst (fst (pass visited rest w))) `sublist_of` visited ++ rest.
Proof.
  revert visited w. induction rest as [|c rest IH]; intros visited w; simpl.
  - by rewrite app_nil_r.
  - destruct (dispatchCommand c w) as [[] w1]; simpl.
    + apply sublist_app; [done|]. by apply sublist_cons.
    + specialize (IH (visited ++ [c]) w1). by rewrite <- app_assoc in IH.
Qed.

Lemma redispatch_loop_sublist (pending released : list Command) (w : World) :
  fst (fst (redispatch_loop pending released w)) `sublist_of` pending.
Proof.
  funelim (redispatch_loop pending released w).
  - done.
  - clear Heqcall. pose proof (pass_sublist [] (c :: cs) w) as Hpass.
    rewrite Hp in Hpass. simpl in Hpass. by etrans.
  - clear Heqcall. pose proof (pass_sublist [] (c :: cs) w) as Hpass.
    rewrite Hp in Hpass. simpl in Hpass. by etrans.
  - clear Heqcall. pose proof (pass_sublist [] (c :: cs) w) as Hpass.
    by rewrite Hp in Hpass.
Qed.

(** X11 — the pending list keeps its order: whatever the handlers do, the
    commands that [_redispatchCommands] leaves pending are in the same
    relative order as before, in every build. *)
Theorem redispatchCommands_keeps_order (pending pending' released : list Command)
    (w w' : World) :
  _redispatchCommands pending w = Ok (pending', released, w') →
  pending' `sublist_of` pending.
Proof.
  unfold Redispatch._redispatchCommands.
  pose proof (redispatch_loop_sublist pending [] w) as Hsub.
  destruct (redispatch_loop pending [] w) as [[p r] w1]. simpl in Hsub.
  unfold EQASSERT. destruct NDEBUG; [|destruct (_ <? _)%nat]; by intros [= <- <- <-].
Qed.

End DispatchFacts.

Lemma redispatchCommands_keeps_order_witness :
  let dispatchCommand := λ (c : nat) (mapped : list nat),
    if (c <? 10)%nat then (true, (c + 10)%nat :: mapped)
    else (bool_decide (c ∈ mapped), mapped) in
  Redispatch._redispatchCommands false nat (list nat) dispatchCommand
    [12; 15; 5; 17]%nat [] = Ok ([12; 17]%nat, [5; 15]%nat, [15]%nat) ∧
  [12; 17]%nat `sublist_of` [12; 15; 5; 17]%nat.
Proof.
  intros dispatchCommand. split; [vm_compute; reflexivity|].
  apply (redispatchCommands_keeps_order false nat (list nat) dispatchCommand
           [12; 15; 5; 17]%nat [12; 17]%nat [5; 15]%nat [] [15]%nat).
  vm_compute. reflexivity.
Defined.


(** ** What close() leaves behind *)

Section CloseMore.
Import LocalNode.
Variable NDEBUG : bool.
Variable acceptSync : nat → nat.

Lemma get_node_set_node_ne (p q : nat) (n : Node) (ln : LocalNode) :
  q ≠ p → get_node (set_node p n ln) q = get_node ln q.
Proof.
  intros Hne. unfold get_node, set_node.
  destruct (decide (p = this ln)) as [E|E]; simpl.
  - by rewrite !decide_False by congruence.
  - destruct (decide (q = this ln)); [done|]. by apply lookup_insert_ne.
Qed.

Lemma get_node_set_maps (cn : gmap nat nat) (ns : gmap NodeID nat) (ln : LocalNode)
    (q : nat) :
  get_node (set_maps cn ns ln) q = get_node ln q.
Proof. done. Qed.

Lemma get_node_log (e : Event) (ln : LocalNode) (q : nat) :
  get_node (log e ln) q = get_node ln q.
Proof. done. Qed.

Lemma get_node_removeConnection (c : nat) (ln : LocalNode) (q : nat) :
  get_node (_removeConnection c ln) q = get_node ln q.
Proof. done. Qed.

Lemma closed_node_twice (n : Node) : closed_node (closed_node n) = closed_node n.
Proof. done. Qed.

Lemma close_node_post (connection : nat) (ln ln' : LocalNode) :
  close_node connection ln = Ok ln' →
  this ln' = this ln ∧ incoming ln' = incoming ln ∧ closed ln' = closed ln ∧
  pendingCommands ln' = pendingCommands ln ∧
  connectionNodes ln' = delete connection (connectionNodes ln) ∧
  closed_or_kept ln ln' ∧
  (∀ p n, connectionNodes ln !! connection = Some p → get_node ln p = Some n →
          get_node ln' p = Some (closed_node n)).
Proof.
  unfold close_node. destruct (connectionNodes ln !! connection) as [p|] eqn:Hc.
  - destruct (get_node ln p) as [n|] eqn:Hp; simpl; [|discriminate].
    intros [= <-]. simpl.
    destruct (set_node_frame p (with_outgoing None (with_state STATE_CLOSED n)) ln)
      as (-> & -> & _ & -> & -> & _ & _).
    assert (Hpend : pendingCommands (set_node p (with_outgoing None
                      (with_state STATE_CLOSED n)) ln) = pendingCommands ln).
    { unfold set_node. by destruct (decide _). }
    repeat split; try done.
    + intros q m Hq. rewrite !get_node_set_maps.
      destruct (decide (q = p)) as [->|Hne].
      * right. rewrite get_node_set_node. unfold closed_node. congruence.
      * left. by rewrite get_node_set_node_ne.
    + intros q m [= <-] Hm. rewrite get_node_set_maps, get_node_set_node.
      unfold closed_node. congruence.
  - intros [= <-]. repeat split; try done.
    + by rewrite delete_id.
    + intros p n Hp. by left.
Qed.

Lemma elem_of_removeConnection (c connection : nat) (set : list nat) :
  c ∈ set → c = connection ∨ c ∈ removeConnection connection set.
Proof.
  induction set as [|x set IH]; [by rewrite elem_of_nil|].
  simpl. rewrite elem_of_cons. destruct (decide (x = connection)) as [->|Hne].
  - intros [->|Hin]; [by left|by right].
  - intros [->|Hin]; [right; by left|].
    destruct (IH Hin) as [->|H]; [by left|right; by right].
Qed.

Lemma cleanup_loop_post (ln ln' : LocalNode) :
  cleanup_loop ln = Ok ln' →
  incoming ln' = [] ∧ this ln' = this ln ∧
  pendingCommands ln' = pendingCommands ln ∧
  (∀ c, c ∈ closed ln ∨ c ∈ incoming ln → c ∈ closed ln') ∧
  closed_or_kept ln ln' ∧
  (∀ c p n, c ∈ incoming ln → connectionNodes ln !! c = Some p →
            get_node ln p = Some n → get_node ln' p = Some (closed_node n)).
Proof.
  funelim (cleanup_loop ln); try congruence.
  - intros [= <-]. clear Heqcall. rename e into Hback. clear H.
    assert (Hnil : incoming ln = []).
    { destruct (incoming ln) as [|c l] using rev_ind; [done|].
      by rewrite last_snoc in Hback. }
    rewrite Hnil. repeat split; try done.
    + intros c [Hc|Hc]; [done|by apply elem_of_nil in Hc].
    + intros p n Hp. by left.
    + intros c p n Hc. by apply elem_of_nil in Hc.
  - intros Hrun. clear Heqcall. specialize (H _ Hrun).
    destruct H as (Hin & Hthis & Hpend & Hclosed & Hkept & Hdone).
    pose proof (close_node_post _ _ _ Hnode) as Hpost. clear H0.
    destruct Hpost
      as (Hthis1 & Hin1 & Hclosed1 & Hpend1 & Hcn1 & Hkept1 & Hdone1).
    simpl in *.
    assert (Hget : ∀ q, get_node (_removeConnection connection ln') q = get_node ln' q)
      by done.
    split; [done|]. split; [congruence|]. split; [congruence|].
    split; [|split].
    + intros c [Hc|Hc]; apply Hclosed.
      * left. apply elem_of_union_l. by rewrite Hclosed1.
      * rewrite Hin1. destruct (elem_of_removeConnection c connection _ Hc) as [->|Hc'].
        -- left. apply elem_of_union_r. by apply elem_of_singleton.
        -- by right.
    + intros p n Hp. destruct (Hkept1 p n Hp) as [Hp1|Hp1].
      * rewrite <- Hget in Hp1. exact (Hkept p n Hp1).
      * rewrite <- Hget in Hp1. destruct (Hkept p _ Hp1) as [H2|H2]; right; [done|].
        by rewrite closed_node_twice in H2.
    + intros c p n Hc Hcp Hp.
      destruct (decide (c = connection)) as [->|Hne].
      * pose proof (Hdone1 p n Hcp Hp) as Hp1. rewrite <- Hget in Hp1.
        destruct (Hkept p _ Hp1) as [H2|H2]; [done|by rewrite closed_node_twice in H2].
      * assert (Hc' : c ∈ removeConnection connection (incoming ln')).
        { rewrite Hin1. destruct (elem_of_removeConnection c connection _ Hc); done. }
        assert (Hcp' : connectionNodes ln' !! c = Some p).
        { rewrite Hcn1. by rewrite lookup_delete_ne. }
        destruct (Hkept1 p n Hp) as [Hp1|Hp1]; rewrite <- Hget in Hp1.
        -- exact (Hdone c p n Hc' Hcp' Hp1).
        -- rewrite <- (closed_node_twice n). exact (Hdone c p _ Hc' Hcp' Hp1).
Qed.
Lemma set_node_this (n : Node) (ln : LocalNode) :
  set_node (this ln) n ln =
    {| this := this ln; self := n; objects := objects ln; allocated := allocated ln;
       connectionNodes := connectionNodes ln; nodes := nodes ln;
       incoming := incoming ln; closed := closed ln; requests := requests ln;
       pendingCommands := pendingCommands ln; events := events ln |}.
Proof. unfold set_node. by rewrite decide_True. Qed.

Lemma get_node_this (ln : LocalNode) : get_node ln (this ln) = Some (self ln).
Proof. unfold get_node. by rewrite decide_True. Qed.

Lemma _cmdStopRcv_post (ln ln1 : LocalNode) :
  _cmdStopRcv NDEBUG ln = Ok ln1 →
  ln1 = {| this := this ln; self := with_state STATE_CLOSING (self ln);
           objects := objects ln; allocated := allocated ln;
           connectionNodes := connectionNodes ln; nodes := nodes ln;
           incoming := incoming ln; closed := closed ln; requests := requests ln;
           pendingCommands := pendingCommands ln; events := events ln |}.
Proof.
  unfold _cmdStopRcv, EQASSERT. rewrite set_node_this.
  by repeat case_match; intros [= <-].
Qed.

Lemma _cmdStopCmd_post (ln ln1 : LocalNode) :
  _cmdStopCmd NDEBUG ln = Ok ln1 →
  ln1 = {| this := this ln; self := with_state STATE_CLOSED (self ln);
           objects := objects ln; allocated := allocated ln;
           connectionNodes := connectionNodes ln; nodes := nodes ln;
           incoming := incoming ln; closed := closed ln; requests := requests ln;
           pendingCommands := pendingCommands ln; events := events ln |}.
Proof.
  unfold _cmdStopCmd, EQASSERT. rewrite set_node_this.
  by repeat case_match; intros [= <-].
Qed.

(** What the join in [close] changes: the state of the local node and the
    pending commands, and only when the receiver thread was joined. *)
Lemma join_post (joined : bool) (ln ln1 : LocalNode) :
  join NDEBUG joined ln = Ok ln1 →
  this ln1 = this ln ∧ incoming ln1 = incoming ln ∧
  connectionNodes ln1 = connectionNodes ln ∧ closed ln1 = closed ln ∧
  objects ln1 = objects ln ∧
  _outgoing (self ln1) = _outgoing (self ln) ∧
  (joined = true → _state (self ln1) = STATE_CLOSED ∧ pendingCommands ln1 = 0%nat).
Proof.
  unfold join. destruct joined; [|by intros [= <-]].
  destruct (_cmdStopRcv NDEBUG _) as [la| |] eqn:Hrcv; simpl; try discriminate.
  destruct (_cmdStopCmd NDEBUG la) as [lb| |] eqn:Hcmd; simpl; try discriminate.
  apply _cmdStopRcv_post in Hrcv. apply _cmdStopCmd_post in Hcmd. subst la lb.
  by intros [= <-].
Qed.

(** X13 — what [close()] leaves behind when it returns true: the connection
    set is empty, both maps are empty, the local node has no outgoing
    connection, and [close()] was called on every connection that was in the
    set.  A node other than the local one that was reached through one of these
    connections is CLOSED and has no outgoing connection.  When the receiver
    thread was joined, the local node is CLOSED and no command is pending. *)
Theorem close_leaves_nothing (joined : bool) (ln ln' : LocalNode) :
  close NDEBUG acceptSync joined ln = Ok (true, ln') →
  incoming ln' = [] ∧
  connectionNodes ln' = ∅ ∧
  nodes ln' = ∅ ∧
  _outgoing (self ln') = None ∧
  (joined = true → _state (self ln') = STATE_CLOSED ∧ pendingCommands ln' = 0%nat) ∧
  (∀ c, c ∈ incoming ln → c ∈ closed ln') ∧
  (∀ pipe c p n,
     _outgoing (self ln) = Some pipe → c ∈ incoming ln → c ≠ acceptSync pipe →
     connectionNodes ln !! c = Some p → p ≠ this ln → get_node ln p = Some n →
     get_node ln' p = Some (closed_node n)).
Proof.
  unfold close. case_bool_decide as Hstate; [discriminate|].
  destruct (join NDEBUG joined _) as [ln1| |] eqn:Hjoin; simpl; try discriminate.
  apply join_post in Hjoin
    as (Hthis1 & Hin1 & Hcn1 & Hclosed1 & Hobj1 & Hout1 & Hjoined).
  simpl in Hthis1, Hin1, Hcn1, Hclosed1, Hobj1, Hout1.
  intros Hrun.
  assert (Hclean : ∃ ln2, _cleanup NDEBUG acceptSync ln1 = Ok ln2 ∧ ln2 = ln').
  { revert Hrun. unfold EQCHECK, EQASSERT.
    destruct (_cleanup NDEBUG acceptSync ln1) as [ln2| |]; simpl;
      repeat (case_match; simpl; try discriminate); intros [= <-]; by eexists. }
  clear Hrun. destruct Hclean as (ln2 & Hclean & <-).
  assert (Hbody : ∃ pipe lb,
            _outgoing (self ln1) = Some pipe ∧
            cleanup_loop
              (set_node (this ln1) (with_outgoing None (self ln1))
                 (set_maps (delete (acceptSync pipe) (connectionNodes ln1)) (nodes ln1)
                    (_removeConnection (acceptSync pipe) ln1))) = Ok lb ∧
            ln2 = set_maps ∅ ∅ lb).
  { revert Hclean. unfold _cleanup, EQASSERT.
    destruct (_outgoing (self ln1)) as [pipe|]; simpl;
      [|by repeat (case_match; simpl; try discriminate)].
    intros Hclean. exists pipe.
    destruct (cleanup_loop _) as [lb| |] eqn:Hloop; simpl in Hclean;
      [exists lb|exfalso..];
      revert Hclean; repeat (case_match; simpl; try discriminate);
      by intros [= <-]. }
  destruct Hbody as (pipe & lb & Hpipe & Hloop & ->).
  change (set_node (this ln1) (with_outgoing None (self ln1))
            (set_maps (delete (acceptSync pipe) (connectionNodes ln1)) (nodes ln1)
               (_removeConnection (acceptSync pipe) ln1)))
    with (set_node (this (set_maps (delete (acceptSync pipe) (connectionNodes ln1))
                            (nodes ln1) (_removeConnection (acceptSync pipe) ln1)))
            (with_outgoing None (self ln1))
            (set_maps (delete (acceptSync pipe) (connectionNodes ln1)) (nodes ln1)
               (_removeConnection (acceptSync pipe) ln1))) in Hloop.
  rewrite set_node_this in Hloop. simpl in Hloop.
  apply cleanup_loop_post in Hloop
    as (Hin & Hthis & Hpend & Hclosed & Hkept & Hdone).
  simpl in Hin, Hthis, Hpend, Hclosed.
  assert (Hself : self lb = with_outgoing None (self ln1) ∨
                  self lb = closed_node (with_outgoing None (self ln1))).
  { pose proof (get_node_this lb) as Hlb. rewrite Hthis in Hlb.
    destruct (Hkept (this ln1) (with_outgoing None (self ln1))) as [H|H].
    - unfold get_node. simpl. by rewrite decide_True.
    - left. congruence.
    - right. congruence. }
  split; [done|]. split; [done|]. split; [done|]. simpl.
  split; [by destruct Hself as [-> | ->]|].
  split; [|split].
  - intros Hj. destruct (Hjoined Hj) as [Hst Hp0]. split; [|congruence].
    by destruct Hself as [-> | ->].
  - intros c Hc. apply Hclosed. rewrite Hin1.
    destruct (elem_of_removeConnection c (acceptSync pipe) _ Hc) as [->|Hc'].
    + left. apply elem_of_union_r. by apply elem_of_singleton.
    + by right.
  - intros pipe' c p n Hpipe' Hc Hne Hcp Hp Hn.
    assert (pipe' = pipe) as -> by congruence.
    apply (Hdone c p n).
    + simpl. rewrite Hin1.
      by destruct (elem_of_removeConnection c (acceptSync pipe) _ Hc).
    + simpl. rewrite lookup_delete_ne, Hcn1; done.
    + unfold get_node in *. simpl. rewrite Hthis1, Hobj1.
      by rewrite decide_False in * by done.
Qed.
End CloseMore.

Lemma close_leaves_nothing_witness :
  let peer := {| LocalNode._id := 7; LocalNode._state := LocalNode.STATE_CONNECTED;
                 LocalNode._outgoing := Some 2%nat; LocalNode._type := 1 |} in
  let ln :=
    {| LocalNode.this := 0%nat;
       LocalNode.self := {| LocalNode._id := 1;
                            LocalNode._state := LocalNode.STATE_LISTENING;
                            LocalNode._outgoing := Some 10%nat;
                            LocalNode._type := 1 |};
       LocalNode.objects := {[ 1%nat := peer ]};
       LocalNode.allocated := 2%nat;
       LocalNode.connectionNodes := {[ 11%nat := 0%nat; 2%nat := 1%nat ]};
       LocalNode.nodes := {[ 1 := 0%nat; 7 := 1%nat ]};
       LocalNode.incoming := [11%nat; 2%nat];
       LocalNode.closed := ∅;
       LocalNode.requests := ∅;
       LocalNode.pendingCommands := 3%nat;
       LocalNode.events := [] |} in
  ∃ ln', LocalNode.close false S true ln = Ok (true, ln') ∧
         LocalNode.incoming ln' = [] ∧
         LocalNode.nodes ln' = ∅ ∧
         LocalNode._state (LocalNode.self ln') = LocalNode.STATE_CLOSED ∧
         LocalNode.get_node ln' 1%nat = Some (LocalNode.closed_node peer).
Proof.
  intros peer ln.
  destruct (LocalNode.close false S true ln) as [[[] ln']| |] eqn:Hrun;
    try (vm_compute in Hrun; discriminate Hrun).
  destruct (close_leaves_nothing false S true ln ln' Hrun)
    as (Hin & _ & Hnodes & _ & Hjoined & _ & Hpeer).
  exists ln'. split; [reflexivity|]. split; [exact Hin|]. split; [exact Hnodes|].
  split; [exact (proj1 (Hjoined eq_refl))|].
  apply (Hpeer 10%nat 2%nat 1%nat peer); try reflexivity; try discriminate.
  apply elem_of_cons. right. apply elem_of_cons. by left.
Defined.

(** ** The handshake handlers on the paths the accepting side and a collision
       take, and the disconnect handler *)

Section HandshakeMore.
Import LocalNode.
Variable NDEBUG : bool.
Variable LB_UNDEFINED_UINT32 : Z.
Variable NODETYPE_CO_INVALID : Z.
Variable isConnected : Node → bool.
Variable deserialize : list Z → Node → bool * Node * list Z.
Variable serialize : Node → list Z.
Variable createNode : Z → Node.

Local Abbreviation _cmdConnect :=
  (_cmdConnect NDEBUG NODETYPE_CO_INVALID isConnected deserialize serialize createNode).
Local Abbreviation _cmdConnectReply :=
  (_cmdConnectReply NDEBUG LB_UNDEFINED_UINT32 isConnected deserialize createNode).

(** The node a successful handshake leaves: CONNECTED over [connection]. *)
Local Abbreviation connected_on connection n :=
  (with_state STATE_CONNECTED (with_outgoing (Some connection) n)).

Lemma assert_true {A} (k : Outcome A) (P : Prop) `{!Decision P} :
  P → EQASSERT NDEBUG (bool_decide P) k = k.
Proof. intros HP. rewrite bool_decide_eq_true_2 by done. unfold EQASSERT. by destruct NDEBUG. Qed.

Lemma add_connected_node_ok (packet : ConnectFields) (connection p : nat)
    (ln : LocalNode) (n n1 : Node) (ok : bool) :
  get_node ln p = Some n →
  deserialize (nodeData packet) n = (ok, n1, []) →
  _id n1 = nodeID packet →
  add_connected_node NDEBUG deserialize packet connection p ln =
    Ok (set_maps (<[connection := p]> (connectionNodes ln))
                 (<[nodeID packet := p]> (nodes ln))
                 (set_node p (connected_on connection n1) ln)).
Proof.
  intros Hp Hdes Hid. unfold add_connected_node. rewrite Hp. simpl. rewrite Hdes.
  rewrite !assert_true by done. simpl.
  destruct (set_node_frame p (connected_on connection n1) ln) as (_ & -> & -> & _).
  by rewrite Hid.
Qed.

Lemma cmdConnect_accept_helper (packet : ConnectFields) (connection : nat)
    (ln : LocalNode) (n1 : Node) (ok : bool) :
  nodeID packet ≠ _id (self ln) →
  connectionNodes ln !! connection = None →
  nodes ln !! nodeID packet = None →
  allocated ln ≠ this ln →
  deserialize (nodeData packet) (createNode (nodeType packet)) = (ok, n1, []) →
  _id n1 = nodeID packet →
  ∃ ln',
    _cmdConnect packet None connection ln = Ok (true, ln') ∧
    get_node ln' (allocated ln) = Some (connected_on connection n1) ∧
    connectionNodes ln' = <[connection := allocated ln]> (connectionNodes ln) ∧
    nodes ln' = <[nodeID packet := allocated ln]> (nodes ln) ∧
    allocated ln' = S (allocated ln) ∧
    incoming ln' = incoming ln ∧
    closed ln' = closed ln ∧
    self ln' = self ln ∧
    events ln' = events ln ++
      [ConnectionSend connection
         (NodeConnectReplyPacket {| requestID := requestID packet;
                                    nodeID := _id (self ln);
                                    nodeType := _type (self ln);
                                    nodeData := serialize (self ln) |})].
Proof.
  intros Hid Hfree Hnew Halloc Hdes Hid1. unfold LocalNode._cmdConnect.
  rewrite !assert_true by done. rewrite Hnew. simpl.
  match goal with |- context [add_connected_node _ _ _ _ _ ?l] => set (ln0 := l) end.
  assert (Hp : get_node ln0 (allocated ln) = Some (createNode (nodeType packet))).
  { unfold get_node. simpl. rewrite decide_False by done. apply lookup_insert_eq. }
  eexists. split.
  { rewrite (add_connected_node_ok packet connection (allocated ln) ln0 _ n1 ok
               Hp Hdes Hid1). simpl. reflexivity. }
  simpl. unfold set_node. simpl. rewrite decide_False by done. simpl.
  unfold get_node. simpl. rewrite decide_False by done.
  split; [apply lookup_insert_eq|done].
Qed.

(** X14 — a CONNECT from a peer whose id is not in the NodeID map, handled
    under the assertions of [_cmdConnect]: a new node is created, and when the
    data of the packet deserializes completely to the id the packet names, the
    node is CONNECTED over the new connection, both maps lead to it, the
    connection stays in the connection set, and one reply is sent on the
    connection which answers the request of the CONNECT and carries the id, the
    type and the serialized data of the local node. *)
Theorem cmdConnect_accepts_unknown_peer (packet : ConnectFields) (connection : nat)
    (ln : LocalNode) (n1 : Node) (ok : bool) :
  nodeID packet ≠ _id (self ln) →
  connectionNodes ln !! connection = None →
  nodes ln !! nodeID packet = None →
  allocated ln ≠ this ln →
  deserialize (nodeData packet) (createNode (nodeType packet)) = (ok, n1, []) →
  _id n1 = nodeID packet →
  ∃ ln',
    _cmdConnect packet None connection ln = Ok (true, ln') ∧
    get_node ln' (allocated ln) = Some (connected_on connection n1) ∧
    connectionNodes ln' = <[connection := allocated ln]> (connectionNodes ln) ∧
    nodes ln' = <[nodeID packet := allocated ln]> (nodes ln) ∧
    allocated ln' = S (allocated ln) ∧
    incoming ln' = incoming ln ∧
    closed ln' = closed ln ∧
    self ln' = self ln ∧
    events ln' = events ln ++
      [ConnectionSend connection
         (NodeConnectReplyPacket {| requestID := requestID packet;
                                    nodeID := _id (self ln);
                                    nodeType := _type (self ln);
                                    nodeData := serialize (self ln) |})].
Proof. apply cmdConnect_accept_helper. Qed.
Lemma elem_of_removeConnection_ne (c connection : nat) (set : list nat) :
  c ≠ connection → c ∈ set → c ∈ removeConnection connection set.
Proof.
  intros Hne. induction set as [|x set IH]; [done|].
  simpl. rewrite elem_of_cons. destruct (decide (x = connection)) as [->|Hx].
  - by intros [->|Hin].
  - rewrite elem_of_cons. intros [->|Hin]; [by left|right; by apply IH].
Qed.

(** X15 — a CONNECT_REPLY that names a node the local node is already
    connected to (simultaneous connect), under the assertions of the handler:
    the new connection leaves the connection set and is closed, the node is
    CLOSED and loses its outgoing connection, the entries of the node and of
    its previous connection are erased from the maps, and the request is
    served with false.  The previous connection itself is neither taken out of
    the connection set nor closed. *)
Theorem cmdConnectReply_simultaneous (packet : ConnectFields)
    (connection actual p : nat) (ln : LocalNode) (n : Node) :
  connectionNodes ln !! connection = None →
  nodeID packet ≠ ZERO →
  nodes ln !! nodeID packet = Some p →
  get_node ln p = Some n →
  isConnected n = true →
  _outgoing n = Some actual →
  is_Some (connectionNodes ln !! actual) →
  ∃ ln',
    _cmdConnectReply packet None connection ln = Ok (true, ln') ∧
    get_node ln' p = Some (closed_node n) ∧
    incoming ln' = removeConnection connection (incoming ln) ∧
    closed ln' = closed ln ∪ {[connection]} ∧
    connectionNodes ln' = delete actual (connectionNodes ln) ∧
    nodes ln' = delete (nodeID packet) (nodes ln) ∧
    events ln' = events ln ++ [ServeRequest (requestID packet) false] ∧
    (actual ∈ incoming ln → actual ∈ incoming ln') ∧
    (actual ∉ closed ln → actual ∉ closed ln').
Proof.
  intros Hfree Hid Hnode Hp Hconn Hout Hactual. unfold LocalNode._cmdConnectReply.
  rewrite !assert_true by done.
  rewrite (bool_decide_eq_false_2 (nodeID packet = ZERO)) by done.
  rewrite Hnode. simpl. rewrite Hp. simpl. rewrite Hconn. simpl.
  assert (Hget : get_node (_removeConnection connection ln) p = Some n) by exact Hp.
  rewrite Hout. simpl.
  destruct (set_node_frame p (with_outgoing None (with_state STATE_CLOSED n))
              (_removeConnection connection ln))
    as (Hthis & Hcn & Hns & Hin & Hcl & _ & Hev).
  rewrite Hcn, Hns. simpl. rewrite assert_true by done.
  assert (Hne : actual ≠ connection).
  { intros ->. rewrite Hfree in Hactual. by destruct Hactual. }
  eexists. split; [reflexivity|]. simpl.
  rewrite Hin, Hcl, Hev. simpl.
  split; [by rewrite get_node_log, get_node_set_maps, get_node_set_node|].
  repeat split; try done.
  - by apply elem_of_removeConnection_ne.
  - intros Hcl0 [H|H%elem_of_singleton]%elem_of_union; done.
Qed.

Lemma cmdConnectReply_accept (packet : ConnectFields) (connection p : nat)
    (ln : LocalNode) (n n1 : Node) (ok : bool) :
  connectionNodes ln !! connection = None →
  nodeID packet ≠ ZERO →
  requestID packet ≠ LB_UNDEFINED_UINT32 →
  requests ln !! requestID packet = Some p →
  nodes ln !! nodeID packet = None ∨
    (nodes ln !! nodeID packet = Some p ∧ isConnected n = false) →
  get_node ln p = Some n →
  _type n = nodeType packet →
  _state n = STATE_CLOSED →
  deserialize (nodeData packet) n = (ok, n1, []) →
  _id n1 = nodeID packet →
  _cmdConnectReply packet None connection ln =
    Ok (true,
        log (NodeSend p NodeConnectAckPacket)
          (log (ServeRequest (requestID packet) true)
             (set_maps (<[connection := p]> (connectionNodes ln))
                       (<[nodeID packet := p]> (nodes ln))
                       (set_node p (connected_on connection n1) ln)))).
Proof.
  intros Hfree Hid Hreq Hdata Hmap Hp Htype Hstate Hdes Hid1.
  unfold LocalNode._cmdConnectReply.
  rewrite !assert_true by done.
  rewrite (bool_decide_eq_false_2 (nodeID packet = ZERO)) by done.
  destruct Hmap as [Hnew|[Hold Hconn]].
  - rewrite Hnew. simpl.
    rewrite (bool_decide_eq_true_2 (requestID packet ≠ _)) by done.
    rewrite Hdata. simpl. rewrite ?EQASSERT_true. simpl. rewrite Hp. simpl.
    rewrite !assert_true by done.
    by rewrite (add_connected_node_ok packet connection p ln n n1 ok Hp Hdes Hid1).
  - rewrite Hold. cbn beta iota zeta. rewrite Hp. simpl. rewrite Hconn. simpl.
    rewrite ?Hp. simpl.
    rewrite !assert_true by done.
    by rewrite (add_connected_node_ok packet connection p ln n n1 ok Hp Hdes Hid1).
Qed.

Lemma cmdDisconnect_helper (request : Z) (p : nat) (n : Node) (ln : LocalNode) :
  requests ln !! request = Some p →
  get_node ln p = Some n →
  (∀ connection,
     _outgoing n = Some connection →
     is_Some (connectionNodes ln !! connection) →
     ∃ ln',
       _cmdDisconnect NDEBUG request ln =
         Ok (true, ln', [RemoveInstanceData (_id n); ServeRequestVoid request]) ∧
       get_node ln' p = Some (closed_node n) ∧
       incoming ln' = removeConnection connection (incoming ln) ∧
       closed ln' = closed ln ∪ {[connection]} ∧
       connectionNodes ln' = delete connection (connectionNodes ln) ∧
       nodes ln' = delete (_id n) (nodes ln) ∧
       events ln' = events ln) ∧
  (_outgoing n = None →
   _cmdDisconnect NDEBUG request ln =
     if NDEBUG || bool_decide (_state n = STATE_CLOSED)
     then Ok (true, ln, [ServeRequestVoid request]) else AssertFail).
Proof.
  intros Hreq Hp. split.
  - intros connection Hout Hcn. unfold _cmdDisconnect.
    rewrite Hreq. rewrite assert_true by by eexists. simpl.
    rewrite Hp. simpl. rewrite Hout.
    destruct (set_node_frame p (with_outgoing None (with_state STATE_CLOSED n)) ln)
      as (Hthis & Hcn' & Hns & Hin & Hcl & _ & Hev).
    simpl. rewrite Hcn', Hns. rewrite assert_true by done. simpl.
    rewrite get_node_set_maps.
    change (get_node (_removeConnection connection
              (set_node p (with_outgoing None (with_state STATE_CLOSED n)) ln)) p)
      with (get_node (set_node p (with_outgoing None (with_state STATE_CLOSED n)) ln) p).
    rewrite get_node_set_node. simpl. rewrite ?assert_true, ?EQASSERT_true by done.
    eexists. split; [reflexivity|]. simpl.
    rewrite Hin, Hcl, Hev.
    split; [|done].
    by rewrite get_node_set_maps, get_node_removeConnection, get_node_set_node.
  - intros Hout. unfold _cmdDisconnect.
    rewrite Hreq. rewrite assert_true by by eexists. simpl.
    rewrite Hp. simpl. rewrite Hout. simpl. rewrite Hp. simpl.
    unfold EQASSERT. by destruct NDEBUG, (bool_decide _).
Qed.

(** X16 — [_cmdDisconnect] for a request that was registered with a node.
    A node with an outgoing connection that is in the connection map: the node
    is CLOSED and loses the connection, the connection leaves the connection
    set and is closed, both map entries are erased, the instance data of the
    node is dropped and the request is served.  A node without outgoing
    connection: nothing changes and the request is served; in a debug build
    this needs the node to be CLOSED, else the handler runs into its
    assertion. *)
Theorem cmdDisconnect_outcomes (request : Z) (p : nat) (n : Node) (ln : LocalNode) :
  requests ln !! request = Some p →
  get_node ln p = Some n →
  (∀ connection,
     _outgoing n = Some connection →
     is_Some (connectionNodes ln !! connection) →
     ∃ ln',
       _cmdDisconnect NDEBUG request ln =
         Ok (true, ln', [RemoveInstanceData (_id n); ServeRequestVoid request]) ∧
       get_node ln' p = Some (closed_node n) ∧
       incoming ln' = removeConnection connection (incoming ln) ∧
       closed ln' = closed ln ∪ {[connection]} ∧
       connectionNodes ln' = delete connection (connectionNodes ln) ∧
       nodes ln' = delete (_id n) (nodes ln) ∧
       events ln' = events ln) ∧
  (_outgoing n = None →
   _cmdDisconnect NDEBUG request ln =
     if NDEBUG || bool_decide (_state n = STATE_CLOSED)
     then Ok (true, ln, [ServeRequestVoid request]) else AssertFail).
Proof. apply cmdDisconnect_helper. Qed.

(** X17 — connect, then disconnect.  A CONNECT_REPLY for node [p] that
    the handler accepts (the connection has no node yet, the reply names an id
    other than ZERO and a request registered with [p], the NodeID map does not
    hold that id or holds it for [p] while [p] is not connected, [p] has the
    type the reply names and is CLOSED, and the data of the reply deserializes
    completely to the id the reply names), followed by a DISCONNECT for a
    request registered with [p]: both handlers return true, the connection map
    is as it was before the reply, and the NodeID map is the one before the
    reply without an entry for the id of the reply, so it is as before exactly
    when it did not hold that id.  The node is CLOSED without outgoing
    connection, the connection has left the connection set and is closed. *)
Theorem connect_reply_then_disconnect (packet : ConnectFields) (connection p : nat)
    (ln : LocalNode) (n n1 : Node) (ok : bool) (request : Z) :
  connectionNodes ln !! connection = None →
  nodeID packet ≠ ZERO →
  requestID packet ≠ LB_UNDEFINED_UINT32 →
  requests ln !! requestID packet = Some p →
  nodes ln !! nodeID packet = None ∨
    (nodes ln !! nodeID packet = Some p ∧ isConnected n = false) →
  get_node ln p = Some n →
  _type n = nodeType packet →
  _state n = STATE_CLOSED →
  deserialize (nodeData packet) n = (ok, n1, []) →
  _id n1 = nodeID packet →
  requests ln !! request = Some p →
  ∃ ln1 ln2,
    _cmdConnectReply packet None connection ln = Ok (true, ln1) ∧
    _cmdDisconnect NDEBUG request ln1 =
      Ok (true, ln2, [RemoveInstanceData (nodeID packet); ServeRequestVoid request]) ∧
    connectionNodes ln2 = connectionNodes ln ∧
    nodes ln2 = delete (nodeID packet) (nodes ln) ∧
    (nodes ln2 = nodes ln ↔ nodes ln !! nodeID packet = None) ∧
    get_node ln2 p = Some (closed_node n1) ∧
    incoming ln2 = removeConnection connection (incoming ln) ∧
    closed ln2 = closed ln ∪ {[connection]}.
Proof.
  intros Hfree Hid Hreq Hdata Hmap Hp Htype Hstate Hdes Hid1 Hreq2.
  pose (ln1 := log (NodeSend p NodeConnectAckPacket)
                 (log (ServeRequest (requestID packet) true)
                    (set_maps (<[connection := p]> (connectionNodes ln))
                              (<[nodeID packet := p]> (nodes ln))
                              (set_node p (connected_on connection n1) ln)))).
  assert (Hrun1 : _cmdConnectReply packet None connection ln = Ok (true, ln1))
    by by apply (cmdConnectReply_accept packet connection p ln n n1 ok).
  destruct (set_node_frame p (connected_on connection n1) ln)
    as (Hthis & Hcn & Hns & Hin & Hcl & Hrq & Hev).
  assert (Hp1 : get_node ln1 p = Some (connected_on connection n1)).
  { unfold ln1. by rewrite !get_node_log, get_node_set_maps, get_node_set_node. }
  assert (Hrq1 : requests ln1 !! request = Some p) by (simpl; by rewrite Hrq).
  destruct (proj1 (cmdDisconnect_helper request p _ ln1 Hrq1 Hp1) connection eq_refl)
    as (ln2 & Hrun & Hget & Hin2 & Hcl2 & Hcn2 & Hns2 & _).
  { simpl. rewrite lookup_insert_eq. by eexists. }
  assert (Hnodes : nodes ln2 = delete (nodeID packet) (nodes ln)).
  { rewrite Hns2. simpl. by rewrite Hid1, delete_insert_eq. }
  exists ln1, ln2. simpl in Hrun. rewrite Hid1 in Hrun.
  split; [exact Hrun1|]. split; [exact Hrun|].
  split; [by rewrite Hcn2; simpl; rewrite delete_insert_id|].
  split; [exact Hnodes|].
  split.
  { rewrite Hnodes. split.
    - intros Heq. rewrite <- Heq. apply lookup_delete_eq.
    - apply delete_id. }
  split; [exact Hget|].
  split; [by rewrite Hin2; simpl; rewrite Hin|by rewrite Hcl2; simpl; rewrite Hcl].
Qed.

(** X18 — the two handlers of a handshake, one on each side, when the
    connecting side is not connected to the accepting one yet.  The accepting
    node handles, under the assertions of [_cmdConnect], the CONNECT of a peer
    whose id its NodeID map does not hold; the connecting node handles the
    reply this produces, under the assertions of [_cmdConnectReply]: its
    connection has no node yet, the request of the CONNECT is registered with a
    node of the acceptor's type that is CLOSED, and its NodeID map does not
    hold the acceptor's id, or holds it for that node while the node is not
    connected.  When the node data of each side deserializes on the other side
    completely and to the id of its sender, both handlers return true, and
    afterwards each side has the other one in its NodeID map under the other's
    id, CONNECTED over its end of the connection, which its connection map
    assigns to that node; the connecting side serves its connect request with
    true and sends a CONNECT_ACK.  (A connecting side that holds the acceptor
    as a connected node takes the other branch of the reply handler.) *)
Theorem handshake_connects_both_sides (connect : ConnectFields)
    (connA connB p : nat) (lnA lnB : LocalNode) (a1 n b1 : Node) (okA okB : bool) :
  nodeID connect ≠ _id (self lnA) →
  connectionNodes lnA !! connA = None →
  nodes lnA !! nodeID connect = None →
  allocated lnA ≠ this lnA →
  deserialize (nodeData connect) (createNode (nodeType connect)) = (okA, a1, []) →
  _id a1 = nodeID connect →
  _id (self lnA) ≠ ZERO →
  requestID connect ≠ LB_UNDEFINED_UINT32 →
  requests lnB !! requestID connect = Some p →
  connectionNodes lnB !! connB = None →
  nodes lnB !! _id (self lnA) = None ∨
    (nodes lnB !! _id (self lnA) = Some p ∧ isConnected n = false) →
  get_node lnB p = Some n →
  _type n = _type (self lnA) →
  _state n = STATE_CLOSED →
  deserialize (serialize (self lnA)) n = (okB, b1, []) →
  _id b1 = _id (self lnA) →
  ∃ lnA' reply lnB',
    _cmdConnect connect None connA lnA = Ok (true, lnA') ∧
    events lnA' = events lnA ++ [ConnectionSend connA (NodeConnectReplyPacket reply)] ∧
    _cmdConnectReply reply None connB lnB = Ok (true, lnB') ∧
    nodes lnA' !! nodeID connect = Some (allocated lnA) ∧
    connectionNodes lnA' !! connA = Some (allocated lnA) ∧
    get_node lnA' (allocated lnA) = Some (connected_on connA a1) ∧
    nodes lnB' !! _id (self lnA) = Some p ∧
    connectionNodes lnB' !! connB = Some p ∧
    get_node lnB' p = Some (connected_on connB b1) ∧
    events lnB' = events lnB ++ [ServeRequest (requestID connect) true;
                                 NodeSend p NodeConnectAckPacket].
Proof.
  intros HidA HfreeA HnewA Halloc HdesA Hid1A HnzA Hreq Hdata HfreeB HmapB Hp
         Htype Hstate HdesB Hid1B.
  destruct (cmdConnect_accept_helper connect connA lnA a1 okA
              HidA HfreeA HnewA Halloc HdesA Hid1A)
    as (lnA' & HrunA & HgetA & HcnA & HnsA & _ & _ & _ & _ & HevA).
  set (reply := {| requestID := requestID connect; nodeID := _id (self lnA);
                   nodeType := _type (self lnA);
                   nodeData := serialize (self lnA) |}) in *.
  pose proof (cmdConnectReply_accept reply connB p lnB n b1 okB
                HfreeB HnzA Hreq Hdata HmapB Hp Htype Hstate HdesB Hid1B) as HrunB.
  destruct (set_node_frame p (connected_on connB b1) lnB)
    as (_ & HcnB & HnsB & _ & _ & _ & HevB).
  eexists lnA', reply, _.
  split; [exact HrunA|]. split; [exact HevA|]. split; [exact HrunB|].
  split; [by rewrite HnsA, lookup_insert_eq|].
  split; [by rewrite HcnA, lookup_insert_eq|].
  split; [exact HgetA|]. simpl.
  split; [by rewrite lookup_insert_eq|].
  split; [by rewrite lookup_insert_eq|].
  split; [by rewrite !get_node_log, get_node_set_maps, get_node_set_node|].
  by rewrite HevB, <- app_assoc.
Qed.
End HandshakeMore.

Lemma cmdConnect_accepts_unknown_peer_witness :
  let isConnected := λ n : LocalNode.Node,
    bool_decide (LocalNode._state n = LocalNode.STATE_CONNECTED
                 ∨ LocalNode._state n = LocalNode.STATE_LISTENING) in
  let deserialize := λ (data : list Z) (n : LocalNode.Node),
    (true,
     {| LocalNode._id := default 0 (head data);
        LocalNode._state := LocalNode._state n;
        LocalNode._outgoing := LocalNode._outgoing n;
        LocalNode._type := LocalNode._type n |},
     tail data) in
  let serialize := λ n : LocalNode.Node, [LocalNode._id n] in
  let createNode := λ type : Z,
    {| LocalNode._id := 0; LocalNode._state := LocalNode.STATE_CLOSED;
       LocalNode._outgoing := None; LocalNode._type := type |} in
  let ln :=
    {| LocalNode.this := 0%nat;
       LocalNode.self := {| LocalNode._id := 1;
                            LocalNode._state := LocalNode.STATE_LISTENING;
                            LocalNode._outgoing := Some 0%nat;
                            LocalNode._type := 1 |};
       LocalNode.objects := ∅;
       LocalNode.allocated := 1%nat;
       LocalNode.connectionNodes := ∅;
       LocalNode.nodes := ∅;
       LocalNode.incoming := [2%nat];
       LocalNode.closed := ∅;
       LocalNode.requests := ∅;
       LocalNode.pendingCommands := 0%nat;
       LocalNode.events := [] |} in
  let packet := {| LocalNode.requestID := 3; LocalNode.nodeID := 7;
                   LocalNode.nodeType := 1; LocalNode.nodeData := [7] |} in
  ∃ ln',
    LocalNode._cmdConnect false (-1) isConnected deserialize serialize createNode
                          packet None 2%nat ln = Ok (true, ln') ∧
    LocalNode.nodes ln' = {[ 7 := 1%nat ]} ∧
    LocalNode.events ln' =
      [LocalNode.ConnectionSend 2
         (LocalNode.NodeConnectReplyPacket
            {| LocalNode.requestID := 3; LocalNode.nodeID := 1;
               LocalNode.nodeType := 1; LocalNode.nodeData := [1] |})].
Proof.
  intros isConnected deserialize serialize createNode ln packet.
  destruct (cmdConnect_accepts_unknown_peer false (-1) isConnected deserialize
              serialize createNode packet 2%nat ln
              {| LocalNode._id := 7; LocalNode._state := LocalNode.STATE_CLOSED;
                 LocalNode._outgoing := None; LocalNode._type := 1 |} true)
    as (ln' & Hrun & _ & _ & Hnodes & _ & _ & _ & _ & Hev);
    [discriminate|reflexivity|reflexivity|discriminate|reflexivity|reflexivity|].
  exists ln'. split; [exact Hrun|]. split; [exact Hnodes|exact Hev].
Defined.

Lemma cmdConnectReply_simultaneous_witness :
  let isConnected := λ n : LocalNode.Node,
    bool_decide (LocalNode._state n = LocalNode.STATE_CONNECTED
                 ∨ LocalNode._state n = LocalNode.STATE_LISTENING) in
  let deserialize := λ (data : list Z) (n : LocalNode.Node), (true, n, data) in
  let createNode := λ type : Z,
    {| LocalNode._id := 0; LocalNode._state := LocalNode.STATE_CLOSED;
       LocalNode._outgoing := None; LocalNode._type := type |} in
  let peer := {| LocalNode._id := 7; LocalNode._state := LocalNode.STATE_CONNECTED;
                 LocalNode._outgoing := Some 5%nat; LocalNode._type := 1 |} in
  let ln :=
    {| LocalNode.this := 0%nat;
       LocalNode.self := {| LocalNode._id := 1;
                            LocalNode._state := LocalNode.STATE_LISTENING;
                            LocalNode._outgoing := Some 0%nat;
                            LocalNode._type := 1 |};
       LocalNode.objects := {[ 1%nat := peer ]};
       LocalNode.allocated := 2%nat;
       LocalNode.connectionNodes := {[ 5%nat := 1%nat ]};
       LocalNode.nodes := {[ 7 := 1%nat ]};
       LocalNode.incoming := [5%nat; 2%nat];
       LocalNode.closed := ∅;
       LocalNode.requests := {[ 3 := 1%nat ]};
       LocalNode.pendingCommands := 0%nat;
       LocalNode.events := [] |} in
  let packet := {| LocalNode.requestID := 3; LocalNode.nodeID := 7;
                   LocalNode.nodeType := 1; LocalNode.nodeData := [7] |} in
  ∃ ln',
    LocalNode._cmdConnectReply false 4294967295 isConnected deserialize createNode
                               packet None 2%nat ln = Ok (true, ln') ∧
    LocalNode.incoming ln' = [5%nat] ∧
    LocalNode.connectionNodes ln' = ∅ ∧
    LocalNode.nodes ln' = ∅ ∧
    LocalNode.events ln' = [LocalNode.ServeRequest 3 false].
Proof.
  intros isConnected deserialize createNode peer ln packet.
  destruct (cmdConnectReply_simultaneous false 4294967295 isConnected deserialize
              createNode packet 2%nat 5%nat 1%nat ln peer)
    as (ln' & Hrun & _ & Hin & _ & Hcn & Hns & Hev & _);
    [reflexivity|discriminate|reflexivity|reflexivity|reflexivity|reflexivity
    |by eexists|].
  exists ln'. split; [exact Hrun|]. split; [exact Hin|].
  split; [by rewrite Hcn|]. split; [by rewrite Hns|exact Hev].
Defined.

Lemma cmdDisconnect_outcomes_witness :
  let peer := {| LocalNode._id := 7; LocalNode._state := LocalNode.STATE_CONNECTED;
                 LocalNode._outgoing := Some 5%nat; LocalNode._type := 1 |} in
  let ln :=
    {| LocalNode.this := 0%nat;
       LocalNode.self := {| LocalNode._id := 1;
                            LocalNode._state := LocalNode.STATE_LISTENING;
                            LocalNode._outgoing := Some 0%nat;
                            LocalNode._type := 1 |};
       LocalNode.objects := {[ 1%nat := peer ]};
       LocalNode.allocated := 2%nat;
       LocalNode.connectionNodes := {[ 5%nat := 1%nat ]};
       LocalNode.nodes := {[ 7 := 1%nat ]};
       LocalNode.incoming := [5%nat; 2%nat];
       LocalNode.closed := ∅;
       LocalNode.requests := {[ 4 := 1%nat ]};
       LocalNode.pendingCommands := 0%nat;
       LocalNode.events := [] |} in
  ∃ ln',
    LocalNode._cmdDisconnect false 4 ln =
      Ok (true, ln', [LocalNode.RemoveInstanceData 7; LocalNode.ServeRequestVoid 4]) ∧
    LocalNode.get_node ln' 1%nat = Some (LocalNode.closed_node peer) ∧
    LocalNode.incoming ln' = [2%nat].
Proof.
  intros peer ln.
  destruct (proj1 (cmdDisconnect_outcomes false 4 1%nat peer ln eq_refl eq_refl)
              5%nat eq_refl) as (ln' & Hrun & Hget & Hin & _); [by eexists|].
  exists ln'. split; [exact Hrun|]. split; [exact Hget|exact Hin].
Defined.

Lemma connect_reply_then_disconnect_witness :
  let isConnected := λ n : LocalNode.Node,
    bool_decide (LocalNode._state n = LocalNode.STATE_CONNECTED
                 ∨ LocalNode._state n = LocalNode.STATE_LISTENING) in
  let deserialize := λ (data : list Z) (n : LocalNode.Node),
    (true,
     {| LocalNode._id := default 0 (head data);
        LocalNode._state := LocalNode._state n;
        LocalNode._outgoing := LocalNode._outgoing n;
        LocalNode._type := LocalNode._type n |},
     tail data) in
  let createNode := λ type : Z,
    {| LocalNode._id := 0; LocalNode._state := LocalNode.STATE_CLOSED;
       LocalNode._outgoing := None; LocalNode._type := type |} in
  let expected := {| LocalNode._id := 7; LocalNode._state := LocalNode.STATE_CLOSED;
                     LocalNode._outgoing := None; LocalNode._type := 1 |} in
  let ln :=
    {| LocalNode.this := 0%nat;
       LocalNode.self := {| LocalNode._id := 1;
                            LocalNode._state := LocalNode.STATE_LISTENING;
                            LocalNode._outgoing := Some 0%nat;
                            LocalNode._type := 1 |};
       LocalNode.objects := {[ 1%nat := expected ]};
       LocalNode.allocated := 2%nat;
       LocalNode.connectionNodes := ∅;
       LocalNode.nodes := {[ 7 := 1%nat ]};
       LocalNode.incoming := [2%nat];
       LocalNode.closed := ∅;
       LocalNode.requests := {[ 3 := 1%nat; 4 := 1%nat ]};
       LocalNode.pendingCommands := 0%nat;
       LocalNode.events := [] |} in
  let accepted := {| LocalNode.requestID := 3; LocalNode.nodeID := 7;
                     LocalNode.nodeType := 1; LocalNode.nodeData := [7] |} in
  ∃ ln1 ln2,
    LocalNode._cmdConnectReply false 4294967295 isConnected deserialize createNode
                               accepted None 2%nat ln = Ok (true, ln1) ∧
    LocalNode._cmdDisconnect false 4 ln1 =
      Ok (true, ln2, [LocalNode.RemoveInstanceData 7; LocalNode.ServeRequestVoid 4]) ∧
    LocalNode.connectionNodes ln2 = ∅ ∧
    LocalNode.nodes ln = {[ 7 := 1%nat ]} ∧
    LocalNode.nodes ln2 = ∅ ∧
    LocalNode.incoming ln2 = [].
Proof.
  intros isConnected deserialize createNode expected ln accepted.
  destruct (connect_reply_then_disconnect false 4294967295 isConnected deserialize
              createNode accepted 2%nat 1%nat ln expected expected true 4)
    as (ln1 & ln2 & Hrun1 & Hrun2 & Hcn & Hns & _ & _ & Hin & _);
    [reflexivity|discriminate|discriminate|reflexivity
    |right; split; reflexivity|reflexivity
    |reflexivity|reflexivity|reflexivity|reflexivity|reflexivity|].
  exists ln1, ln2. split; [exact Hrun1|]. split; [exact Hrun2|].
  split; [exact Hcn|]. split; [reflexivity|]. split; [exact Hns|exact Hin].
Defined.

Lemma handshake_connects_both_sides_witness :
  let isConnected := λ n : LocalNode.Node,
    bool_decide (LocalNode._state n = LocalNode.STATE_CONNECTED
                 ∨ LocalNode._state n = LocalNode.STATE_LISTENING) in
  let deserialize := λ (data : list Z) (n : LocalNode.Node),
    (true,
     {| LocalNode._id := default 0 (head data);
        LocalNode._state := LocalNode._state n;
        LocalNode._outgoing := LocalNode._outgoing n;
        LocalNode._type := LocalNode._type n |},
     tail data) in
  let serialize := λ n : LocalNode.Node, [LocalNode._id n] in
  let createNode := λ type : Z,
    {| LocalNode._id := 0; LocalNode._state := LocalNode.STATE_CLOSED;
       LocalNode._outgoing := None; LocalNode._type := type |} in
  let local := λ (id : Z) (objects : gmap nat LocalNode.Node) (requests : gmap Z nat),
    {| LocalNode.this := 0%nat;
       LocalNode.self := {| LocalNode._id := id;
                            LocalNode._state := LocalNode.STATE_LISTENING;
                            LocalNode._outgoing := Some 0%nat;
                            LocalNode._type := 1 |};
       LocalNode.objects := objects;
       LocalNode.allocated := 2%nat;
       LocalNode.connectionNodes := ∅;
       LocalNode.nodes := ∅;
       LocalNode.incoming := [2%nat];
       LocalNode.closed := ∅;
       LocalNode.requests := requests;
       LocalNode.pendingCommands := 0%nat;
       LocalNode.events := [] |} in
  let target := {| LocalNode._id := 0; LocalNode._state := LocalNode.STATE_CLOSED;
                   LocalNode._outgoing := None; LocalNode._type := 1 |} in
  let lnA := local 1 ∅ ∅ in
  let lnB := local 7 {[ 1%nat := target ]} {[ 3 := 1%nat ]} in
  let connect := {| LocalNode.requestID := 3; LocalNode.nodeID := 7;
                    LocalNode.nodeType := 1; LocalNode.nodeData := serialize (LocalNode.self lnB) |} in
  ∃ lnA' reply lnB',
    LocalNode._cmdConnect false (-1) isConnected deserialize serialize createNode
                          connect None 2%nat lnA = Ok (true, lnA') ∧
    LocalNode.events lnA' =
      [LocalNode.ConnectionSend 2 (LocalNode.NodeConnectReplyPacket reply)] ∧
    LocalNode._cmdConnectReply false 4294967295 isConnected deserialize createNode
                               reply None 2%nat lnB = Ok (true, lnB') ∧
    LocalNode.nodes lnA' !! 7 = Some 2%nat ∧
    LocalNode.nodes lnB' !! 1 = Some 1%nat.
Proof.
  intros isConnected deserialize serialize createNode local target lnA lnB connect.
  destruct (handshake_connects_both_sides false 4294967295 (-1) isConnected deserialize
              serialize createNode connect 2%nat 2%nat 1%nat lnA lnB
              {| LocalNode._id := 7; LocalNode._state := LocalNode.STATE_CLOSED;
                 LocalNode._outgoing := None; LocalNode._type := 1 |}
              target
              {| LocalNode._id := 1; LocalNode._state := LocalNode.STATE_CLOSED;
                 LocalNode._outgoing := None; LocalNode._type := 1 |}
              true true)
    as (lnA' & reply & lnB' & HrunA & HevA & HrunB & HnsA & _ & _ & HnsB & _);
    [discriminate|reflexivity|reflexivity|discriminate|reflexivity|reflexivity
    |discriminate|discriminate|reflexivity|reflexivity|left; reflexivity
    |reflexivity|reflexivity|reflexivity|reflexivity|reflexivity|].
  exists lnA', reply, lnB'. split; [exact HrunA|]. split; [exact HevA|].
  split; [exact HrunB|]. split; [exact HnsA|exact HnsB].
Defined.

(** ** The error counter of the receiver thread *)

Section ReceiverFacts.
Import Receiver.

Lemma iterations_snoc (results : list SelectEvent) (result : SelectEvent) (n : Z) :
  fst (iterations (results ++ [result]) n) =
    fst (iteration result (fst (iterations results n))).
Proof.
  revert n. induction results as [|r results IH]; intros n; simpl.
  - by destruct (iteration result n).
  - destruct (iteration r n) as [n1 actions]. specialize (IH n1).
    destruct (iterations (results ++ [result]) n1), (iterations results n1). done.
Qed.

Lemma trailing_errors_snoc (results : list SelectEvent) (result : SelectEvent) :
  trailing_errors (results ++ [result]) =
    if is_error result then S (trailing_errors results) else 0%nat.
Proof. unfold trailing_errors. by rewrite rev_unit. Qed.

Lemma trailing_errors_le (results : list SelectEvent) :
  (trailing_errors results ≤ length results)%nat.
Proof.
  induction results as [|result results IH] using rev_ind; [done|].
  rewrite trailing_errors_snoc, length_app. simpl.
  destruct (is_error result); lia.
Qed.

(** X19 — the error counter of the receiver thread.  After any sequence of
    fewer than 2^31 - 1 [select()] results the counter holds the number of
    results at the end of the sequence that were errors, of either kind: the
    two kinds share one counter, and every other result, a timeout included,
    resets it.  The counter does not overflow.  So an EVENT_ERROR caps the
    connection ([_handleDisconnect]) exactly when at least 100 errors of either
    kind come directly before it, and an EVENT_SELECT_ERROR reaches
    EQUNIMPLEMENTED exactly when at least 10 do. *)
Theorem receiver_error_counter (results : list SelectEvent) :
  Z.of_nat (length results) < 2 ^ 31 - 1 →
  let nErrors := fst (iterations results 0) in
  nErrors = Z.of_nat (trailing_errors results) ∧
  nErrors + 1 < 2 ^ 31 ∧
  snd (iteration EVENT_ERROR nErrors) =
    (if decide (100 ≤ trailing_errors results)%nat then [HandleDisconnect] else []) ∧
  snd (iteration EVENT_SELECT_ERROR nErrors) =
    (if decide (10 ≤ trailing_errors results)%nat then [Unimplemented] else []).
Proof.
  intros Hlen. simpl.
  assert (Hcount : fst (iterations results 0) = Z.of_nat (trailing_errors results)).
  { clear Hlen. induction results as [|result results IH] using rev_ind; [done|].
    rewrite iterations_snoc, trailing_errors_snoc, IH.
    destruct result; simpl; try done; lia. }
  pose proof (trailing_errors_le results) as Hle.
  rewrite Hcount. split; [done|]. split; [lia|].
  unfold iteration. simpl. split.
  - destruct (decide (100 ≤ trailing_errors results)%nat) as [H|H].
    + by rewrite (proj2 (Z.ltb_lt _ _)) by lia.
    + by rewrite (proj2 (Z.ltb_ge _ _)) by lia.
  - destruct (decide (10 ≤ trailing_errors results)%nat) as [H|H].
    + by rewrite (proj2 (Z.ltb_lt _ _)) by lia.
    + by rewrite (proj2 (Z.ltb_ge _ _)) by lia.
Qed.
End ReceiverFacts.

Lemma receiver_error_counter_witness :
  let results := [Receiver.EVENT_DATA] ++ replicate 10 Receiver.EVENT_ERROR in
  fst (Receiver.iterations results 0) = 10 ∧
  snd (Receiver.iteration Receiver.EVENT_ERROR 10) = [] ∧
  snd (Receiver.iteration Receiver.EVENT_SELECT_ERROR 10) = [Receiver.Unimplemented].
Proof.
  intros results.
  destruct (receiver_error_counter results) as (Hn & _ & He & Hs).
  - vm_compute. reflexivity.
  - split; [exact Hn|]. rewrite Hn in He, Hs. split; [exact He|exact Hs].
Defined.

(** ** The cost of a redispatch *)

Section RedispatchCost.
Import Redispatch.
Variable Command : Type.
Variable World : Type.
Variable dispatchCommand : Command → World → bool * World.

Local Abbreviation counted := (counted Command World dispatchCommand).
Local Abbreviation pass := (pass Command (World * nat) counted).
Local Abbreviation redispatch_loop := (redispatch_loop Command (World * nat) counted).

Lemma pass_calls (visited rest : list Command) (w : World * nat) :
  (snd (snd (pass visited rest w)) ≤ snd w + length rest)%nat.
Proof.
  revert visited w. induction rest as [|c rest IH]; intros visited w; simpl.
  - lia.
  - unfold Redispatch.counted at 1.
    destruct (dispatchCommand c (fst w)) as [[] w1]; simpl.
    + lia.
    + specialize (IH (visited ++ [c]) (w1, S (snd w))). simpl in IH. lia.
Qed.

Lemma redispatch_loop_calls (pending released : list Command) (w : World * nat) :
  (2 * snd (snd (redispatch_loop pending released w))
   ≤ 2 * snd w + length pending * (length pending + 1))%nat.
Proof.
  funelim (redispatch_loop pending released w).
  - simpl. lia.
  - clear Heqcall. pose proof (pass_calls [] (c :: cs) w) as Hcalls.
    pose proof (pass_length _ _ _ _ _ _ _ _ _ _ Hp) as Hlen.
    rewrite Hp in Hcalls. simpl in Hcalls, Hlen. simpl. nia.
  - clear Heqcall. pose proof (pass_calls [] (c :: cs) w) as Hcalls.
    pose proof (pass_length _ _ _ _ _ _ _ _ _ _ Hp) as Hlen.
    rewrite Hp in Hcalls. simpl in Hcalls, Hlen. simpl. nia.
  - clear Heqcall. pose proof (pass_calls [] (c :: cs) w) as Hcalls.
    rewrite Hp in Hcalls. simpl in Hcalls. simpl. nia.
Qed.

(** X20 — the cost of [_redispatchCommands]: with [n] commands pending, the
    loop calls [dispatchCommand] at most n (n + 1) / 2 times, whatever the
    handlers do. *)
Theorem redispatch_quadratic (pending : list Command) (w : World) :
  let n := length pending in
  let '(_, _, (_, calls)) := redispatch_loop pending [] (w, 0%nat) in
  (2 * calls ≤ n * (n + 1))%nat.
Proof.
  pose proof (redispatch_loop_calls pending [] (w, 0%nat)) as H.
  destruct (redispatch_loop pending [] (w, 0%nat)) as [[p r] [w' calls]].
  simpl in *. lia.
Qed.
End RedispatchCost.

(** ** The command line of initLocal *)

Section InitLocalFacts.
Import InitLocal.
Variable NDEBUG : bool.
Variable fromString : string → bool * string.

Local Abbreviation parse := (parse NDEBUG fromString).
Local Abbreviation option_at := (option_at fromString).
Local Arguments String.eqb : simpl never.
Local Arguments has_value : simpl never.

Lemma has_value_no_option (value : string) :
  has_value value = true →
  String.eqb "--eq-listen" value = false ∧ String.eqb "--co-globals" value = false.
Proof.
  intros Hv. split.
  - destruct (String.eqb_spec "--eq-listen" value) as [<-|]; [discriminate|done].
  - destruct (String.eqb_spec "--co-globals" value) as [<-|]; [discriminate|done].
Qed.

Lemma lookup_behind {A} (pre l : list A) (k : nat) :
  (pre ++ l) !! (length pre + k)%nat = l !! k.
Proof. rewrite lookup_app_r by lia. f_equal. lia. Qed.

Lemma option_at_shift (pre : list string) (arg : string) (rest : list string) :
  imap (λ j, option_at (pre ++ arg :: rest) (length pre + S j)) rest =
  imap (λ j, option_at ((pre ++ [arg]) ++ rest) (length (pre ++ [arg]) + j)) rest.
Proof.
  apply imap_ext. intros j x _. rewrite <- app_assoc, length_app. simpl.
  f_equal. lia.
Qed.

Lemma parse_reads_each_option (n : nat) (args pre : list string) (evs : list Event) :
  (length args ≤ n)%nat →
  pre ≠ [] →
  parse args = Ok evs →
  evs = concat (imap (λ j, option_at (pre ++ args) (length pre + j)) args).
Proof.
  revert args pre evs. induction n as [|n IH]; intros args pre evs Hlen Hpre.
  { destruct args; [|simpl in Hlen; lia]. by intros [= <-]. }
  destruct args as [|arg rest]; [by intros [= <-]|].
  simpl in Hlen.
  assert (Hpos : (length pre + 0 =? 0)%nat = false).
  { apply Nat.eqb_neq. destruct pre; [done|simpl; lia]. }
  assert (Hnext : (pre ++ arg :: rest) !! S (length pre + 0) = rest !! 0%nat).
  { replace (S (length pre + 0)) with (length pre + 1)%nat by lia.
    by rewrite lookup_behind. }
  assert (Hrest : ∀ evs', parse rest = Ok evs' →
            evs' = concat (imap ((λ j, option_at (pre ++ arg :: rest) (length pre + j)) ∘ S)
                             rest)).
  { intros evs' Hrun. unfold compose. rewrite option_at_shift.
    apply IH; [lia|by destruct pre|done]. }
  assert (Hrest' : ∀ value rest' evs', rest = value :: rest' → has_value value = true →
            parse rest' = Ok evs' →
            evs' = concat (imap ((λ j, option_at (pre ++ arg :: rest) (length pre + j)) ∘ S)
                             rest)).
  { intros value rest' evs' -> Hv Hrun. rewrite imap_cons. simpl.
    unfold InitLocal.option_at at 1.
    destruct (has_value_no_option value Hv) as [-> ->]. simpl.
    replace (length pre + 1 =? 0)%nat with false
      by (symmetry; apply Nat.eqb_neq; lia).
    simpl. unfold compose.
    pose proof (option_at_shift (pre ++ [arg]) value rest') as Hshift.
    rewrite <- !app_assoc in Hshift. simpl in Hshift.
    rewrite length_app in Hshift. simpl in Hshift.
    erewrite imap_ext; [rewrite Hshift|].
    - replace (pre ++ arg :: value :: rest') with ((pre ++ [arg; value]) ++ rest')
        by (by rewrite <- app_assoc).
      apply IH; [simpl in Hlen; lia|by destruct pre|done].
    - intros j x _. simpl. f_equal. lia. }
  rewrite imap_cons. simpl.
  unfold InitLocal.option_at at 1. rewrite Hpos, Hnext.
  remember (InitLocal.parse NDEBUG fromString rest) as next eqn:Hn.
  symmetry in Hn.
  destruct (String.eqb "--eq-listen" arg) eqn:Hlisten; simpl.
  - destruct rest as [|value rest']; [by intros [= <-]|]. simpl.
    destruct (has_value value) eqn:Hv.
    + destruct (fromString value) as [[] data]; simpl.
      * unfold EQASSERT.
        destruct NDEBUG; [|destruct (String.eqb data ""); [|discriminate]];
          destruct (InitLocal.parse _ _ rest') as [evs'| |] eqn:Hrun;
          simpl; try discriminate; intros [= <-]; f_equal;
          by apply (Hrest' value rest').
      * destruct (InitLocal.parse _ _ rest') as [evs'| |] eqn:Hrun;
          simpl; try discriminate; intros [= <-]; f_equal.
        by apply (Hrest' value rest').
    + destruct next as [evs'| |]; simpl; try discriminate.
      intros [= <-]. f_equal. by apply Hrest.
  - destruct (String.eqb "--co-globals" arg) eqn:Hglobals; simpl.
    + destruct rest as [|value rest']; [by intros [= <-]|]. simpl.
      destruct (has_value value) eqn:Hv.
      * destruct (InitLocal.parse _ _ rest') as [evs'| |] eqn:Hrun;
          simpl; try discriminate; intros [= <-]; f_equal.
        by apply (Hrest' value rest').
      * destruct next as [evs'| |]; simpl; try discriminate.
        intros [= <-]. f_equal. by apply Hrest.
    + intros ->. by apply Hrest.
Qed.

(** X21 — the command line of [initLocal] is read option by option, and no
    argument is read twice.  When the function returns, it returns what
    [listen()] returned, and what it did for the command line is, in order, what
    each argument asks for when looked at with the argument behind it only:
    [argv[0]] asks for nothing, an argument that is neither "--eq-listen" nor
    "--co-globals" asks for nothing, and one of the two options takes the
    argument behind it as its value unless there is none or it starts with '-',
    which is reported.  In particular the value of an option is never taken
    for an option itself. *)
Theorem initLocal_reads_each_option (argv : list string) (listen result : bool)
    (evs : list Event) :
  initLocal NDEBUG fromString argv listen = Ok (result, evs) →
  result = listen ∧ evs = concat (imap (option_at argv) argv).
Proof.
  unfold initLocal.
  destruct (InitLocal.parse _ _ (tail argv)) as [evs'| |] eqn:Hrun;
    simpl; try discriminate.
  intros [= <- <-]. split; [done|].
  destruct argv as [|arg0 args]; simpl in Hrun.
  - by injection Hrun as <-.
  - rewrite imap_cons. simpl.
    rewrite (parse_reads_each_option (length args) args [arg0] evs' (le_n _)
               ltac:(done) Hrun).
    f_equal.
Qed.
End InitLocalFacts.

Lemma initLocal_reads_each_option_witness :
  let fromString := λ data : string, (true, ""%string) in
  let argv := ["prog"; "--eq-listen"; "--co-globals"; "x"; "--eq-listen"; "host:1";
               "--eq-listen"]%string in
  InitLocal.initLocal false fromString argv true =
    Ok (true, [InitLocal.NoArgument "--eq-listen";
               InitLocal.GlobalFromString "x";
               InitLocal.AddConnectionDescription "host:1";
               InitLocal.NoArgument "--eq-listen"]) ∧
  concat (imap (InitLocal.option_at fromString argv) argv) =
    [InitLocal.NoArgument "--eq-listen";
     InitLocal.GlobalFromString "x";
     InitLocal.AddConnectionDescription "host:1";
     InitLocal.NoArgument "--eq-listen"].
Proof.
  intros fromString argv. split; [vm_compute; reflexivity|].
  symmetry.
  exact (proj2 (initLocal_reads_each_option false fromString argv true true _ eq_refl)).
Defined.

(** ** ObjectDataIStream after reset(), in a debug build *)

Section ObjectDataIStreamReset.
Import ObjectDataIStream.
Variable VERSION_INVALID : Z.

(** The debug-build check of [addDataPacket] behind any first entry of the
    deque, null or not: only the entries behind the first one are compared
    with the incoming packet. *)
Lemma check_packet_behind (front : option Command) (pre : list Command)
    (c : Command) (s : Stream) :
  _commands s = front :: (Some <$> pre) →
  sequenced pre →
  (sequenced (pre ++ [c]) ∧ check_packet false (getPacket c) s = Ok tt) ∨
  (¬ sequenced (pre ++ [c]) ∧ check_packet false (getPacket c) s = AssertFail).
Proof.
  intros Hs Hpre. unfold check_packet. rewrite Hs.
  rewrite sequenced_snoc.
  destruct pre as [|q0 pre0] using rev_ind; simpl.
  - unfold EQASSERT. destruct (Z.eqb_spec (sequence (getPacket c)) 0) as [E|E].
    + left. split; [|done]. split; [done|]. split; [done|].
      intros q. by rewrite elem_of_nil.
    + right. split; [|done]. intros (_ & E' & _). done.
  - clear IHpre0.
    rewrite length_fmap, length_app, fmap_app. simpl.
    replace (S (length pre0 + 1) <? 2)%nat with false
      by (symmetry; apply Nat.ltb_ge; lia).
    rewrite app_comm_cons, last_snoc. simpl.
    apply sequenced_snoc in Hpre as (Hpre0 & Hq0 & Hq0v).
    unfold EQASSERT.
    destruct (Z.eqb_spec (sequence (getPacket c))
                (wrap32 (sequence (getPacket q0) + 1))) as [E|E].
    + destruct (Z.eqb_spec (version (getPacket c)) (version (getPacket q0))) as [V|V].
      * left. split; [|done]. split; [by apply sequenced_snoc|]. split.
        -- rewrite E, Hq0, wrap32_succ. f_equal. lia.
        -- intros q [Hq|Hq%list_elem_of_singleton]%elem_of_app; subst; [|done].
           rewrite V. by apply Hq0v.
      * right. split; [|done]. intros (_ & _ & Hv). apply V, Hv.
        apply elem_of_app. right. by apply list_elem_of_singleton.
    + right. split; [|done]. intros (_ & Hc & _). apply E.
      rewrite Hc, Hq0, wrap32_succ. f_equal. lia.
Qed.

Lemma addDataPackets_behind (front : option Command) (cmds pre : list Command)
    (s : Stream) :
  _commands s = front :: (Some <$> pre) →
  sequenced pre →
  (sequenced (pre ++ cmds) ∧
   ∃ s', addDataPackets false cmds s = Ok s' ∧
         _commands s' = front :: (Some <$> pre ++ cmds)) ∨
  (¬ sequenced (pre ++ cmds) ∧ addDataPackets false cmds s = AssertFail).
Proof.
  revert pre s. induction cmds as [|c rest IH]; intros pre s Hs Hpre.
  - left. rewrite app_nil_r. eauto.
  - simpl. destruct (check_packet_behind front pre c s Hs Hpre) as [[Hc Hok]|[Hc Hfail]].
    + destruct (addDataPacket false c s) as [s1| |] eqn:Hadd;
        unfold addDataPacket in Hadd; rewrite Hok in Hadd; simpl in Hadd;
        try discriminate.
      assert (Hs1 : _commands s1 = front :: (Some <$> pre ++ [c])).
      { injection Hadd as <-. rewrite fmap_app.
        destruct (last (getPacket c)); simpl; by rewrite Hs. }
      simpl. rewrite (cons_middle c pre rest), app_assoc.
      destruct (IH (pre ++ [c]) s1 Hs1 Hc) as [[Hall (s' & Hrun & Hs')]|[Hall Hrun]].
      * left. split; [done|]. by exists s'.
      * right. done.
    + right. unfold addDataPacket. rewrite Hfail. simpl. split; [|done].
      intros Hall. apply Hc. rewrite (cons_middle c pre rest), app_assoc in Hall.
      by apply sequenced_app_l in Hall.
Qed.

(** X22 — what a stream accepts after [reset()], in a debug build.  The
    first packet must have sequence 0; it then takes the place of the null
    entry the constructor puts in front: the packets behind it are checked
    among themselves only, so they must again start at sequence 0 and share a
    version, which need not be the version of the first packet.  Every other
    list of packets runs into an assertion. *)
Theorem reset_stream_accepts (c0 : Command) (cmds : list Command) (s : Stream) :
  let accepted := sequence (getPacket c0) = 0 ∧ sequenced cmds in
  (accepted ∧
   ∃ s', addDataPackets false (c0 :: cmds) (reset VERSION_INVALID s) = Ok s' ∧
         _commands s' = Some c0 :: (Some <$> cmds)) ∨
  (¬ accepted ∧
   addDataPackets false (c0 :: cmds) (reset VERSION_INVALID s) = AssertFail).
Proof.
  simpl.
  assert (Hfirst :
    addDataPacket false c0 (reset VERSION_INVALID s) =
      if sequence (getPacket c0) =? 0
      then Ok (let s1 := {| _commands := [Some c0]; _version := VERSION_INVALID;
                            ready := false;
                            held := S (release_all (_commands s) (held s)) |} in
               if last (getPacket c0) then _setReady s1 else s1)
      else AssertFail).
  { unfold addDataPacket, check_packet, EQASSERT. simpl.
    by destruct (sequence (getPacket c0) =? 0). }
  rewrite Hfirst. destruct (Z.eqb_spec (sequence (getPacket c0)) 0) as [E|E]; simpl.
  - match goal with |- context [addDataPackets false cmds ?t] => set (s1 := t) end.
    assert (Hs1 : _commands s1 = Some c0 :: (Some <$> [])).
    { unfold s1. by destruct (last (getPacket c0)). }
    destruct (addDataPackets_behind (Some c0) cmds [] s1 Hs1 sequenced_nil)
      as [[Hall (s' & Hrun & Hs')]|[Hall Hrun]].
    + left. split; [done|]. by exists s'.
    + right. split; [|done]. by intros [_ H].
  - right. split; [|done]. by intros [H _].
Qed.
End ObjectDataIStreamReset.
